(** * Evaluation of extended definitions (cs_xdef_eval.c)

    A shallow embedding of the bulk and cellwise evaluators of
    [src/src/cdo/cs_xdef_eval.c] together with the inline helpers on
    vectors and 3x3 tensors of [src/src/base/cs_math.h].

    Conventions of the embedding.
    - [cs_real_t] (a C double) is read as a real number: every statement
      below is about exact arithmetic, rounding is not modelled.
    - [cs_lnum_t] and the [short int] local ids are natural numbers; a list
      of element ids that may be [NULL] is an [option (list nat)].  Integers
      are not bounded: an index inside an array that C can address does not
      overflow, and an index outside of the array is undefined anyway.
    - The output array [eval] is the state of the execution monad [M].  It is
      a list; reading or writing outside of it has no defined behaviour in C
      and yields the outcome [Undefined].
    - Read-only arrays (values of a definition, connectivity, geometric
      quantities) are lists read with [fetch]; local arrays and local
      variables are values carried by the loops.
    - [assert] is a precondition: a run that violates it is [Undefined].
    - [bft_error] stops the evaluation: the outcome [Aborts] carries the
      message and the output array as it was when the error was raised. *)

From Stdlib Require Import Reals Lra Lia ZArith NArith List String.
From stdpp Require Import base list.
Import ListNotations.

(** ** Basic types *)

Definition cs_real_t : Type := R.
Definition cs_lnum_t : Type := nat.
Definition cs_flag_t : Type := N.
Definition cs_real_3_t : Type := (R * R * R)%type.
Definition cs_real_33_t : Type := (cs_real_3_t * cs_real_3_t * cs_real_3_t)%type.

(** Component [k] of a vector, as the C expression [v[k]] with [k] in 0..2. *)
Definition comp (v : cs_real_3_t) (k : nat) : R :=
  let '(x, y, z) := v in
  match k with 0 => x | 1 => y | _ => z end.

(** Row [k] of a 3x3 tensor, as [m[k]]. *)
Definition row (m : cs_real_33_t) (k : nat) : cs_real_3_t :=
  let '(r0, r1, r2) := m in
  match k with 0 => r0 | 1 => r1 | _ => r2 end.

(** cs_math.h, line 154. *)
Definition cs_math_3_dot_product (u v : cs_real_3_t) : R :=
  (comp u 0 * comp v 0 + comp u 1 * comp v 1 + comp u 2 * comp v 2)%R.

Abbreviation _dp3 := cs_math_3_dot_product (only parsing).

(** cs_math.h, line 208: the result [mv] is returned instead of being
    written through a pointer; the callers below store it where the C code
    passes the pointer. *)
Definition cs_math_33_3_product (m : cs_real_33_t) (v : cs_real_3_t) : cs_real_3_t :=
  ((comp (row m 0) 0 * comp v 0 + comp (row m 0) 1 * comp v 1 + comp (row m 0) 2 * comp v 2)%R,
   (comp (row m 1) 0 * comp v 0 + comp (row m 1) 1 * comp v 1 + comp (row m 1) 2 * comp v 2)%R,
   (comp (row m 2) 0 * comp v 0 + comp (row m 2) 1 * comp v 1 + comp (row m 2) 2 * comp v 2)%R).

(** [cs_flag_test(flag, mask)]: all the bits of [mask] are set in [flag]. *)
Definition cs_flag_test (flag mask : cs_flag_t) : bool :=
  (N.land flag mask =? mask)%N.

(** ** Execution monad *)

Inductive outcome (A : Type) : Type :=
| Returns (a : A) (eval : list R)
| Aborts (msg : string) (eval : list R)
| Undefined.

Arguments Returns {A} a eval.
Arguments Aborts {A} msg eval.
Arguments Undefined {A}.

Definition M (A : Type) : Type := list R -> outcome A.

Definition ret {A} (a : A) : M A := fun ev => Returns a ev.

Definition bind {A B} (m : M A) (k : A -> M B) : M B :=
  fun ev =>
    match m ev with
    | Returns a ev' => k a ev'
    | Aborts msg ev' => Aborts msg ev'
    | Undefined => Undefined
    end.

Declare Scope cs_scope.
Delimit Scope cs_scope with cs.
Notation "x <- c1 ;; c2" := (bind c1 (fun x => c2))
  (at level 100, c1 at next level, right associativity) : cs_scope.
Notation "c1 ;;; c2" := (bind c1 (fun _ => c2))
  (at level 100, right associativity) : cs_scope.
Local Open Scope cs_scope.

(** Modelled from the spec: [bft_error] is defined in another library
    (bft_error.h); an error raised through it is fatal, an immediate abort of
    the call, which does not return a partial or default result.  The
    message is the format of [bft_error(__FILE__, __LINE__, 0, fmt, ...)]
    with its arguments substituted. *)
Definition bft_error {A} (msg : string) : M A := fun ev => Aborts msg ev.

(** An access outside of an array, or a violated [assert]: assertions are
    checked in debug builds only, what follows a violated one is not
    specified. *)
Definition undefined {A} : M A := fun _ => Undefined.

Definition assert (b : bool) : M unit := if b then ret tt else undefined.

(** [a[i]] for a read-only or local array [a]. *)
Definition fetch {T} (a : list T) (i : nat) : M T :=
  match a !! i with Some x => ret x | None => undefined end.

(** [a[i] = x] for a local array [a]. *)
Definition update {T} (a : list T) (i : nat) (x : T) : M (list T) :=
  if decide (i < length a) then ret (<[i:=x]> a) else undefined.

(** [eval[i]] and [eval[i] = x]. *)
Definition load (i : nat) : M R :=
  fun ev => match ev !! i with Some x => Returns x ev | None => Undefined end.

Definition store (i : nat) (x : R) : M unit :=
  fun ev => if decide (i < length ev) then Returns tt (<[i:=x]> ev) else Undefined.

(** [eval[i] += x] and [eval[i] *= x]. *)
Definition add_to (i : nat) (x : R) : M unit :=
  y <- load i ;; store i (y + x)%R.

Definition scale (i : nat) (x : R) : M unit :=
  y <- load i ;; store i (y * x)%R.

(** Three consecutive reals of a read-only array, starting at [off]. *)
Definition fetch3 (a : list R) (off : nat) : M cs_real_3_t :=
  x <- fetch a off ;; y <- fetch a (off + 1) ;; z <- fetch a (off + 2) ;;
  ret (x, y, z).

(** [for (i = lo; i < hi; i++) acc = body(i, acc)]: the loop carries the
    local variables [acc] the body updates. *)
Fixpoint for_from {T} (k i : nat) (body : nat -> T -> M T) (acc : T) : M T :=
  match k with
  | O => ret acc
  | S k' => acc' <- body i acc ;; for_from k' (S i) body acc'
  end.

Definition for_acc {T} (lo hi : nat) (body : nat -> T -> M T) (acc : T) : M T :=
  for_from (hi - lo) lo body acc.

Definition for_ (lo hi : nat) (body : nat -> M unit) : M unit :=
  for_acc lo hi (fun i _ => body i) tt.

(** [memcpy(eval, src, n * sizeof(cs_real_t))]. *)
Definition memcpy (src : list R) (n : nat) : M unit :=
  for_ 0 n (fun i => x <- fetch src i ;; store i x).

(** ** Data structures

    The structures are declared in other headers of the library; each
    record lists the members the evaluators read. *)

Record cs_adjacency_t := {
  idx : list cs_lnum_t;
  ids : list cs_lnum_t
}.

Record cs_cdo_connect_t := {
  c2v : cs_adjacency_t;
  c2e : cs_adjacency_t;
  f2e : cs_adjacency_t;
  e2v : cs_adjacency_t
}.

Record cs_cdo_quantities_t := {
  n_cells : cs_lnum_t;
  n_faces : cs_lnum_t;
  n_vertices : cs_lnum_t;
  vtx_coord : list R;
  dcell_vol : list R
}.

Record cs_time_step_t := { t_cur : R }.

Record cs_quant_t := {
  meas : R;
  unitv : cs_real_3_t;
  center : cs_real_3_t
}.

Record cs_xdef_array_input_t := {
  stride : nat;
  loc : cs_flag_t;
  values : list R;
  index : option (list cs_lnum_t)
}.

Record cs_field_t := {
  dim : nat;
  location_id : Z;
  val : list R
}.

Record cs_cell_mesh_t := {
  flag : cs_flag_t;
  c_id : cs_lnum_t;
  xc : cs_real_3_t;
  n_vc : nat;
  v_ids : list cs_lnum_t;
  wvc : list R;
  xv : list R;
  face : list cs_quant_t;
  edge : list cs_quant_t;
  f2e_idx : list nat;
  f2e_ids : list nat;
  e2v_ids : list nat;
  tef : list R
}.

Inductive cs_quadrature_type_t :=
| CS_QUADRATURE_NONE
| CS_QUADRATURE_BARY
| CS_QUADRATURE_BARY_SUBDIV
| CS_QUADRATURE_HIGHER
| CS_QUADRATURE_HIGHEST
| CS_QUADRATURE_N_TYPES.

(** An analytic definition: the callback [anai->func] with its context
    [anai->input] applied, as a function of the time and of the position.
    [cs_analytic_func_t] returns the values at one point as a list of the
    dimension of the quantity; the two other types are the vector-valued and
    tensor-valued cases the flux evaluators use. *)
Definition cs_analytic_func_t : Type := R -> cs_real_3_t -> list R.
Definition cs_analytic_vect_t : Type := R -> cs_real_3_t -> cs_real_3_t.
Definition cs_analytic_tens_t : Type := R -> cs_real_3_t -> cs_real_33_t.

(** [cs_quadrature_tria_integral_t]: the contribution of one triangle
    (three vertices and its area) to the integral of an analytic function. *)
Definition cs_quadrature_tria_integral_t : Type :=
  R -> cs_real_3_t -> cs_real_3_t -> cs_real_3_t -> R -> cs_analytic_func_t -> list R.

(** ** External collaborators

    Constants and functions the evaluators use and that other files of the
    library define (cs_flag.h, cs_cdo_local.h, cs_mesh_location.h, cs_reco.h,
    cs_quadrature.h, cs_cdo_quantities.h, cs_cdo_connect.h, cs_math.c).  The
    evaluators are parameterised by them. *)

Class Collaborators := {
  (** Location flags of cs_flag.h. *)
  cs_flag_primal_cell : cs_flag_t;
  cs_flag_primal_vtx : cs_flag_t;
  cs_flag_dual_face_byc : cs_flag_t;
  (** Capability flags of a [cs_cell_mesh_t] (cs_cdo_local.h). *)
  CS_CDO_LOCAL_PVQ : cs_flag_t;
  CS_CDO_LOCAL_EV : cs_flag_t;
  CS_CDO_LOCAL_FE : cs_flag_t;
  CS_CDO_LOCAL_FEQ : cs_flag_t;
  (** Number of edges of a triangular face. *)
  CS_TRIANGLE_CASE : nat;
  (** Id of a mesh location given by its name. *)
  cs_mesh_location_get_id_by_name : string -> Z;
  (** Modelled from the spec: the reconstruction primitives are not part of
      this file; each one, given values at one support and a target cell,
      produces the interpolated value at the cell center.  The value is what
      the C function writes through its last argument. *)
  cs_reco_pv_at_cell_center :
    cs_lnum_t -> cs_adjacency_t -> cs_cdo_quantities_t -> list R -> R;
  cs_reco_dfbyc_at_cell_center :
    cs_lnum_t -> cs_adjacency_t -> cs_cdo_quantities_t -> list R -> cs_real_3_t;
  cs_reco_dfbyc_in_cell : cs_cell_mesh_t -> list R -> cs_real_3_t;
  (** Area of the triangle spanned by an edge and a face center. *)
  cs_compute_area_from_quant : cs_quant_t -> cs_real_3_t -> R;
  cs_math_surftri : cs_real_3_t -> cs_real_3_t -> cs_real_3_t -> R;
  cs_math_onethird : R;
  (** Geometric quantities of a face of the mesh. *)
  cs_quant_set_face : cs_lnum_t -> cs_cdo_quantities_t -> cs_quant_t;
  (** The three vertices of a triangular face whose edges start at a given
      position of the face-to-edge connectivity. *)
  cs_connect_get_next_3_vertices :
    list cs_lnum_t -> list cs_lnum_t -> cs_lnum_t -> cs_lnum_t * cs_lnum_t * cs_lnum_t;
  (** Three-point rule on a triangle: the Gauss points and their weight. *)
  cs_quadrature_tria_3pts :
    cs_real_3_t -> cs_real_3_t -> cs_real_3_t -> R ->
    (cs_real_3_t * cs_real_3_t * cs_real_3_t) * R;
  (** Modelled from the spec: the quadrature rules are not part of this
      file; each sub-triangle contributes additively to its parent face's
      integral.  The list is the contribution, one real per component. *)
  cs_quadrature_tria_1pt_scal : cs_quadrature_tria_integral_t;
  cs_quadrature_tria_3pts_scal : cs_quadrature_tria_integral_t;
  cs_quadrature_tria_4pts_scal : cs_quadrature_tria_integral_t;
  cs_quadrature_tria_1pt_vect : cs_quadrature_tria_integral_t;
  cs_quadrature_tria_3pts_vect : cs_quadrature_tria_integral_t;
  cs_quadrature_tria_4pts_vect : cs_quadrature_tria_integral_t
}.

(** The message of [bft_error(..., " %s: text", __func__)]. *)
Definition in_func (func text : string) : string :=
  (" " ++ func ++ ": " ++ text)%string.

Section Evaluators.

Context `{Collaborators}.

(** ** Bulk evaluators by value *)

(** cs_xdef_eval.c, lines 95-128. *)
Definition cs_xdef_eval_scalar_by_val
    (n_elts : cs_lnum_t) (elt_ids : option (list cs_lnum_t)) (compact : bool)
    (input : list R) : M unit :=
  let constant_val := input in
  match elt_ids, compact with
  | Some elt_ids, false =>
      for_ 0 n_elts (fun i =>
        id <- fetch elt_ids i ;;
        c0 <- fetch constant_val 0 ;;
        store id c0)
  | _, _ =>
      for_ 0 n_elts (fun i =>
        c0 <- fetch constant_val 0 ;;
        store i c0)
  end.

(** cs_xdef_eval.c, lines 170-210. *)
Definition cs_xdef_eval_vector_by_val
    (n_elts : cs_lnum_t) (elt_ids : option (list cs_lnum_t)) (compact : bool)
    (input : list R) : M unit :=
  let constant_val := input in
  match elt_ids, compact with
  | Some elt_ids, false =>
      for_ 0 n_elts (fun i =>
        id <- fetch elt_ids i ;;
        c0 <- fetch constant_val 0 ;; store (3 * id) c0 ;;;
        c1 <- fetch constant_val 1 ;; store (3 * id + 1) c1 ;;;
        c2 <- fetch constant_val 2 ;; store (3 * id + 2) c2)
  | _, _ =>
      for_ 0 n_elts (fun i =>
        c0 <- fetch constant_val 0 ;; store (3 * i) c0 ;;;
        c1 <- fetch constant_val 1 ;; store (3 * i + 1) c1 ;;;
        c2 <- fetch constant_val 2 ;; store (3 * i + 2) c2)
  end.

(** cs_xdef_eval.c, lines 255-301.  [constant_val[ki][kj]] is the real at
    position [3*ki+kj] of the input; [shift_eval = eval + 9*id]. *)
Definition cs_xdef_eval_tensor_by_val
    (n_elts : cs_lnum_t) (elt_ids : option (list cs_lnum_t)) (compact : bool)
    (input : list R) : M unit :=
  let constant_val := input in
  match elt_ids, compact with
  | Some elt_ids, false =>
      for_ 0 n_elts (fun i =>
        id <- fetch elt_ids i ;;
        let shift_eval := 9 * id in
        for_ 0 3 (fun ki =>
          for_ 0 3 (fun kj =>
            c <- fetch constant_val (3 * ki + kj) ;;
            store (shift_eval + (3 * ki + kj)) c)))
  | _, _ =>
      for_ 0 n_elts (fun i =>
        let shift_eval := 9 * i in
        for_ 0 3 (fun ki =>
          for_ 0 3 (fun kj =>
            c <- fetch constant_val (3 * ki + kj) ;;
            store (shift_eval + (3 * ki + kj)) c)))
  end.

(** ** Bulk evaluators by array *)

(** cs_xdef_eval.c, lines 688-771. *)
Definition cs_xdef_eval_scalar_at_cells_by_array
    (n_elts : cs_lnum_t) (elt_ids : option (list cs_lnum_t)) (compact : bool)
    (connect : cs_cdo_connect_t) (quant : cs_cdo_quantities_t)
    (input : cs_xdef_array_input_t) : M unit :=
  let array_input := input in
  assert (stride array_input =? 1) ;;;
  if (N.land (loc array_input) cs_flag_primal_cell =? cs_flag_primal_cell)%N then
    match elt_ids, compact with
    | Some elt_ids, false =>
        for_ 0 n_elts (fun i =>
          c_id <- fetch elt_ids i ;;
          x <- fetch (values array_input) c_id ;;
          store c_id x)
    | Some elt_ids, true =>
        for_ 0 n_elts (fun i =>
          c_id <- fetch elt_ids i ;;
          x <- fetch (values array_input) c_id ;;
          store i x)
    | None, _ =>
        memcpy (values array_input) n_elts
    end
  else if (N.land (loc array_input) cs_flag_primal_vtx =? cs_flag_primal_vtx)%N then
    match elt_ids, compact with
    | Some elt_ids, false =>
        for_ 0 n_elts (fun i =>
          c_id <- fetch elt_ids i ;;
          store c_id
            (cs_reco_pv_at_cell_center c_id (c2v connect) quant (values array_input)))
    | Some elt_ids, true =>
        for_ 0 n_elts (fun i =>
          c_id <- fetch elt_ids i ;;
          store i
            (cs_reco_pv_at_cell_center c_id (c2v connect) quant (values array_input)))
    | None, _ =>
        for_ 0 n_elts (fun i =>
          store i
            (cs_reco_pv_at_cell_center i (c2v connect) quant (values array_input)))
    end
  else
    bft_error (in_func "cs_xdef_eval_scalar_at_cells_by_array"
                       "Invalid support for the input array").

(** [p[0..2] = v] for a vector [v] written at offset [p] of the output. *)
Definition store3 (p : nat) (v : cs_real_3_t) : M unit :=
  store p (comp v 0) ;;; store (p + 1) (comp v 1) ;;; store (p + 2) (comp v 2).

(** cs_xdef_eval.c, lines 790-880.  The second assertion of the dual-face
    branch compares two pointers; here it compares the two index arrays. *)
Definition cs_xdef_eval_nd_at_cells_by_array
    (n_elts : cs_lnum_t) (elt_ids : option (list cs_lnum_t)) (compact : bool)
    (connect : cs_cdo_connect_t) (quant : cs_cdo_quantities_t)
    (input : cs_xdef_array_input_t) : M unit :=
  let array_input := input in
  let stride := stride array_input in
  assert (1 <? stride) ;;;
  if cs_flag_test (loc array_input) cs_flag_primal_cell then
    match elt_ids, compact with
    | Some elt_ids, false =>
        for_ 0 n_elts (fun i =>
          c_id <- fetch elt_ids i ;;
          for_ 0 stride (fun k =>
            x <- fetch (values array_input) (stride * c_id + k) ;;
            store (stride * c_id + k) x))
    | Some elt_ids, true =>
        for_ 0 n_elts (fun i =>
          c_id <- fetch elt_ids i ;;
          for_ 0 stride (fun k =>
            x <- fetch (values array_input) (stride * c_id + k) ;;
            store (stride * i + k) x))
    | None, _ =>
        memcpy (values array_input) (stride * n_elts)
    end
  else if cs_flag_test (loc array_input) cs_flag_dual_face_byc then
    assert (stride =? 3) ;;;
    assert (bool_decide (index array_input = Some (idx (c2e connect)))) ;;;
    match elt_ids, compact with
    | Some elt_ids, false =>
        for_ 0 n_elts (fun i =>
          c_id <- fetch elt_ids i ;;
          store3 (c_id * stride)
            (cs_reco_dfbyc_at_cell_center c_id (c2e connect) quant (values array_input)))
    | Some elt_ids, true =>
        for_ 0 n_elts (fun i =>
          c_id <- fetch elt_ids i ;;
          store3 (i * stride)
            (cs_reco_dfbyc_at_cell_center c_id (c2e connect) quant (values array_input)))
    | None, _ =>
        for_ 0 n_elts (fun i =>
          store3 (i * stride)
            (cs_reco_dfbyc_at_cell_center i (c2e connect) quant (values array_input)))
    end
  else
    bft_error (in_func "cs_xdef_eval_nd_at_cells_by_array"
                       "Invalid case for the input array").

(** cs_xdef_eval.c, lines 898-972. *)
Definition cs_xdef_eval_at_vertices_by_array
    (n_elts : cs_lnum_t) (elt_ids : option (list cs_lnum_t)) (compact : bool)
    (input : cs_xdef_array_input_t) : M unit :=
  let array_input := input in
  let stride := stride array_input in
  if cs_flag_test (loc array_input) cs_flag_primal_vtx then
    match elt_ids, compact with
    | Some elt_ids, false =>
        match stride with
        | 1 =>
            for_ 0 n_elts (fun i =>
              v_id <- fetch elt_ids i ;;
              x <- fetch (values array_input) v_id ;;
              store v_id x)
        | _ =>
            for_ 0 n_elts (fun i =>
              v_id <- fetch elt_ids i ;;
              for_ 0 stride (fun j =>
                x <- fetch (values array_input) (stride * v_id + j) ;;
                store (stride * v_id + j) x))
        end
    | Some elt_ids, true =>
        match stride with
        | 1 =>
            for_ 0 n_elts (fun i =>
              v_id <- fetch elt_ids i ;;
              x <- fetch (values array_input) v_id ;;
              store i x)
        | _ =>
            for_ 0 n_elts (fun i =>
              for_ 0 stride (fun j =>
                v_id <- fetch elt_ids i ;;
                x <- fetch (values array_input) (stride * v_id + j) ;;
                store (stride * i + j) x))
        end
    | None, _ =>
        memcpy (values array_input) (n_elts * stride)
    end
  else
    bft_error (in_func "cs_xdef_eval_at_vertices_by_array"
                       "Invalid support for the input array").

Definition newline : string := String (Ascii.ascii_of_nat 10) EmptyString.

(** The two loops shared by both branches of
    [cs_xdef_eval_3_at_all_vertices_by_array]: the volume-weighted
    accumulation of one cell vector on the vertices of the cell (lines
    1033-1045 and 1073-1085), then the normalisation (lines 1050-1056 and
    1090-1096).  [dc_vol] is the local array of the accumulated volumes. *)
Definition accumulate_on_cell_vertices
    (connect : cs_cdo_connect_t) (quant : cs_cdo_quantities_t)
    (c_id : cs_lnum_t) (cell_vector : cs_real_3_t) (dc_vol : list R) : M (list R) :=
  c2v_idx0 <- fetch (idx (c2v connect)) c_id ;;
  c2v_idx1 <- fetch (idx (c2v connect)) (c_id + 1) ;;
  for_acc 0 (c2v_idx1 - c2v_idx0) (fun v dc_vol =>
    v_id <- fetch (ids (c2v connect)) (c2v_idx0 + v) ;;
    vol_vc <- fetch (dcell_vol quant) (c2v_idx0 + v) ;;
    d <- fetch dc_vol v_id ;;
    dc_vol <- update dc_vol v_id (d + vol_vc)%R ;;
    for_ 0 3 (fun k => add_to (3 * v_id + k) (vol_vc * comp cell_vector k)%R) ;;;
    ret dc_vol) dc_vol.

Definition normalize_by_volume (quant : cs_cdo_quantities_t) (dc_vol : list R) : M unit :=
  for_ 0 (n_vertices quant) (fun v_id =>
    d <- fetch dc_vol v_id ;;
    let inv_dcvol := (1 / d)%R in
    for_ 0 3 (fun k => scale (3 * v_id + k) inv_dcvol)).

(** cs_xdef_eval.c, lines 992-1105. *)
Definition cs_xdef_eval_3_at_all_vertices_by_array
    (n_elts : cs_lnum_t) (elt_ids : option (list cs_lnum_t)) (compact : bool)
    (connect : cs_cdo_connect_t) (quant : cs_cdo_quantities_t)
    (input : cs_xdef_array_input_t) : M unit :=
  let array_input := input in
  let stride := stride array_input in
  (if bool_decide (elt_ids <> None) || (n_elts <? n_vertices quant)
   then bft_error (in_func "cs_xdef_eval_3_at_all_vertices_by_array"
                           ("Invalid case" ++ newline))
   else ret tt) ;;;
  let dc_vol := replicate (n_vertices quant) 0%R in
  if cs_flag_test (loc array_input) cs_flag_primal_cell then
    assert (stride =? 3) ;;;
    dc_vol <- for_acc 0 (n_cells quant) (fun c_id dc_vol =>
      cell_vector <- fetch3 (values array_input) (stride * c_id) ;;
      accumulate_on_cell_vertices connect quant c_id cell_vector dc_vol) dc_vol ;;
    normalize_by_volume quant dc_vol
  else if cs_flag_test (loc array_input) cs_flag_dual_face_byc then
    dc_vol <- for_acc 0 (n_cells quant) (fun c_id dc_vol =>
      let cell_vector :=
        cs_reco_dfbyc_at_cell_center c_id (c2e connect) quant (values array_input) in
      accumulate_on_cell_vertices connect quant c_id cell_vector dc_vol) dc_vol ;;
    normalize_by_volume quant dc_vol
  else
    bft_error (in_func "cs_xdef_eval_3_at_all_vertices_by_array"
                       "Invalid case for the input array").

(** ** Cellwise evaluators at the cell center *)

(** cs_xdef_eval.c, lines 1120-1165. *)
Definition cs_xdef_eval_cw_cell_by_array
    (cm : cs_cell_mesh_t) (input : cs_xdef_array_input_t) : M unit :=
  let array_input := input in
  let stride := stride array_input in
  if cs_flag_test (loc array_input) cs_flag_primal_cell then
    for_ 0 stride (fun k =>
      x <- fetch (values array_input) (stride * c_id cm + k) ;;
      store k x)
  else if cs_flag_test (loc array_input) cs_flag_primal_vtx then
    assert (cs_flag_test (flag cm) CS_CDO_LOCAL_PVQ) ;;;
    for_ 0 (n_vc cm) (fun v =>
      for_ 0 stride (fun k =>
        w <- fetch (wvc cm) v ;;
        v_id <- fetch (v_ids cm) v ;;
        x <- fetch (values array_input) (stride * v_id + k) ;;
        add_to k (w * x)%R))
  else if cs_flag_test (loc array_input) cs_flag_dual_face_byc then
    match index array_input with
    | None => undefined
    | Some index =>
        shift <- fetch index (c_id cm) ;;
        store3 0 (cs_reco_dfbyc_in_cell cm (drop shift (values array_input)))
    end
  else
    bft_error (in_func "cs_xdef_eval_cw_cell_by_array"
                       "Invalid support for the input array").

(** cs_xdef_eval.c, lines 1290-1326. *)
Definition cs_xdef_eval_cw_cell_by_field
    (cm : cs_cell_mesh_t) (input : cs_field_t) : M unit :=
  let field := input in
  let values := val field in
  let c_ml_id := cs_mesh_location_get_id_by_name "cells" in
  let v_ml_id := cs_mesh_location_get_id_by_name "vertices" in
  if (location_id field =? c_ml_id)%Z then
    for_ 0 (dim field) (fun k =>
      x <- fetch values (dim field * c_id cm + k) ;;
      store k x)
  else if (location_id field =? v_ml_id)%Z then
    assert (dim field =? 1) ;;;
    assert (cs_flag_test (flag cm) CS_CDO_LOCAL_PVQ) ;;;
    for_ 0 (n_vc cm) (fun v =>
      w <- fetch (wvc cm) v ;;
      v_id <- fetch (v_ids cm) v ;;
      x <- fetch values v_id ;;
      add_to 0 (w * x)%R)
  else
    bft_error (in_func "cs_xdef_eval_cw_cell_by_field"
                       "Invalid support for the input array").

(** ** Cellwise evaluators at a set of points *)

(** cs_xdef_eval.c, lines 1378-1397. *)
Definition cs_xdef_eval_cw_vector_at_xyz_by_val
    (n_points : cs_lnum_t) (input : list R) : M unit :=
  let constant_val := input in
  for_ 0 n_points (fun i =>
    c0 <- fetch constant_val 0 ;; store (3 * i) c0 ;;;
    c1 <- fetch constant_val 1 ;; store (3 * i + 1) c1 ;;;
    c2 <- fetch constant_val 2 ;; store (2 * i + 2) c2).

(** cs_xdef_eval.c, lines 1414-1481. *)
Definition cs_xdef_eval_cw_3_at_xyz_by_array
    (cm : cs_cell_mesh_t) (n_points : cs_lnum_t)
    (input : cs_xdef_array_input_t) : M unit :=
  let array_input := input in
  let stride := stride array_input in
  if cs_flag_test (loc array_input) cs_flag_primal_cell then
    assert (stride =? 3) ;;;
    cell_vector <- fetch3 (values array_input) (stride * c_id cm) ;;
    for_ 0 n_points (fun i =>
      store (3 * i) (comp cell_vector 0) ;;;
      store (3 * i + 1) (comp cell_vector 1) ;;;
      store (2 * i + 2) (comp cell_vector 2))
  else if cs_flag_test (loc array_input) cs_flag_primal_vtx then
    assert (cs_flag_test (flag cm) CS_CDO_LOCAL_PVQ) ;;;
    assert (stride =? 3) ;;;
    for_ 0 stride (fun k =>
      for_ 0 (n_vc cm) (fun v =>
        w <- fetch (wvc cm) v ;;
        v_id <- fetch (v_ids cm) v ;;
        x <- fetch (values array_input) (stride * v_id + k) ;;
        add_to k (w * x)%R))
  else if cs_flag_test (loc array_input) cs_flag_dual_face_byc then
    match index array_input with
    | None => undefined
    | Some index =>
        shift <- fetch index (c_id cm) ;;
        let cell_vector := cs_reco_dfbyc_in_cell cm (drop shift (values array_input)) in
        for_ 0 n_points (fun i =>
          store (3 * i) (comp cell_vector 0) ;;;
          store (3 * i + 1) (comp cell_vector 1) ;;;
          store (3 * i + 2) (comp cell_vector 2))
    end
  else
    bft_error (in_func "cs_xdef_eval_cw_3_at_xyz_by_array"
                       "Invalid support for the input array").

(** cs_xdef_eval.c, lines 1498-1550. *)
Definition cs_xdef_eval_cw_3_at_xyz_by_field
    (cm : cs_cell_mesh_t) (n_points : cs_lnum_t) (input : cs_field_t) : M unit :=
  let field := input in
  let values := val field in
  assert (dim field =? 3) ;;;
  let c_ml_id := cs_mesh_location_get_id_by_name "cells" in
  let v_ml_id := cs_mesh_location_get_id_by_name "vertices" in
  if (location_id field =? c_ml_id)%Z then
    cell_vector <- fetch3 values (3 * c_id cm) ;;
    for_ 0 n_points (fun i =>
      store (3 * i) (comp cell_vector 0) ;;;
      store (3 * i + 1) (comp cell_vector 1) ;;;
      store (3 * i + 2) (comp cell_vector 2))
  else if (location_id field =? v_ml_id)%Z then
    assert (cs_flag_test (flag cm) CS_CDO_LOCAL_PVQ) ;;;
    for_ 0 3 (fun k =>
      for_ 0 (n_vc cm) (fun v =>
        w <- fetch (wvc cm) v ;;
        v_id <- fetch (v_ids cm) v ;;
        x <- fetch values (3 * v_id + k) ;;
        add_to k (w * x)%R))
  else
    bft_error (in_func "cs_xdef_eval_cw_3_at_xyz_by_field"
                       "Invalid support for the input array").


(** ** Cellwise flux evaluators *)

(** A vector given by its three components. *)
Definition vec_of (f : nat -> R) : cs_real_3_t := (f 0, f 1, f 2).

(** cs_xdef_eval.c, lines 1566-1607.  [input] points to the three
    components of the flux. *)
Definition cs_xdef_eval_cw_at_vtx_flux_by_val
    (cm : cs_cell_mesh_t) (f : nat) (input : cs_real_3_t) : M unit :=
  assert (cs_flag_test (flag cm) (N.lor CS_CDO_LOCAL_EV CS_CDO_LOCAL_FE)) ;;;
  let flux := input in
  if cs_flag_test (flag cm) CS_CDO_LOCAL_FEQ then
    lo <- fetch (f2e_idx cm) f ;;
    hi <- fetch (f2e_idx cm) (f + 1) ;;
    for_ lo hi (fun i =>
      e <- fetch (f2e_ids cm) i ;;
      tef_i <- fetch (tef cm) i ;;
      fq <- fetch (face cm) f ;;
      let _flx := (0.5 * tef_i * _dp3 flux (unitv fq))%R in
      v1 <- fetch (e2v_ids cm) (2 * e) ;;
      add_to v1 _flx ;;;
      v2 <- fetch (e2v_ids cm) (2 * e + 1) ;;
      add_to v2 _flx)
  else
    lo <- fetch (f2e_idx cm) f ;;
    hi <- fetch (f2e_idx cm) (f + 1) ;;
    for_ lo hi (fun i =>
      e <- fetch (f2e_ids cm) i ;;
      pe <- fetch (edge cm) e ;;
      fq <- fetch (face cm) f ;;
      let tef := cs_compute_area_from_quant pe (center fq) in
      let _flx := (0.5 * tef * _dp3 flux (unitv fq))%R in
      v1 <- fetch (e2v_ids cm) (2 * e) ;;
      add_to v1 _flx ;;;
      v2 <- fetch (e2v_ids cm) (2 * e + 1) ;;
      add_to v2 _flx).

(** The centroid-like points of lines 1667-1671:
    [cs_math_onethird * (xef + xv[3*v+k])] with
    [xef = edge[e].center[k] + fq.center[k]]. *)
Definition third_point (a b c : cs_real_3_t) : cs_real_3_t :=
  vec_of (fun k => (cs_math_onethird * ((comp a k + comp b k) + comp c k))%R).

(** [add = 0; for (p = 0; p < 3; p++) add += _dp3(_val[p], n)]. *)
Definition sum_dp3 (v0 v1 v2 n : cs_real_3_t) : R :=
  (((0 + _dp3 v0 n) + _dp3 v1 n) + _dp3 v2 n)%R.

(** cs_xdef_eval.c, lines 1625-1813. *)
Definition cs_xdef_eval_cw_at_vtx_flux_by_analytic
    (cm : cs_cell_mesh_t) (f : nat) (ts : cs_time_step_t)
    (input : cs_analytic_vect_t) (qtype : cs_quadrature_type_t) : M unit :=
  let anai := input in
  match qtype with
  | CS_QUADRATURE_NONE | CS_QUADRATURE_BARY =>
      let flux_xc := anai (t_cur ts) (xc cm) in
      cs_xdef_eval_cw_at_vtx_flux_by_val cm f flux_xc
  | CS_QUADRATURE_BARY_SUBDIV =>
      fq <- fetch (face cm) f ;;
      if cs_flag_test (flag cm) CS_CDO_LOCAL_FEQ then
        lo <- fetch (f2e_idx cm) f ;;
        hi <- fetch (f2e_idx cm) (f + 1) ;;
        for_ lo hi (fun i =>
          e <- fetch (f2e_ids cm) i ;;
          v1 <- fetch (e2v_ids cm) (2 * e) ;;
          v2 <- fetch (e2v_ids cm) (2 * e + 1) ;;
          pe <- fetch (edge cm) e ;;
          xv1 <- fetch3 (xv cm) (3 * v1) ;;
          xv2 <- fetch3 (xv cm) (3 * v2) ;;
          let _xyz0 := third_point (center pe) (center fq) xv1 in
          let _xyz1 := third_point (center pe) (center fq) xv2 in
          let _val0 := anai (t_cur ts) _xyz0 in
          let _val1 := anai (t_cur ts) _xyz1 in
          tef_i <- fetch (tef cm) i ;;
          add_to v1 (0.5 * tef_i * _dp3 _val0 (unitv fq))%R ;;;
          tef_i <- fetch (tef cm) i ;;
          add_to v2 (0.5 * tef_i * _dp3 _val1 (unitv fq))%R)
      else
        lo <- fetch (f2e_idx cm) f ;;
        hi <- fetch (f2e_idx cm) (f + 1) ;;
        for_ lo hi (fun i =>
          e <- fetch (f2e_ids cm) i ;;
          v1 <- fetch (e2v_ids cm) (2 * e) ;;
          v2 <- fetch (e2v_ids cm) (2 * e + 1) ;;
          pe <- fetch (edge cm) e ;;
          xv1 <- fetch3 (xv cm) (3 * v1) ;;
          xv2 <- fetch3 (xv cm) (3 * v2) ;;
          let _xyz0 := third_point (center pe) (center fq) xv1 in
          let _xyz1 := third_point (center pe) (center fq) xv2 in
          let _val0 := anai (t_cur ts) _xyz0 in
          let _val1 := anai (t_cur ts) _xyz1 in
          let tef := cs_compute_area_from_quant pe (center fq) in
          add_to v1 (0.5 * tef * _dp3 _val0 (unitv fq))%R ;;;
          add_to v2 (0.5 * tef * _dp3 _val1 (unitv fq))%R)
  | CS_QUADRATURE_HIGHER =>
      fq <- fetch (face cm) f ;;
      if cs_flag_test (flag cm) CS_CDO_LOCAL_FEQ then
        lo <- fetch (f2e_idx cm) f ;;
        hi <- fetch (f2e_idx cm) (f + 1) ;;
        for_ lo hi (fun i =>
          e <- fetch (f2e_ids cm) i ;;
          v1 <- fetch (e2v_ids cm) (2 * e) ;;
          v2 <- fetch (e2v_ids cm) (2 * e + 1) ;;
          tef_i <- fetch (tef cm) i ;;
          let svef := (0.5 * tef_i)%R in
          pe <- fetch (edge cm) e ;;
          xv1 <- fetch3 (xv cm) (3 * v1) ;;
          xv2 <- fetch3 (xv cm) (3 * v2) ;;
          let '((g0, g1, g2), w0) :=
            cs_quadrature_tria_3pts (center pe) (center fq) xv1 svef in
          let '((g3, g4, g5), w1) :=
            cs_quadrature_tria_3pts (center pe) (center fq) xv2 svef in
          let t := t_cur ts in
          let add0 := (sum_dp3 (anai t g0) (anai t g1) (anai t g2) (unitv fq) * w0)%R in
          let add1 := (sum_dp3 (anai t g3) (anai t g4) (anai t g5) (unitv fq) * w1)%R in
          add_to v1 add0 ;;;
          add_to v2 add1)
      else
        lo <- fetch (f2e_idx cm) f ;;
        hi <- fetch (f2e_idx cm) (f + 1) ;;
        for_ lo hi (fun i =>
          e <- fetch (f2e_ids cm) i ;;
          v1 <- fetch (e2v_ids cm) (2 * e) ;;
          v2 <- fetch (e2v_ids cm) (2 * e + 1) ;;
          pe <- fetch (edge cm) e ;;
          let svef := (0.5 * cs_compute_area_from_quant pe (center fq))%R in
          xv1 <- fetch3 (xv cm) (3 * v1) ;;
          xv2 <- fetch3 (xv cm) (3 * v2) ;;
          let '((g0, g1, g2), w0) :=
            cs_quadrature_tria_3pts (center pe) (center fq) xv1 svef in
          let '((g3, g4, g5), w1) :=
            cs_quadrature_tria_3pts (center pe) (center fq) xv2 svef in
          let t := t_cur ts in
          let add0 := (sum_dp3 (anai t g0) (anai t g1) (anai t g2) (unitv fq) * w0)%R in
          let add1 := (sum_dp3 (anai t g3) (anai t g4) (anai t g5) (unitv fq) * w1)%R in
          add_to v1 add0 ;;;
          add_to v2 add1)
  | _ =>
      bft_error " Invalid type of quadrature."
  end.

(** cs_xdef_eval.c, lines 1828-1838. *)
Definition cs_xdef_eval_cw_flux_by_val
    (cm : cs_cell_mesh_t) (f : nat) (input : cs_real_3_t) : M unit :=
  let flux := input in
  fq <- fetch (face cm) f ;;
  store f (meas fq * _dp3 (unitv fq) flux)%R.

(** cs_xdef_eval.c, lines 1853-1865.  [input] points to the nine
    components of the tensor.  The product is written through the pointer
    [eval] itself. *)
Definition cs_xdef_eval_cw_tensor_flux_by_val
    (cm : cs_cell_mesh_t) (f : nat) (input : cs_real_33_t) : M unit :=
  let flux := input in
  fq <- fetch (face cm) f ;;
  store3 0 (cs_math_33_3_product flux (unitv fq)) ;;;
  for_ 0 3 (fun k => scale (3 * f + k) (meas fq)).

(** The flags asserted by the sub-triangle branches of the two full-face
    evaluators. *)
Definition ev_fe_feq : cs_flag_t :=
  N.lor (N.lor CS_CDO_LOCAL_EV CS_CDO_LOCAL_FE) CS_CDO_LOCAL_FEQ.

(** cs_xdef_eval.c, lines 1882-1986. *)
Definition cs_xdef_eval_cw_flux_by_analytic
    (cm : cs_cell_mesh_t) (f : nat) (ts : cs_time_step_t)
    (input : cs_analytic_vect_t) (qtype : cs_quadrature_type_t) : M unit :=
  let anai := input in
  match qtype with
  | CS_QUADRATURE_NONE | CS_QUADRATURE_BARY =>
      let flux_xc := anai (t_cur ts) (xc cm) in
      cs_xdef_eval_cw_flux_by_val cm f flux_xc
  | CS_QUADRATURE_BARY_SUBDIV =>
      assert (cs_flag_test (flag cm) ev_fe_feq) ;;;
      fq <- fetch (face cm) f ;;
      lo <- fetch (f2e_idx cm) f ;;
      hi <- fetch (f2e_idx cm) (f + 1) ;;
      for_ lo hi (fun i =>
        e <- fetch (f2e_ids cm) i ;;
        v1 <- fetch (e2v_ids cm) (2 * e) ;;
        v2 <- fetch (e2v_ids cm) (2 * e + 1) ;;
        xv1 <- fetch3 (xv cm) (3 * v1) ;;
        xv2 <- fetch3 (xv cm) (3 * v2) ;;
        let _xyz := third_point (center fq) xv1 xv2 in
        let _val := anai (t_cur ts) _xyz in
        tef_i <- fetch (tef cm) i ;;
        add_to f (tef_i * _dp3 _val (unitv fq))%R)
  | CS_QUADRATURE_HIGHER =>
      fq <- fetch (face cm) f ;;
      store f 0%R ;;;
      lo <- fetch (f2e_idx cm) f ;;
      hi <- fetch (f2e_idx cm) (f + 1) ;;
      for_ lo hi (fun i =>
        e <- fetch (f2e_ids cm) i ;;
        v1 <- fetch (e2v_ids cm) (2 * e) ;;
        v2 <- fetch (e2v_ids cm) (2 * e + 1) ;;
        xv1 <- fetch3 (xv cm) (3 * v1) ;;
        xv2 <- fetch3 (xv cm) (3 * v2) ;;
        tef_e <- fetch (tef cm) e ;;
        let '((g0, g1, g2), w) :=
          cs_quadrature_tria_3pts (center fq) xv1 xv2 tef_e in
        let t := t_cur ts in
        let add := sum_dp3 (anai t g0) (anai t g1) (anai t g2) (unitv fq) in
        add_to f (w * add)%R)
  | _ =>
      bft_error " Invalid type of quadrature."
  end.

(** cs_xdef_eval.c, lines 2004-2115. *)
Definition cs_xdef_eval_cw_tensor_flux_by_analytic
    (cm : cs_cell_mesh_t) (f : nat) (ts : cs_time_step_t)
    (input : cs_analytic_tens_t) (qtype : cs_quadrature_type_t) : M unit :=
  let anai := input in
  match qtype with
  | CS_QUADRATURE_NONE | CS_QUADRATURE_BARY =>
      let flux_xc := anai (t_cur ts) (xc cm) in
      cs_xdef_eval_cw_tensor_flux_by_val cm f flux_xc
  | CS_QUADRATURE_BARY_SUBDIV =>
      assert (cs_flag_test (flag cm) ev_fe_feq) ;;;
      fq <- fetch (face cm) f ;;
      lo <- fetch (f2e_idx cm) f ;;
      hi <- fetch (f2e_idx cm) (f + 1) ;;
      for_ lo hi (fun i =>
        _2e <- fetch (f2e_ids cm) i ;;
        v1 <- fetch (e2v_ids cm) _2e ;;
        v2 <- fetch (e2v_ids cm) (_2e + 1) ;;
        xv1 <- fetch3 (xv cm) (3 * v1) ;;
        xv2 <- fetch3 (xv cm) (3 * v2) ;;
        let _xyz := third_point (center fq) xv1 xv2 in
        let _eval := anai (t_cur ts) _xyz in
        let _val := cs_math_33_3_product _eval (unitv fq) in
        tef_i <- fetch (tef cm) i ;;
        for_ 0 3 (fun k => add_to (3 * f + k) (tef_i * comp _val k)%R))
  | CS_QUADRATURE_HIGHER =>
      fq <- fetch (face cm) f ;;
      store f 0%R ;;;
      lo <- fetch (f2e_idx cm) f ;;
      hi <- fetch (f2e_idx cm) (f + 1) ;;
      for_ lo hi (fun i =>
        e <- fetch (f2e_ids cm) i ;;
        v1 <- fetch (e2v_ids cm) (2 * e) ;;
        v2 <- fetch (e2v_ids cm) (2 * e + 1) ;;
        xv1 <- fetch3 (xv cm) (3 * v1) ;;
        xv2 <- fetch3 (xv cm) (3 * v2) ;;
        tef_e <- fetch (tef cm) e ;;
        let '(gpts, w) := cs_quadrature_tria_3pts (center fq) xv1 xv2 tef_e in
        tef_i <- fetch (tef cm) i ;;
        let coef := (w * tef_i)%R in
        for_ 0 3 (fun p =>
          let _val := cs_math_33_3_product (anai (t_cur ts) (row gpts p)) (unitv fq) in
          for_ 0 3 (fun k => add_to (3 * f + k) (coef * comp _val k)%R)))
  | _ =>
      bft_error " Invalid type of quadrature."
  end.

(** ** Average on boundary faces *)

(** [results[k] += contribution[k]] for the [dim] components stored from
    position [p] of the output: what a quadrature rule does with the pointer
    [val_i] it is given. *)
Definition add_block (p dim : nat) (contribution : list R) : M unit :=
  for_ 0 dim (fun k => c <- fetch contribution k ;; add_to (p + k) c).

(** The body shared by the two loops on faces of
    [cs_xdef_eval_avg_at_b_faces_by_analytic] (lines 515-550 and 560-596),
    where [val_i] is the position in the output the loop computes. *)
Definition average_on_face
    (connect : cs_cdo_connect_t) (quant : cs_cdo_quantities_t)
    (tcur : R) (anai : cs_analytic_func_t)
    (qfunc : cs_quadrature_tria_integral_t) (dim : nat)
    (f_id : cs_lnum_t) (val_i : nat) : M unit :=
  let f2e := f2e connect in
  let e2v := e2v connect in
  let xv := vtx_coord quant in
  let pfq := cs_quant_set_face f_id quant in
  start_idx <- fetch (idx f2e) f_id ;;
  end_idx <- fetch (idx f2e) (f_id + 1) ;;
  (if end_idx - start_idx =? CS_TRIANGLE_CASE then
     let '(v1, v2, v3) :=
       cs_connect_get_next_3_vertices (ids f2e) (ids e2v) start_idx in
     x1 <- fetch3 xv (3 * v1) ;;
     x2 <- fetch3 xv (3 * v2) ;;
     x3 <- fetch3 xv (3 * v3) ;;
     add_block val_i dim (qfunc tcur x1 x2 x3 (meas pfq) anai)
   else
     for_ start_idx end_idx (fun j =>
       e <- fetch (ids f2e) j ;;
       let _2e := 2 * e in
       v1 <- fetch (ids e2v) _2e ;;
       v2 <- fetch (ids e2v) (_2e + 1) ;;
       x1 <- fetch3 xv (3 * v1) ;;
       x2 <- fetch3 xv (3 * v2) ;;
       add_block val_i dim
         (qfunc tcur x1 x2 (center pfq) (cs_math_surftri x1 x2 (center pfq)) anai))) ;;;
  let _os := (1 / meas pfq)%R in
  for_ 0 dim (fun xyz => scale (val_i + xyz) _os).

(** cs_xdef_eval.c, lines 429-601. *)
Definition cs_xdef_eval_avg_at_b_faces_by_analytic
    (n_elts : cs_lnum_t) (elt_ids : option (list cs_lnum_t)) (compact : bool)
    (connect : cs_cdo_connect_t) (quant : cs_cdo_quantities_t)
    (ts : cs_time_step_t) (input : cs_analytic_func_t)
    (qtype : cs_quadrature_type_t) (dim : nat) : M unit :=
  let anai := input in
  qfunc <-
    match dim with
    | 1 =>
        match qtype with
        | CS_QUADRATURE_BARY | CS_QUADRATURE_BARY_SUBDIV =>
            ret cs_quadrature_tria_1pt_scal
        | CS_QUADRATURE_HIGHER => ret cs_quadrature_tria_3pts_scal
        | CS_QUADRATURE_HIGHEST => ret cs_quadrature_tria_4pts_scal
        | _ => bft_error ("Invalid quadrature type." ++ newline)
        end
    | 3 =>
        match qtype with
        | CS_QUADRATURE_BARY | CS_QUADRATURE_BARY_SUBDIV =>
            ret cs_quadrature_tria_1pt_vect
        | CS_QUADRATURE_HIGHER => ret cs_quadrature_tria_3pts_vect
        | CS_QUADRATURE_HIGHEST => ret cs_quadrature_tria_4pts_vect
        | _ => bft_error ("Invalid quadrature type." ++ newline)
        end
    | _ => bft_error (" Invalid dimension of the analytical fucntion." ++ newline)
    end ;;
  let tcur := t_cur ts in
  match elt_ids with
  | None =>
      for_ 0 (n_faces quant) (fun f_id =>
        average_on_face connect quant tcur anai qfunc dim f_id (dim * f_id))
  | Some elt_ids =>
      for_ 0 n_elts (fun i =>
        f_id <- fetch elt_ids i ;;
        average_on_face connect quant tcur anai qfunc dim f_id (dim * f_id))
  end.


(** ** The bulk evaluators as one family

    The evaluators that share the contract
    [evaluate(n_elts, elt_ids, compact, ..., input, eval)] and that copy or
    reconstruct one value per selected element: the three evaluators by
    value and the two evaluators at cells by array. *)

Inductive bulk_definition :=
| ScalarByVal (input : list R)
| VectorByVal (input : list R)
| TensorByVal (input : list R)
| ScalarAtCellsByArray
    (connect : cs_cdo_connect_t) (quant : cs_cdo_quantities_t)
    (input : cs_xdef_array_input_t)
| NdAtCellsByArray
    (connect : cs_cdo_connect_t) (quant : cs_cdo_quantities_t)
    (input : cs_xdef_array_input_t).

(** Number of reals per element: 1 for a scalar, 3 for a vector, 9 for a
    tensor, the stride of the array otherwise. *)
Definition bulk_stride (d : bulk_definition) : nat :=
  match d with
  | ScalarByVal _ => 1
  | VectorByVal _ => 3
  | TensorByVal _ => 9
  | ScalarAtCellsByArray _ _ _ => 1
  | NdAtCellsByArray _ _ input => stride input
  end.

Definition bulk_eval (d : bulk_definition)
    (n_elts : cs_lnum_t) (elt_ids : option (list cs_lnum_t)) (compact : bool) : M unit :=
  match d with
  | ScalarByVal input => cs_xdef_eval_scalar_by_val n_elts elt_ids compact input
  | VectorByVal input => cs_xdef_eval_vector_by_val n_elts elt_ids compact input
  | TensorByVal input => cs_xdef_eval_tensor_by_val n_elts elt_ids compact input
  | ScalarAtCellsByArray connect quant input =>
      cs_xdef_eval_scalar_at_cells_by_array n_elts elt_ids compact connect quant input
  | NdAtCellsByArray connect quant input =>
      cs_xdef_eval_nd_at_cells_by_array n_elts elt_ids compact connect quant input
  end.

(** What the evaluators require of the definition: a constant has as many
    components as the arity, an array has the stride the evaluator asserts
    and a support the evaluator handles. *)
Definition bulk_ready (d : bulk_definition) : Prop :=
  match d with
  | ScalarByVal input => 1 <= length input
  | VectorByVal input => 3 <= length input
  | TensorByVal input => 9 <= length input
  | ScalarAtCellsByArray _ _ input =>
      stride input = 1 /\
      (cs_flag_test (loc input) cs_flag_primal_cell = true \/
       cs_flag_test (loc input) cs_flag_primal_vtx = true)
  | NdAtCellsByArray connect _ input =>
      1 < stride input /\
      (cs_flag_test (loc input) cs_flag_primal_cell = true \/
       (cs_flag_test (loc input) cs_flag_dual_face_byc = true /\
        stride input = 3 /\ index input = Some (idx (c2e connect))))
  end.

(** The values of an array on cells exist for the cell [id]. *)
Definition bulk_readable (d : bulk_definition) (id : cs_lnum_t) : Prop :=
  match d with
  | ScalarAtCellsByArray _ _ input | NdAtCellsByArray _ _ input =>
      cs_flag_test (loc input) cs_flag_primal_cell = true ->
      stride input * id + stride input <= length (values input)
  | _ => True
  end.

(** The output [outc] of a compacted evaluation and the output [outn] of an
    evaluation with indirection hold the same values for the first [n]
    elements of [elt_ids]: slot [i] of the former is slot [elt_ids[i]] of
    the latter. *)
Definition same_values (s n : nat) (elt_ids : list cs_lnum_t) (outc outn : list R) : Prop :=
  forall i id k, i < n -> elt_ids !! i = Some id -> k < s ->
    exists x, outc !! (s * i + k) = Some x /\ outn !! (s * id + k) = Some x.


(** ** Faces of a cell and their edges *)

(** The area of the triangle spanned by the face center and the edge at
    position [i] of the face-to-edge connectivity, as the flux evaluators
    by value obtain it: the cached [tef[i]] when the cell carries the
    face-edge quantities, the area computed from the edge quantities
    otherwise. *)
Definition edge_triangle_area (cm : cs_cell_mesh_t) (f i : nat) : option R :=
  if cs_flag_test (flag cm) CS_CDO_LOCAL_FEQ then tef cm !! i
  else
    match f2e_ids cm !! i with
    | Some e =>
        match edge cm !! e, face cm !! f with
        | Some pe, Some fq => Some (cs_compute_area_from_quant pe (center fq))
        | _, _ => None
        end
    | None => None
    end.

(** The edges of the face [f] are the positions [lo .. hi-1] of the
    face-to-edge connectivity; each has two vertices, which are positions
    of an array of [n_out] reals, and a triangle area. *)
Definition face_edges (cm : cs_cell_mesh_t) (f n_out lo hi : nat) (fq : cs_quant_t) : Prop :=
  f2e_idx cm !! f = Some lo /\ f2e_idx cm !! (f + 1) = Some hi /\ lo <= hi /\
  face cm !! f = Some fq /\
  forall i, lo <= i < hi ->
    exists e v1 v2,
      f2e_ids cm !! i = Some e /\
      e2v_ids cm !! (2 * e) = Some v1 /\ e2v_ids cm !! (2 * e + 1) = Some v2 /\
      v1 < n_out /\ v2 < n_out /\
      is_Some (edge_triangle_area cm f i).

(** The vertex [v] is an end of none of the edges [lo .. hi-1]. *)
Definition off_face (cm : cs_cell_mesh_t) (lo hi v : nat) : Prop :=
  forall i e, lo <= i < hi -> f2e_ids cm !! i = Some e ->
    e2v_ids cm !! (2 * e) <> Some v /\ e2v_ids cm !! (2 * e + 1) <> Some v.


End Evaluators.

(** ** Sums *)

(** Sum of the entries of an array. *)
Definition Rsum (l : list R) : R := foldr Rplus 0%R l.

(** [f lo + ... + f (hi-1)]. *)
Definition Rsum_range (f : nat -> R) (lo hi : nat) : R :=
  Rsum (map f (seq lo (hi - lo))).


(** ** Specifications of runs *)

(** [wp m Q ev]: started on the output array [ev], [m] returns (it neither
    aborts nor leaves the defined behaviour) and its result and the final
    output array satisfy [Q]. *)
Definition wp {A} (m : M A) (Q : A -> list R -> Prop) (ev : list R) : Prop :=
  match m ev with
  | Returns a ev' => Q a ev'
  | _ => False
  end.

(** [m] writes the [s] reals [f 0 .. f (s-1)] from position [p] of the
    output array and nothing else, whenever these positions exist. *)
Definition writes_block (m : M unit) (p s : nat) (f : nat -> R) : Prop :=
  forall ev : list R, p + s <= length ev ->
    wp m (fun _ ev' =>
      length ev' = length ev /\
      (forall k, k < s -> ev' !! (p + k) = Some (f k)) /\
      (forall q, ~ (p <= q < p + s) -> ev' !! q = ev !! q)) ev.

(** [m] adds [delta q] to every position [q] of the output array, which
    has at least [b] reals. *)
Definition accumulates (m : M unit) (b : nat) (delta : nat -> R) : Prop :=
  forall ev : list R, b <= length ev ->
    wp m (fun _ ev' =>
      length ev' = length ev /\
      (forall q x, ev !! q = Some x -> ev' !! q = Some (x + delta q)%R)) ev.

(** ** Interpolation from the vertices of a cell

    The cellwise evaluators that have a branch for values located at the
    vertices of the mesh and interpolate them at the cell center with the
    weights [wvc] of the cell. *)

Section Interpolation.

Context `{Collaborators}.

Inductive vertex_interpolation :=
| CwCellByArray (input : cs_xdef_array_input_t)
| CwCellByField (input : cs_field_t)
| Cw3AtXyzByField (n_points : cs_lnum_t) (input : cs_field_t).

Definition interp_eval (cm : cs_cell_mesh_t) (d : vertex_interpolation) : M unit :=
  match d with
  | CwCellByArray input => cs_xdef_eval_cw_cell_by_array cm input
  | CwCellByField input => cs_xdef_eval_cw_cell_by_field cm input
  | Cw3AtXyzByField n_points input => cs_xdef_eval_cw_3_at_xyz_by_field cm n_points input
  end.

(** Number of components of the interpolated quantity. *)
Definition interp_stride (d : vertex_interpolation) : nat :=
  match d with
  | CwCellByArray input => stride input
  | CwCellByField input => 1
  | Cw3AtXyzByField _ input => 3
  end.

(** The values at the vertices of the mesh. *)
Definition interp_values (d : vertex_interpolation) : list R :=
  match d with
  | CwCellByArray input => values input
  | CwCellByField input => val input
  | Cw3AtXyzByField _ input => val input
  end.

(** The definition is located at the vertices, and not at the cells, and
    the assertions of the vertex branch hold. *)
Definition on_vertices (cm : cs_cell_mesh_t) (d : vertex_interpolation) : Prop :=
  cs_flag_test (flag cm) CS_CDO_LOCAL_PVQ = true /\
  match d with
  | CwCellByArray input =>
      cs_flag_test (loc input) cs_flag_primal_cell = false /\
      cs_flag_test (loc input) cs_flag_primal_vtx = true
  | CwCellByField input =>
      dim input = 1 /\
      location_id input <> cs_mesh_location_get_id_by_name "cells" /\
      location_id input = cs_mesh_location_get_id_by_name "vertices"
  | Cw3AtXyzByField _ input =>
      dim input = 3 /\
      location_id input <> cs_mesh_location_get_id_by_name "cells" /\
      location_id input = cs_mesh_location_get_id_by_name "vertices"
  end.

(** Every vertex of the cell has a weight, an id in the mesh and [s]
    values. *)
Definition vertex_data (cm : cs_cell_mesh_t) (s : nat) (vals : list R) : Prop :=
  forall v, v < n_vc cm ->
    exists w v_id,
      wvc cm !! v = Some w /\ v_ids cm !! v = Some v_id /\
      s * v_id + s <= length vals.

(** Component [k] of the interpolated value: the sum over the vertices [v]
    of the cell of [wvc[v] * vals[s * v_ids[v] + k]]. *)
Definition weighted_vertex_sum (cm : cs_cell_mesh_t) (s : nat) (vals : list R) (k : nat) : R :=
  Rsum_range
    (fun v =>
       let w := nth v (wvc cm) 0%R in
       let x := nth (s * nth v (v_ids cm) 0 + k) vals 0%R in
       (w * x)%R)
    0 (n_vc cm).

End Interpolation.

(** ** Vertices of the cells of a mesh *)

(** The vertex [v] is listed at position [j] of the cell-to-vertex
    connectivity, among the vertices of the cell [c]. *)
Definition vertex_of_cell (connect : cs_cdo_connect_t) (c j : nat) (v : cs_lnum_t) : Prop :=
  exists lo hi,
    idx (c2v connect) !! c = Some lo /\ idx (c2v connect) !! (c + 1) = Some hi /\
    lo <= j < hi /\ ids (c2v connect) !! j = Some v.

(** The cell-to-vertex connectivity of the mesh: every cell has a range of
    positions, every position holds a vertex of the mesh and a positive
    volume, the part of the dual cell of the vertex inside the cell. *)
Definition cell_vertices (connect : cs_cdo_connect_t) (quant : cs_cdo_quantities_t) : Prop :=
  (forall c, c < n_cells quant ->
     exists lo hi,
       idx (c2v connect) !! c = Some lo /\ idx (c2v connect) !! (c + 1) = Some hi /\
       lo <= hi /\ hi <= length (ids (c2v connect)) /\ hi <= length (dcell_vol quant)) /\
  (forall j v, ids (c2v connect) !! j = Some v -> v < n_vertices quant) /\
  (forall j x, dcell_vol quant !! j = Some x -> (0 < x)%R).

(** Every vertex of the mesh belongs to at least one cell. *)
Definition vertices_covered (connect : cs_cdo_connect_t) (quant : cs_cdo_quantities_t) : Prop :=
  forall v, v < n_vertices quant ->
    exists c j, c < n_cells quant /\ vertex_of_cell connect c j v.

(** The array holds the vector [vec] for each of the [n] first cells. *)
Definition constant_on_cells (input : cs_xdef_array_input_t) (n : nat) (vec : cs_real_3_t) : Prop :=
  forall c k, c < n -> k < 3 -> values input !! (3 * c + k) = Some (comp vec k).

(** The vertex [v] is listed for a cell before the cell [c], or at one of
    the [m] first positions of the cell [c]: the accumulation loops have
    met it when they reach the position [m] of the cell [c]. *)
Definition met_before (connect : cs_cdo_connect_t) (c m : nat) (v : cs_lnum_t) : Prop :=
  exists c' j lo hi,
    idx (c2v connect) !! c' = Some lo /\ idx (c2v connect) !! (c' + 1) = Some hi /\
    lo <= j < hi /\ ids (c2v connect) !! j = Some v /\
    (c' < c \/ (c' = c /\ j < lo + m)).

(** What the accumulation loops maintain when the cells hold the vector
    [vec]: the local array [dc_vol] holds a volume for every vertex of the
    mesh, positive once the vertex has been met, and the output [ev1] holds
    that volume times [vec] for the vertex. *)
Definition accumulated (connect : cs_cdo_connect_t) (quant : cs_cdo_quantities_t)
    (vec : cs_real_3_t) (n_out c m : nat) (dc_vol ev1 : list R) : Prop :=
  length dc_vol = n_vertices quant /\ length ev1 = n_out /\
  (forall v d, dc_vol !! v = Some d ->
     (0 <= d)%R /\
     forall k, k < 3 -> ev1 !! (3 * v + k) = Some (d * comp vec k)%R) /\
  (forall v d, met_before connect c m v -> dc_vol !! v = Some d -> (0 < d)%R).

(** ** Sample data

    One instance of the collaborators and a few small meshes on which the
    evaluators can be run.  The flags are distinct bits, combined as the
    library combines them; the geometric helpers are the simplest functions
    of their type. *)

(** Modelled from the spec: the barycenter rule of the quadrature table is
    one evaluation at the center of the triangle, weighted by its area. *)
Definition barycenter_rule : cs_quadrature_tria_integral_t :=
  fun tcur v1 v2 v3 area ana =>
    let xg := vec_of (fun k => ((comp v1 k + comp v2 k + comp v3 k) / 3)%R) in
    map (fun x => (area * x)%R) (ana tcur xg).

Definition sample : Collaborators := {|
  cs_flag_primal_cell := 264%N;
  cs_flag_primal_vtx := 40%N;
  cs_flag_dual_face_byc := 2192%N;
  CS_CDO_LOCAL_PVQ := 2%N;
  CS_CDO_LOCAL_EV := 256%N;
  CS_CDO_LOCAL_FE := 512%N;
  CS_CDO_LOCAL_FEQ := 1024%N;
  CS_TRIANGLE_CASE := 3;
  cs_mesh_location_get_id_by_name := fun name =>
    if String.eqb name "cells" then 1%Z
    else if String.eqb name "vertices" then 4%Z
    else (-1)%Z;
  cs_reco_pv_at_cell_center := fun c_id _ _ array => nth c_id array 0%R;
  cs_reco_dfbyc_at_cell_center := fun _ _ _ _ => (0%R, 0%R, 0%R);
  cs_reco_dfbyc_in_cell := fun _ _ => (0%R, 0%R, 0%R);
  cs_compute_area_from_quant := fun pe _ => meas pe;
  cs_math_surftri := fun _ _ _ => 0%R;
  cs_math_onethird := (1 / 3)%R;
  cs_quant_set_face := fun _ _ =>
    {| meas := 2%R; unitv := (0%R, 0%R, 1%R); center := (0%R, 0%R, 0%R) |};
  cs_connect_get_next_3_vertices := fun _ _ _ => (0, 1, 2);
  cs_quadrature_tria_3pts := fun a b c area => ((a, b, c), (area / 3)%R);
  cs_quadrature_tria_1pt_scal := barycenter_rule;
  cs_quadrature_tria_3pts_scal := barycenter_rule;
  cs_quadrature_tria_4pts_scal := barycenter_rule;
  cs_quadrature_tria_1pt_vect := barycenter_rule;
  cs_quadrature_tria_3pts_vect := barycenter_rule;
  cs_quadrature_tria_4pts_vect := barycenter_rule
|}.

(** No adjacency, no quantity: for the evaluators that read none. *)
Definition no_adjacency : cs_adjacency_t := {| idx := []; ids := [] |}.

Definition no_connect : cs_cdo_connect_t :=
  {| c2v := no_adjacency; c2e := no_adjacency;
     f2e := no_adjacency; e2v := no_adjacency |}.

(** A scalar array on the ten cells of a mesh, and the selection of the
    cells 2, 5 and 7. *)
Definition ten_cells : cs_cdo_quantities_t :=
  {| n_cells := 10; n_faces := 0; n_vertices := 0; vtx_coord := []; dcell_vol := [] |}.

Definition ten_values : cs_xdef_array_input_t :=
  {| stride := 1; loc := 264%N;
     values := [10; 11; 12; 13; 14; 15; 16; 17; 18; 19]%R;
     index := None |}.

Definition cells_2_5_7 : list cs_lnum_t := [2; 5; 7].

(** A cell with one face, the unit square of the plane z = 0: four
    vertices, four edges, and the four triangles the edges span with the
    face center. *)
Definition unit_square_cell : cs_cell_mesh_t :=
  {| flag := 1794%N;
     c_id := 0;
     xc := (0.5, 0.5, 0.5)%R;
     n_vc := 4;
     v_ids := [0; 1; 2; 3];
     wvc := [0.25; 0.25; 0.25; 0.25]%R;
     xv := [0; 0; 0; 1; 0; 0; 1; 1; 0; 0; 1; 0]%R;
     face := [ {| meas := 1%R; unitv := (0, 0, 1)%R; center := (0.5, 0.5, 0)%R |} ];
     edge := [ {| meas := 1%R; unitv := (1, 0, 0)%R; center := (0.5, 0, 0)%R |};
               {| meas := 1%R; unitv := (0, 1, 0)%R; center := (1, 0.5, 0)%R |};
               {| meas := 1%R; unitv := (1, 0, 0)%R; center := (0.5, 1, 0)%R |};
               {| meas := 1%R; unitv := (0, 1, 0)%R; center := (0, 0.5, 0)%R |} ];
     f2e_idx := [0; 4];
     f2e_ids := [0; 1; 2; 3];
     e2v_ids := [0; 1; 1; 2; 2; 3; 3; 0];
     tef := [0.25; 0.25; 0.25; 0.25]%R |}.


(** A scalar field located at the four vertices of the mesh. *)
Definition vertex_field : cs_field_t :=
  {| dim := 1; location_id := 4%Z; val := [1; 2; 3; 4]%R |}.

(** The vector (1, 2, 3) stored for the only cell of a mesh. *)
Definition one_cell_vector : cs_xdef_array_input_t :=
  {| stride := 3; loc := 264%N; values := [1; 2; 3]%R; index := None |}.

(** A scalar array on dual faces by cell: a support the scalar evaluators
    do not handle. *)
Definition dual_face_scalars : cs_xdef_array_input_t :=
  {| stride := 1; loc := 2192%N; values := [1; 2; 3]%R; index := None |}.

(** A cell with two faces of unit normal (0, 0, 1) and of area 3. *)
Definition two_faces_cell : cs_cell_mesh_t :=
  {| flag := 0%N; c_id := 0; xc := (0, 0, 0)%R;
     n_vc := 0; v_ids := []; wvc := []; xv := [];
     face := [ {| meas := 3%R; unitv := (0, 0, 1)%R; center := (0, 0, 0)%R |};
               {| meas := 3%R; unitv := (0, 0, 1)%R; center := (0, 0, 1)%R |} ];
     edge := []; f2e_idx := []; f2e_ids := []; e2v_ids := []; tef := [] |}.

Definition twice_identity : cs_real_33_t :=
  ((2, 0, 0), (0, 2, 0), (0, 0, 2))%R.

(** Two triangular boundary faces on three vertices, and the constant
    scalar function 5. *)
Definition two_triangles : cs_cdo_quantities_t :=
  {| n_cells := 1; n_faces := 2; n_vertices := 3;
     vtx_coord := [0; 0; 0; 1; 0; 0; 0; 1; 0]%R; dcell_vol := [] |}.

Definition two_triangles_connect : cs_cdo_connect_t :=
  {| c2v := no_adjacency; c2e := no_adjacency;
     f2e := {| idx := [0; 3; 6]; ids := [0; 1; 2; 0; 1; 2] |};
     e2v := {| idx := []; ids := [0; 1; 1; 2; 2; 0] |} |}.

Definition time_zero : cs_time_step_t := {| t_cur := 0%R |}.

Definition constant_five : cs_analytic_func_t := fun _ _ => [5%R].


(** Two cells that share the vertex 1 of a mesh of three vertices, the
    dual volumes of their vertices, and the vector (1, 2, 3) stored for
    both cells. *)
Definition two_cells : cs_cdo_quantities_t :=
  {| n_cells := 2; n_faces := 0; n_vertices := 3;
     vtx_coord := []; dcell_vol := [1; 1; 2; 2]%R |}.

Definition two_cells_connect : cs_cdo_connect_t :=
  {| c2v := {| idx := [0; 2; 4]; ids := [0; 1; 1; 2] |};
     c2e := no_adjacency; f2e := no_adjacency; e2v := no_adjacency |}.

Definition same_vector_on_two_cells : cs_xdef_array_input_t :=
  {| stride := 3; loc := 264%N; values := [1; 2; 3; 1; 2; 3]%R; index := None |}.


(** ** The other helpers of cs_math.h

    The inline functions of [src/src/base/cs_math.h] the evaluators do not
    call.  A function that writes its result through a pointer returns it; a
    function that works in place returns the new content of its argument. *)

(** A symmetric 3x3 tensor, stored as (s11, s22, s33, s12, s23, s13). *)
Definition cs_real_6_t : Type := (R * R * R * R * R * R)%type.

(** [m[k]] for a symmetric tensor, [k] in 0..5. *)
Definition comp6 (m : cs_real_6_t) (k : nat) : R :=
  let '(m0, m1, m2, m3, m4, m5) := m in
  match k with 0 => m0 | 1 => m1 | 2 => m2 | 3 => m3 | 4 => m4 | _ => m5 end.

(** [m[i][j]] for a 3x3 tensor. *)
Definition elt (m : cs_real_33_t) (i j : nat) : R := comp (row m i) j.

(** cs_math.h, line 88. *)
Definition cs_math_sq (x : R) : R := (x * x)%R.

(** cs_math.h, line 106. *)
Definition cs_math_3_distance (xa xb : cs_real_3_t) : R :=
  let v0 := (comp xb 0 - comp xa 0)%R in
  let v1 := (comp xb 1 - comp xa 1)%R in
  let v2 := (comp xb 2 - comp xa 2)%R in
  sqrt (v0 * v0 + v1 * v1 + v2 * v2).

(** cs_math.h, line 131. *)
Definition cs_math_3_square_distance (xa xb : cs_real_3_t) : R :=
  let v0 := (comp xb 0 - comp xa 0)%R in
  let v1 := (comp xb 1 - comp xa 1)%R in
  let v2 := (comp xb 2 - comp xa 2)%R in
  (v0 * v0 + v1 * v1 + v2 * v2)%R.

(** cs_math.h, line 172. *)
Definition cs_math_3_norm (v : cs_real_3_t) : R :=
  sqrt (comp v 0 * comp v 0 + comp v 1 * comp v 1 + comp v 2 * comp v 2).

(** cs_math.h, line 188. *)
Definition cs_math_3_square_norm (v : cs_real_3_t) : R :=
  (comp v 0 * comp v 0 + comp v 1 * comp v 1 + comp v 2 * comp v 2)%R.

(** cs_math.h, line 228. *)
Definition cs_math_33t_3_product (m : cs_real_33_t) (v : cs_real_3_t) : cs_real_3_t :=
  ((elt m 0 0 * comp v 0 + elt m 1 0 * comp v 1 + elt m 2 0 * comp v 2)%R,
   (elt m 0 1 * comp v 0 + elt m 1 1 * comp v 1 + elt m 2 1 * comp v 2)%R,
   (elt m 0 2 * comp v 0 + elt m 1 2 * comp v 1 + elt m 2 2 * comp v 2)%R).

(** cs_math.h, line 250. *)
Definition cs_math_sym_33_3_product (m : cs_real_6_t) (v : cs_real_3_t) : cs_real_3_t :=
  ((comp6 m 0 * comp v 0 + comp6 m 3 * comp v 1 + comp6 m 5 * comp v 2)%R,
   (comp6 m 3 * comp v 0 + comp6 m 1 * comp v 1 + comp6 m 4 * comp v 2)%R,
   (comp6 m 5 * comp v 0 + comp6 m 4 * comp v 1 + comp6 m 2 * comp v 2)%R).

(** cs_math.h, line 270. *)
Definition cs_math_33_determinant (m : cs_real_33_t) : R :=
  let com0 := (elt m 1 1 * elt m 2 2 - elt m 2 1 * elt m 1 2)%R in
  let com1 := (elt m 2 1 * elt m 0 2 - elt m 0 1 * elt m 2 2)%R in
  let com2 := (elt m 0 1 * elt m 1 2 - elt m 1 1 * elt m 0 2)%R in
  (elt m 0 0 * com0 + elt m 1 0 * com1 + elt m 2 0 * com2)%R.

(** cs_math.h, line 290. *)
Definition cs_math_sym_33_determinant (m : cs_real_6_t) : R :=
  let com0 := (comp6 m 1 * comp6 m 2 - comp6 m 4 * comp6 m 4)%R in
  let com1 := (comp6 m 4 * comp6 m 5 - comp6 m 3 * comp6 m 2)%R in
  let com2 := (comp6 m 3 * comp6 m 4 - comp6 m 1 * comp6 m 5)%R in
  (comp6 m 0 * com0 + comp6 m 3 * com1 + comp6 m 5 * com2)%R.

(** cs_math.h, line 315. *)
Definition cs_math_3_cross_product (u v : cs_real_3_t) : cs_real_3_t :=
  ((comp u 1 * comp v 2 - comp u 2 * comp v 1)%R,
   (comp u 2 * comp v 0 - comp u 0 * comp v 2)%R,
   (comp u 0 * comp v 1 - comp u 1 * comp v 0)%R).

(** cs_math.h, line 334. *)
Definition cs_math_33_inv_cramer (m_in : cs_real_33_t) : cs_real_33_t :=
  let out00 := (elt m_in 1 1 * elt m_in 2 2 - elt m_in 2 1 * elt m_in 1 2)%R in
  let out01 := (elt m_in 2 1 * elt m_in 0 2 - elt m_in 0 1 * elt m_in 2 2)%R in
  let out02 := (elt m_in 0 1 * elt m_in 1 2 - elt m_in 1 1 * elt m_in 0 2)%R in
  let out10 := (elt m_in 2 0 * elt m_in 1 2 - elt m_in 1 0 * elt m_in 2 2)%R in
  let out11 := (elt m_in 0 0 * elt m_in 2 2 - elt m_in 2 0 * elt m_in 0 2)%R in
  let out12 := (elt m_in 1 0 * elt m_in 0 2 - elt m_in 0 0 * elt m_in 1 2)%R in
  let out20 := (elt m_in 1 0 * elt m_in 2 1 - elt m_in 2 0 * elt m_in 1 1)%R in
  let out21 := (elt m_in 2 0 * elt m_in 0 1 - elt m_in 0 0 * elt m_in 2 1)%R in
  let out22 := (elt m_in 0 0 * elt m_in 1 1 - elt m_in 1 0 * elt m_in 0 1)%R in
  let det := (elt m_in 0 0 * out00 + elt m_in 1 0 * out01 + elt m_in 2 0 * out02)%R in
  let invdet := (1 / det)%R in
  ((out00 * invdet, out01 * invdet, out02 * invdet),
   (out10 * invdet, out11 * invdet, out12 * invdet),
   (out20 * invdet, out21 * invdet, out22 * invdet))%R.

(** cs_math.h, line 366. *)
Definition cs_math_33_inv_cramer_in_place (a : cs_real_33_t) : cs_real_33_t :=
  let a00 := (elt a 1 1 * elt a 2 2 - elt a 2 1 * elt a 1 2)%R in
  let a01 := (elt a 2 1 * elt a 0 2 - elt a 0 1 * elt a 2 2)%R in
  let a02 := (elt a 0 1 * elt a 1 2 - elt a 1 1 * elt a 0 2)%R in
  let a10 := (elt a 2 0 * elt a 1 2 - elt a 1 0 * elt a 2 2)%R in
  let a11 := (elt a 0 0 * elt a 2 2 - elt a 2 0 * elt a 0 2)%R in
  let a12 := (elt a 1 0 * elt a 0 2 - elt a 0 0 * elt a 1 2)%R in
  let a20 := (elt a 1 0 * elt a 2 1 - elt a 2 0 * elt a 1 1)%R in
  let a21 := (elt a 2 0 * elt a 0 1 - elt a 0 0 * elt a 2 1)%R in
  let a22 := (elt a 0 0 * elt a 1 1 - elt a 1 0 * elt a 0 1)%R in
  let det_inv := (1 / (elt a 0 0 * a00 + elt a 1 0 * a01 + elt a 2 0 * a02))%R in
  ((a00 * det_inv, a01 * det_inv, a02 * det_inv),
   (a10 * det_inv, a11 * det_inv, a12 * det_inv),
   (a20 * det_inv, a21 * det_inv, a22 * det_inv))%R.

(** cs_math.h, line 401. *)
Definition cs_math_33_inv_cramer_sym_in_place (a : cs_real_33_t) : cs_real_33_t :=
  let a00 := (elt a 1 1 * elt a 2 2 - elt a 2 1 * elt a 1 2)%R in
  let a01 := (elt a 2 1 * elt a 0 2 - elt a 0 1 * elt a 2 2)%R in
  let a02 := (elt a 0 1 * elt a 1 2 - elt a 1 1 * elt a 0 2)%R in
  let a11 := (elt a 0 0 * elt a 2 2 - elt a 2 0 * elt a 0 2)%R in
  let a12 := (elt a 1 0 * elt a 0 2 - elt a 0 0 * elt a 1 2)%R in
  let a22 := (elt a 0 0 * elt a 1 1 - elt a 1 0 * elt a 0 1)%R in
  let det_inv := (1 / (elt a 0 0 * a00 + elt a 1 0 * a01 + elt a 2 0 * a02))%R in
  ((a00 * det_inv, a01 * det_inv, a02 * det_inv),
   (a01 * det_inv, a11 * det_inv, a12 * det_inv),
   (a02 * det_inv, a12 * det_inv, a22 * det_inv))%R.

(** cs_math.h, line 436. *)
Definition cs_math_sym_33_inv_cramer (s : cs_real_6_t) : cs_real_6_t :=
  let sout0 := (comp6 s 1 * comp6 s 2 - comp6 s 4 * comp6 s 4)%R in
  let sout1 := (comp6 s 0 * comp6 s 2 - comp6 s 5 * comp6 s 5)%R in
  let sout2 := (comp6 s 0 * comp6 s 1 - comp6 s 3 * comp6 s 3)%R in
  let sout3 := (comp6 s 4 * comp6 s 5 - comp6 s 3 * comp6 s 2)%R in
  let sout4 := (comp6 s 3 * comp6 s 5 - comp6 s 0 * comp6 s 4)%R in
  let sout5 := (comp6 s 3 * comp6 s 4 - comp6 s 1 * comp6 s 5)%R in
  let detinv := (1 / (comp6 s 0 * sout0 + comp6 s 3 * sout3 + comp6 s 5 * sout5))%R in
  (sout0 * detinv, sout1 * detinv, sout2 * detinv,
   sout3 * detinv, sout4 * detinv, sout5 * detinv)%R.

(** cs_math.h, line 472. *)
Definition cs_math_sym_33_product (s1 s2 : cs_real_6_t) : cs_real_6_t :=
  ((comp6 s1 0 * comp6 s2 0 + comp6 s1 3 * comp6 s2 3 + comp6 s1 5 * comp6 s2 5)%R,
   (comp6 s1 3 * comp6 s2 3 + comp6 s1 1 * comp6 s2 1 + comp6 s1 4 * comp6 s2 4)%R,
   (comp6 s1 5 * comp6 s2 5 + comp6 s1 4 * comp6 s2 4 + comp6 s1 2 * comp6 s2 2)%R,
   (comp6 s1 0 * comp6 s2 3 + comp6 s1 3 * comp6 s2 1 + comp6 s1 5 * comp6 s2 4)%R,
   (comp6 s1 3 * comp6 s2 5 + comp6 s1 1 * comp6 s2 4 + comp6 s1 4 * comp6 s2 2)%R,
   (comp6 s1 0 * comp6 s2 5 + comp6 s1 3 * comp6 s2 4 + comp6 s1 5 * comp6 s2 2)%R).

(** cs_math.h, line 550. *)
Definition cs_math_sym_33_double_product (s1 s2 s3 : cs_real_6_t) : cs_real_33_t :=
  let _sout00 := (comp6 s1 0 * comp6 s2 0 + comp6 s1 3 * comp6 s2 3 + comp6 s1 5 * comp6 s2 5)%R in
  let _sout11 := (comp6 s1 3 * comp6 s2 3 + comp6 s1 1 * comp6 s2 1 + comp6 s1 4 * comp6 s2 4)%R in
  let _sout22 := (comp6 s1 5 * comp6 s2 5 + comp6 s1 4 * comp6 s2 4 + comp6 s1 2 * comp6 s2 2)%R in
  let _sout01 := (comp6 s1 0 * comp6 s2 3 + comp6 s1 3 * comp6 s2 1 + comp6 s1 5 * comp6 s2 4)%R in
  let _sout10 := (comp6 s2 0 * comp6 s1 3 + comp6 s2 3 * comp6 s1 1 + comp6 s2 5 * comp6 s1 4)%R in
  let _sout12 := (comp6 s1 3 * comp6 s2 5 + comp6 s1 1 * comp6 s2 4 + comp6 s1 4 * comp6 s2 2)%R in
  let _sout21 := (comp6 s2 3 * comp6 s1 5 + comp6 s2 1 * comp6 s1 4 + comp6 s2 4 * comp6 s1 2)%R in
  let _sout02 := (comp6 s1 0 * comp6 s2 5 + comp6 s1 3 * comp6 s2 4 + comp6 s1 5 * comp6 s2 2)%R in
  let _sout20 := (comp6 s2 0 * comp6 s1 5 + comp6 s2 3 * comp6 s1 4 + comp6 s2 5 * comp6 s1 2)%R in
  let sout00 := (_sout00 * comp6 s3 0 + _sout01 * comp6 s3 3 + _sout02 * comp6 s3 5)%R in
  let sout11 := (_sout10 * comp6 s3 3 + _sout11 * comp6 s3 1 + _sout12 * comp6 s3 4)%R in
  let sout22 := (_sout20 * comp6 s3 5 + _sout21 * comp6 s3 4 + _sout22 * comp6 s3 2)%R in
  let sout01 := (_sout00 * comp6 s3 3 + _sout01 * comp6 s3 1 + _sout02 * comp6 s3 4)%R in
  let sout10 := (comp6 s3 0 * _sout10 + comp6 s3 3 * _sout11 + comp6 s3 5 * _sout12)%R in
  let sout12 := (_sout10 * comp6 s3 5 + _sout11 * comp6 s3 4 + _sout12 * comp6 s3 2)%R in
  let sout21 := (comp6 s3 3 * _sout20 + comp6 s3 1 * _sout21 + comp6 s3 4 * _sout22)%R in
  let sout02 := (_sout00 * comp6 s3 5 + _sout01 * comp6 s3 4 + _sout02 * comp6 s3 2)%R in
  let sout20 := (comp6 s3 0 * _sout20 + comp6 s3 3 * _sout21 + comp6 s3 5 * _sout22)%R in
  ((sout00, sout01, sout02), (sout10, sout11, sout12), (sout20, sout21, sout22)).

(** cs_math.h, line 501.  The 6x6 array [sout] is the output array of the
    run, [sout[a][b]] being the real at position [6*a+b]. *)
Definition cs_math_reduce_sym_prod_33_to_66 (s : cs_real_33_t) : M unit :=
  let tens2vect := [[0; 3; 5]; [3; 1; 4]; [5; 4; 2]] in
  let iindex := [0; 1; 2; 0; 1; 0] in
  let jindex := [0; 1; 2; 1; 2; 2] in
  for_ 0 6 (fun i =>
    ii <- fetch iindex i ;;
    jj <- fetch jindex i ;;
    for_ 0 3 (fun k =>
      tens2vect_k <- fetch tens2vect k ;;
      ik <- fetch tens2vect_k ii ;;
      jk <- fetch tens2vect_k jj ;;
      add_to (6 * ik + i) (elt s k jj) ;;;
      add_to (6 * jk + i) (elt s k ii))).


(** The indices (ii, jj) of the component [i] of a symmetric tensor in its
    storage order: the arrays [iindex] and [jindex] of
    [cs_math_reduce_sym_prod_33_to_66]. *)
Definition sym_index (i : nat) : nat * nat :=
  match i with
  | 0 => (0, 0) | 1 => (1, 1) | 2 => (2, 2)
  | 3 => (0, 1) | 4 => (1, 2) | _ => (0, 2)
  end.


(** The 3x3 tensor a symmetric tensor stands for, after the storage order
    (s11, s22, s33, s12, s23, s13) of the header. *)
Definition sym_to_33 (s : cs_real_6_t) : cs_real_33_t :=
  ((comp6 s 0, comp6 s 3, comp6 s 5),
   (comp6 s 3, comp6 s 1, comp6 s 4),
   (comp6 s 5, comp6 s 4, comp6 s 2)).

(** [u - v], [u + v] and the identity, to state properties. *)
Definition vec_sub (u v : cs_real_3_t) : cs_real_3_t :=
  ((comp u 0 - comp v 0)%R, (comp u 1 - comp v 1)%R, (comp u 2 - comp v 2)%R).

Definition sym_identity : cs_real_6_t := (1, 1, 1, 0, 0, 0)%R.


(** ** The other evaluators of cs_xdef_eval.c *)

(** cs_xdef_eval.c, lines 141-152. *)
Definition cs_xdef_eval_cw_scalar_by_val (input : list R) : M unit :=
  let constant_val := input in
  c0 <- fetch constant_val 0 ;; store 0 c0.

(** cs_xdef_eval.c, lines 223-237. *)
Definition cs_xdef_eval_cw_vector_by_val (input : list R) : M unit :=
  let constant_val := input in
  c0 <- fetch constant_val 0 ;; store 0 c0 ;;;
  c1 <- fetch constant_val 1 ;; store 1 c1 ;;;
  c2 <- fetch constant_val 2 ;; store 2 c2.

(** cs_xdef_eval.c, lines 314-327. *)
Definition cs_xdef_eval_cw_tensor_by_val (input : list R) : M unit :=
  let constant_val := input in
  for_ 0 3 (fun ki =>
    for_ 0 3 (fun kj =>
      c <- fetch constant_val (3 * ki + kj) ;;
      store (3 * ki + kj) c)).

Section MoreEvaluators.

Context `{Collaborators}.

(** cs_xdef_eval.c, lines 1183-1276. *)
Definition cs_xdef_eval_cell_by_field
    (n_elts : cs_lnum_t) (elt_ids : option (list cs_lnum_t)) (compact : bool)
    (connect : cs_cdo_connect_t) (quant : cs_cdo_quantities_t)
    (input : cs_field_t) : M unit :=
  let field := input in
  let values := val field in
  let c_ml_id := cs_mesh_location_get_id_by_name "cells" in
  let v_ml_id := cs_mesh_location_get_id_by_name "vertices" in
  if (location_id field =? c_ml_id)%Z then
    match elt_ids, compact with
    | Some elt_ids, false =>
        for_ 0 n_elts (fun i =>
          c_id <- fetch elt_ids i ;;
          for_ 0 (dim field) (fun k =>
            x <- fetch values (dim field * c_id + k) ;;
            store (dim field * c_id + k) x))
    | Some elt_ids, true =>
        for_ 0 n_elts (fun i =>
          c_id <- fetch elt_ids i ;;
          for_ 0 (dim field) (fun k =>
            x <- fetch values (dim field * c_id + k) ;;
            store (dim field * i + k) x))
    | None, _ =>
        memcpy values (dim field * n_elts)
    end
  else if (location_id field =? v_ml_id)%Z then
    assert (dim field =? 1) ;;;
    match elt_ids, compact with
    | Some elt_ids, false =>
        for_ 0 n_elts (fun i =>
          c_id <- fetch elt_ids i ;;
          store c_id (cs_reco_pv_at_cell_center c_id (c2v connect) quant values))
    | Some elt_ids, true =>
        for_ 0 n_elts (fun i =>
          c_id <- fetch elt_ids i ;;
          store i (cs_reco_pv_at_cell_center c_id (c2v connect) quant values))
    | None, _ =>
        for_ 0 n_elts (fun i =>
          store i (cs_reco_pv_at_cell_center i (c2v connect) quant values))
    end
  else
    bft_error (in_func "cs_xdef_eval_cell_by_field"
                       "Invalid case for the input array").

(** ** The three addressing modes *)

(** The element the iteration [i] of a bulk evaluator evaluates: [i] itself
    without a list of element ids, [elt_ids[i]] with one. *)
Definition selected (elt_ids : option (list cs_lnum_t)) (i : nat) : nat :=
  match elt_ids with
  | Some elt_ids => nth i elt_ids 0
  | None => i
  end.

(** The slot of the output the iteration [i] writes: [elt_ids[i]] with a
    list of element ids and [compact = false], [i] otherwise. *)
Definition slot (elt_ids : option (list cs_lnum_t)) (compact : bool) (i : nat) : nat :=
  match elt_ids, compact with
  | Some elt_ids, false => nth i elt_ids 0
  | _, _ => i
  end.

(** The output [out] of an evaluation of [n] elements started on [ev]: the
    array keeps its length, the slot of every iteration holds the [s]
    values [value id k] of its element [id], and whatever is in no slot is
    as it was in [ev]. *)
Definition holds_selection (s n : nat) (elt_ids : option (list cs_lnum_t)) (compact : bool)
    (value : nat -> nat -> R) (ev out : list R) : Prop :=
  length out = length ev /\
  (forall i k, i < n -> k < s ->
     out !! (s * slot elt_ids compact i + k) = Some (value (selected elt_ids i) k)) /\
  (forall q,
     (forall i, i < n ->
        ~ (s * slot elt_ids compact i <= q < s * slot elt_ids compact i + s)) ->
     out !! q = ev !! q).

(** The selection is made of [n] elements, each with a slot in an output
    array of [n_out] reals. *)
Definition selection_fits (s n : nat) (elt_ids : option (list cs_lnum_t)) (compact : bool)
    (n_out : nat) : Prop :=
  match elt_ids with Some elt_ids => n <= length elt_ids | None => True end /\
  forall i, i < n -> s * slot elt_ids compact i + s <= n_out.

(** Component [k] of the value of the element [id] for a definition of the
    family of bulk evaluators. *)
Definition bulk_value (d : bulk_definition) (id k : nat) : R :=
  match d with
  | ScalarByVal input => nth 0 input 0%R
  | VectorByVal input => nth k input 0%R
  | TensorByVal input => nth k input 0%R
  | ScalarAtCellsByArray connect quant input =>
      if cs_flag_test (loc input) cs_flag_primal_cell
      then nth id (values input) 0%R
      else cs_reco_pv_at_cell_center id (c2v connect) quant (values input)
  | NdAtCellsByArray connect quant input =>
      if cs_flag_test (loc input) cs_flag_primal_cell
      then nth (stride input * id + k) (values input) 0%R
      else comp (cs_reco_dfbyc_at_cell_center id (c2e connect) quant (values input)) k
  end.

(** Component [k] of the value of the element [id] for an array on the
    vertices. *)
Definition vertex_array_value (input : cs_xdef_array_input_t) (id k : nat) : R :=
  nth (stride input * id + k) (values input) 0%R.

(** Component [k] of the value of the cell [id] for a field: the stored
    value when the field is on the cells, the reconstruction at the cell
    center otherwise. *)
Definition field_value (connect : cs_cdo_connect_t) (quant : cs_cdo_quantities_t)
    (field : cs_field_t) (id k : nat) : R :=
  if (location_id field =? cs_mesh_location_get_id_by_name "cells")%Z
  then nth (dim field * id + k) (val field) 0%R
  else cs_reco_pv_at_cell_center id (c2v connect) quant (val field).

(** What [cs_xdef_eval_cell_by_field] requires of the field: it is on the
    cells, or on the vertices with one component. *)
Definition field_ready (field : cs_field_t) : Prop :=
  location_id field = cs_mesh_location_get_id_by_name "cells" \/
  (location_id field = cs_mesh_location_get_id_by_name "vertices" /\ dim field = 1).

(** The values of a field on cells exist for the cell [id]. *)
Definition field_readable (field : cs_field_t) (id : cs_lnum_t) : Prop :=
  location_id field = cs_mesh_location_get_id_by_name "cells" ->
  dim field * id + dim field <= length (val field).


End MoreEvaluators.


(** ** The terms of the fluxes by analytic function *)

Section FluxTerms.

Context `{Collaborators}.

(** [a + off] read as a vector: the three reals from position [off]. *)
Definition lookup3 (a : list R) (off : nat) : option cs_real_3_t :=
  match a !! off, a !! (off + 1), a !! (off + 2) with
  | Some x, Some y, Some z => Some (x, y, z)
  | _, _, _ => None
  end.

(** The edge at position [i] of the face-to-edge connectivity and the
    coordinates of its two vertices, as the loops of
    [cs_xdef_eval_cw_flux_by_analytic] read them. *)
Definition face_edge (cm : cs_cell_mesh_t) (i : nat)
    : option (nat * cs_real_3_t * cs_real_3_t) :=
  match f2e_ids cm !! i with
  | Some e =>
      match e2v_ids cm !! (2 * e), e2v_ids cm !! (2 * e + 1) with
      | Some v1, Some v2 =>
          match lookup3 (xv cm) (3 * v1), lookup3 (xv cm) (3 * v2) with
          | Some xv1, Some xv2 => Some (e, xv1, xv2)
          | _, _ => None
          end
      | _, _ => None
      end
  | None => None
  end.

(** What the iteration [i] of the loop on the edges of the face [f] adds to
    [eval[f]] in [cs_xdef_eval_cw_flux_by_analytic]: lines 1922-1937 for
    [CS_QUADRATURE_BARY_SUBDIV], lines 1952-1973 for [CS_QUADRATURE_HIGHER]. *)
Definition flux_edge_term (cm : cs_cell_mesh_t) (f : nat) (ts : cs_time_step_t)
    (anai : cs_analytic_vect_t) (qtype : cs_quadrature_type_t) (i : nat) : option R :=
  match face cm !! f, face_edge cm i with
  | Some fq, Some (e, xv1, xv2) =>
      match qtype with
      | CS_QUADRATURE_BARY_SUBDIV =>
          match tef cm !! i with
          | Some tef_i =>
              let _xyz := third_point (center fq) xv1 xv2 in
              let _val := anai (t_cur ts) _xyz in
              Some (tef_i * _dp3 _val (unitv fq))%R
          | None => None
          end
      | CS_QUADRATURE_HIGHER =>
          match tef cm !! e with
          | Some tef_e =>
              let '((g0, g1, g2), w) :=
                cs_quadrature_tria_3pts (center fq) xv1 xv2 tef_e in
              let t := t_cur ts in
              let add := sum_dp3 (anai t g0) (anai t g1) (anai t g2) (unitv fq) in
              Some (w * add)%R
          | None => None
          end
      | _ => None
      end
  | _, _ => None
  end.

(** The content of [eval[f]] the loop starts from: the former content for
    [CS_QUADRATURE_BARY_SUBDIV], 0 for [CS_QUADRATURE_HIGHER] (line 1949). *)
Definition flux_start (qtype : cs_quadrature_type_t) (x : R) : R :=
  match qtype with
  | CS_QUADRATURE_HIGHER => 0%R
  | _ => x
  end.

(** What the iteration [i] of the loop on the edges of the face [f] adds to
    [eval[3*f+k]] in [cs_xdef_eval_cw_tensor_flux_by_analytic]: lines
    2043-2061 for [CS_QUADRATURE_BARY_SUBDIV] (the vertices are read at
    [e2v_ids[f2e_ids[i]]] and the next position), lines 2078-2102 for
    [CS_QUADRATURE_HIGHER]. *)
Definition tensor_flux_edge_term (cm : cs_cell_mesh_t) (f : nat) (ts : cs_time_step_t)
    (anai : cs_analytic_tens_t) (qtype : cs_quadrature_type_t) (i k : nat) : option R :=
  match face cm !! f with
  | Some fq =>
      match qtype with
      | CS_QUADRATURE_BARY_SUBDIV =>
          match f2e_ids cm !! i with
          | Some _2e =>
              match e2v_ids cm !! _2e, e2v_ids cm !! (_2e + 1) with
              | Some v1, Some v2 =>
                  match lookup3 (xv cm) (3 * v1), lookup3 (xv cm) (3 * v2), tef cm !! i with
                  | Some xv1, Some xv2, Some tef_i =>
                      let _xyz := third_point (center fq) xv1 xv2 in
                      let _eval := anai (t_cur ts) _xyz in
                      let _val := cs_math_33_3_product _eval (unitv fq) in
                      Some (tef_i * comp _val k)%R
                  | _, _, _ => None
                  end
              | _, _ => None
              end
          | None => None
          end
      | CS_QUADRATURE_HIGHER =>
          match face_edge cm i with
          | Some (e, xv1, xv2) =>
              match tef cm !! e, tef cm !! i with
              | Some tef_e, Some tef_i =>
                  let '(gpts, w) := cs_quadrature_tria_3pts (center fq) xv1 xv2 tef_e in
                  let coef := (w * tef_i)%R in
                  let _val p := cs_math_33_3_product (anai (t_cur ts) (row gpts p)) (unitv fq) in
                  Some (coef * comp (_val 0%nat) k + coef * comp (_val 1%nat) k
                        + coef * comp (_val 2%nat) k)%R
              | _, _ => None
              end
          | None => None
          end
      | _ => None
      end
  | None => None
  end.

(** The output array the loop starts from: the given one for
    [CS_QUADRATURE_BARY_SUBDIV], the given one with [eval[f] = 0] for
    [CS_QUADRATURE_HIGHER] (line 2075). *)
Definition tensor_flux_start (qtype : cs_quadrature_type_t) (f : nat) (ev : list R) : list R :=
  match qtype with
  | CS_QUADRATURE_HIGHER => <[f := 0%R]> ev
  | _ => ev
  end.


End FluxTerms.



(** ** The quadrature rule of the average on boundary faces *)

Section AverageRule.

Context `{Collaborators}.

(** The rule the two switches of [cs_xdef_eval_avg_at_b_faces_by_analytic]
    select (lines 448-502), if any. *)
Definition avg_rule (dim : nat) (qtype : cs_quadrature_type_t)
    : option cs_quadrature_tria_integral_t :=
  match dim with
  | 1 =>
      match qtype with
      | CS_QUADRATURE_BARY | CS_QUADRATURE_BARY_SUBDIV => Some cs_quadrature_tria_1pt_scal
      | CS_QUADRATURE_HIGHER => Some cs_quadrature_tria_3pts_scal
      | CS_QUADRATURE_HIGHEST => Some cs_quadrature_tria_4pts_scal
      | _ => None
      end
  | 3 =>
      match qtype with
      | CS_QUADRATURE_BARY | CS_QUADRATURE_BARY_SUBDIV => Some cs_quadrature_tria_1pt_vect
      | CS_QUADRATURE_HIGHER => Some cs_quadrature_tria_3pts_vect
      | CS_QUADRATURE_HIGHEST => Some cs_quadrature_tria_4pts_vect
      | _ => None
      end
  | _ => None
  end.

End AverageRule.



(** ** More sample data *)

(** A scalar array on the primal faces: another support the scalar
    evaluators do not handle. *)
Definition primal_face_scalars : cs_xdef_array_input_t :=
  {| stride := 1; loc := 136%N; values := [1; 2; 3]%R; index := None |}.

(** The collaborators of [sample] but for the reconstruction from the dual
    faces at a cell center, which here returns the first three reals of
    the array for every cell. *)
Definition sample_reconstruction : Collaborators := {|
  cs_flag_primal_cell := @cs_flag_primal_cell sample;
  cs_flag_primal_vtx := @cs_flag_primal_vtx sample;
  cs_flag_dual_face_byc := @cs_flag_dual_face_byc sample;
  CS_CDO_LOCAL_PVQ := @CS_CDO_LOCAL_PVQ sample;
  CS_CDO_LOCAL_EV := @CS_CDO_LOCAL_EV sample;
  CS_CDO_LOCAL_FE := @CS_CDO_LOCAL_FE sample;
  CS_CDO_LOCAL_FEQ := @CS_CDO_LOCAL_FEQ sample;
  CS_TRIANGLE_CASE := @CS_TRIANGLE_CASE sample;
  cs_mesh_location_get_id_by_name := @cs_mesh_location_get_id_by_name sample;
  cs_reco_pv_at_cell_center := @cs_reco_pv_at_cell_center sample;
  cs_reco_dfbyc_at_cell_center := fun _ _ _ array =>
    (nth 0 array 0%R, nth 1 array 0%R, nth 2 array 0%R);
  cs_reco_dfbyc_in_cell := @cs_reco_dfbyc_in_cell sample;
  cs_compute_area_from_quant := @cs_compute_area_from_quant sample;
  cs_math_surftri := @cs_math_surftri sample;
  cs_math_onethird := @cs_math_onethird sample;
  cs_quant_set_face := @cs_quant_set_face sample;
  cs_connect_get_next_3_vertices := @cs_connect_get_next_3_vertices sample;
  cs_quadrature_tria_3pts := @cs_quadrature_tria_3pts sample;
  cs_quadrature_tria_1pt_scal := @cs_quadrature_tria_1pt_scal sample;
  cs_quadrature_tria_3pts_scal := @cs_quadrature_tria_3pts_scal sample;
  cs_quadrature_tria_4pts_scal := @cs_quadrature_tria_4pts_scal sample;
  cs_quadrature_tria_1pt_vect := @cs_quadrature_tria_1pt_vect sample;
  cs_quadrature_tria_3pts_vect := @cs_quadrature_tria_3pts_vect sample;
  cs_quadrature_tria_4pts_vect := @cs_quadrature_tria_4pts_vect sample
|}.

(** Two reals for each of three vertices. *)
Definition vertex_pairs : cs_xdef_array_input_t :=
  {| stride := 2; loc := 40%N; values := [1; 2; 3; 4; 5; 6]%R; index := None |}.

(** A field of dimension 2 on three cells. *)
Definition cell_pairs : cs_field_t :=
  {| dim := 2; location_id := 1%Z; val := [1; 2; 3; 4; 5; 6]%R |}.



(** A field of dimension 3 on one cell, and an array on the dual faces of
    one cell. *)
Definition cell_triple : cs_field_t :=
  {| dim := 3; location_id := 1%Z; val := [1; 2; 3]%R |}.

Definition dual_face_fluxes : cs_xdef_array_input_t :=
  {| stride := 1; loc := 2192%N; values := [1; 2; 3]%R; index := Some [0; 3] |}.



(** A field of dimension 3 on a location that is neither the cells nor the
    vertices. *)
Definition face_field : cs_field_t :=
  {| dim := 3; location_id := 2%Z; val := [1; 2; 3]%R |}.



(** A vector for each of the four vertices of the unit square. *)
Definition vertex_vectors : cs_xdef_array_input_t :=
  {| stride := 3; loc := 40%N;
     values := [1; 0; 0; 0; 1; 0; 0; 0; 1; 1; 1; 1]%R; index := None |}.



(** * Properties *)

(** ** Rules of the execution monad *)

Section Rules.

Context {A B : Type}.

Lemma wp_ret (a : A) (Q : A -> list R -> Prop) ev :
  Q a ev -> wp (ret a) Q ev.
Proof. done. Qed.

Lemma wp_bind (m : M A) (k : A -> M B) (Q : B -> list R -> Prop) ev :
  wp m (fun a ev' => wp (k a) Q ev') ev -> wp (bind m k) Q ev.
Proof. unfold wp, bind. by destruct (m ev). Qed.

Lemma wp_mono (m : M A) (Q Q' : A -> list R -> Prop) ev :
  (forall a ev', Q a ev' -> Q' a ev') -> wp m Q ev -> wp m Q' ev.
Proof. unfold wp. destruct (m ev); auto. Qed.

Lemma wp_returns (m : M A) (Q : A -> list R -> Prop) ev :
  wp m Q ev <-> exists a ev', m ev = Returns a ev' /\ Q a ev'.
Proof.
  unfold wp. split.
  - destruct (m ev) as [a ev'| |]; [eauto | done | done].
  - intros (a & ev' & -> & HQ). done.
Qed.

Lemma wp_fetch (l : list A) i x (Q : A -> list R -> Prop) ev :
  l !! i = Some x -> Q x ev -> wp (fetch l i) Q ev.
Proof. unfold wp, fetch. by intros ->. Qed.

Lemma wp_update (l : list A) i x (Q : list A -> list R -> Prop) ev :
  i < length l -> Q (<[i:=x]> l) ev -> wp (update l i x) Q ev.
Proof. unfold wp, update. intros Hi HQ. by rewrite decide_True. Qed.

End Rules.

Lemma wp_assert b (Q : unit -> list R -> Prop) ev :
  b = true -> Q tt ev -> wp (assert b) Q ev.
Proof. by intros ->. Qed.

Lemma wp_load i x (Q : R -> list R -> Prop) ev :
  ev !! i = Some x -> Q x ev -> wp (load i) Q ev.
Proof. unfold wp, load. by intros ->. Qed.

Lemma wp_store i x (Q : unit -> list R -> Prop) ev :
  i < length ev -> Q tt (<[i:=x]> ev) -> wp (store i x) Q ev.
Proof. unfold wp, store. intros Hi HQ. by rewrite decide_True. Qed.

Lemma wp_add_to i x y (Q : unit -> list R -> Prop) ev :
  ev !! i = Some y -> Q tt (<[i:=(y + x)%R]> ev) -> wp (add_to i x) Q ev.
Proof.
  intros Hi HQ. apply wp_bind, (wp_load _ y); [done|].
  apply wp_store; [by eapply lookup_lt_Some | done].
Qed.

Lemma wp_fetch3 (l : list R) off x y z (Q : cs_real_3_t -> list R -> Prop) ev :
  l !! off = Some x -> l !! (off + 1) = Some y -> l !! (off + 2) = Some z ->
  Q (x, y, z) ev -> wp (fetch3 l off) Q ev.
Proof.
  intros Hx Hy Hz HQ. unfold fetch3.
  apply wp_bind, (wp_fetch _ _ x); [done|].
  apply wp_bind, (wp_fetch _ _ y); [done|].
  apply wp_bind, (wp_fetch _ _ z); [done|].
  by apply wp_ret.
Qed.

(** Loop rule: an invariant that holds on entry and that every iteration
    carries from [i] to [S i] holds on exit, and the loop returns. *)
Lemma wp_for_from {T} (I : nat -> T -> list R -> Prop) k :
  forall i (body : nat -> T -> M T) acc ev,
    I i acc ev ->
    (forall j acc ev, i <= j < i + k -> I j acc ev ->
       wp (body j acc) (fun acc' ev' => I (S j) acc' ev') ev) ->
    wp (for_from k i body acc) (fun acc' ev' => I (i + k) acc' ev') ev.
Proof.
  induction k as [|k IH]; intros i body acc ev HI Hbody; simpl.
  - apply wp_ret. by rewrite Nat.add_0_r.
  - apply wp_bind. eapply wp_mono; [|apply Hbody; [lia | done]].
    intros acc' ev' HI'. simpl in HI'.
    replace (i + S k) with (S i + k) by lia.
    apply IH; [done|]. intros j acc'' ev'' Hj. apply Hbody. lia.
Qed.

Lemma wp_for_acc {T} (I : nat -> T -> list R -> Prop) lo hi
    (body : nat -> T -> M T) acc ev :
  lo <= hi ->
  I lo acc ev ->
  (forall j acc ev, lo <= j < hi -> I j acc ev ->
     wp (body j acc) (fun acc' ev' => I (S j) acc' ev') ev) ->
  wp (for_acc lo hi body acc) (fun acc' ev' => I hi acc' ev') ev.
Proof.
  intros Hle HI Hbody. unfold for_acc.
  eapply wp_mono; [|apply (wp_for_from I (hi - lo) lo); [done|]].
  - intros acc' ev'. by replace (lo + (hi - lo)) with hi by lia.
  - intros j acc' ev' Hj. apply Hbody. lia.
Qed.

Lemma wp_for (I : nat -> list R -> Prop) lo hi (body : nat -> M unit) ev :
  lo <= hi ->
  I lo ev ->
  (forall j ev, lo <= j < hi -> I j ev -> wp (body j) (fun _ ev' => I (S j) ev') ev) ->
  wp (for_ lo hi body) (fun _ ev' => I hi ev') ev.
Proof.
  intros Hle HI Hbody. unfold for_.
  apply (wp_for_acc (fun j _ ev => I j ev)); [done | done |].
  intros j [] ev' Hj HIj. by apply Hbody.
Qed.

(** ** Blocks of the output array *)

Lemma block_index_inj s i j k k' :
  k < s -> k' < s -> s * i + k = s * j + k' -> i = j /\ k = k'.
Proof. intros Hk Hk' Heq. assert (i = j) by nia. subst. lia. Qed.

Lemma lookup_stored (ev : list R) p x q :
  p < length ev ->
  <[p:=x]> ev !! q = if decide (p = q) then Some x else ev !! q.
Proof.
  intros Hp. destruct (decide (p = q)) as [->|Hne].
  - by apply list_lookup_insert_eq.
  - by apply list_lookup_insert_ne.
Qed.

Lemma wb_ext m p s f g :
  (forall k, k < s -> f k = g k) -> writes_block m p s f -> writes_block m p s g.
Proof.
  intros Hfg Hm ev Hlen. eapply wp_mono; [|by apply Hm].
  intros _ ev' (Hl & Hv & Hfr). split_and!; [done| |done].
  intros k Hk. rewrite <- Hfg by done. by apply Hv.
Qed.

Lemma wb_store p x : writes_block (store p x) p 1 (fun _ => x).
Proof.
  intros ev Hlen. apply wp_store; [lia|].
  split_and!.
  - by rewrite length_insert.
  - intros k Hk. replace (p + k) with p by lia.
    apply list_lookup_insert_eq. lia.
  - intros q Hq. apply list_lookup_insert_ne. lia.
Qed.

Lemma wb_fetch {T} (l : list T) i x (k : T -> M unit) p s f :
  l !! i = Some x -> writes_block (k x) p s f ->
  writes_block (bind (fetch l i) k) p s f.
Proof.
  intros Hx Hk ev Hlen. apply wp_bind, (wp_fetch _ _ x); [done|]. by apply Hk.
Qed.

Lemma wb_seq m1 m2 p s1 s2 f1 f2 :
  writes_block m1 p s1 f1 -> writes_block m2 (p + s1) s2 f2 ->
  writes_block (bind m1 (fun _ => m2)) p (s1 + s2)
    (fun k => if decide (k < s1) then f1 k else f2 (k - s1)).
Proof.
  intros H1 H2 ev Hlen. apply wp_bind.
  eapply wp_mono; [|apply H1; lia].
  intros _ ev1 (Hl1 & Hv1 & Hfr1). simpl.
  eapply wp_mono; [|apply H2; lia].
  intros _ ev2 (Hl2 & Hv2 & Hfr2). simpl. split_and!.
  - congruence.
  - intros k Hk. destruct (decide (k < s1)) as [Hlt|Hge].
    + rewrite Hfr2 by lia. by apply Hv1.
    + replace (p + k) with (p + s1 + (k - s1)) by lia. apply Hv2. lia.
  - intros q Hq. rewrite Hfr2 by lia. apply Hfr1. lia.
Qed.

(** A loop whose iteration [i] writes the block [a i]: every block holds
    its values on exit provided two iterations that meet on a position
    write the same value there. *)
Lemma for_blocks n (body : nat -> M unit) (a : nat -> nat) s (v : nat -> nat -> R) ev :
  (forall i, i < n -> a i + s <= length ev) ->
  (forall i, i < n -> writes_block (body i) (a i) s (v i)) ->
  (forall i j k k', i < n -> j < n -> k < s -> k' < s ->
     a i + k = a j + k' -> v i k = v j k') ->
  wp (for_ 0 n body) (fun _ ev' =>
    length ev' = length ev /\
    (forall i k, i < n -> k < s -> ev' !! (a i + k) = Some (v i k)) /\
    (forall q, (forall i, i < n -> ~ (a i <= q < a i + s)) -> ev' !! q = ev !! q)) ev.
Proof.
  intros Hin Hbody Hcoh.
  apply (wp_for (fun m ev' =>
    length ev' = length ev /\
    (forall i k, i < m -> k < s -> ev' !! (a i + k) = Some (v i k)) /\
    (forall q, (forall i, i < m -> ~ (a i <= q < a i + s)) -> ev' !! q = ev !! q)));
    [lia | | ].
  - split_and!; [done | intros; lia | done].
  - intros j ev1 Hj (Hl1 & Hv1 & Hfr1).
    eapply wp_mono; [|apply Hbody; [lia | rewrite Hl1; apply Hin; lia]].
    intros _ ev2 (Hl2 & Hv2 & Hfr2). simpl. split_and!.
    + congruence.
    + intros i k Hi Hk.
      destruct (decide (a j <= a i + k < a j + s)) as [Hinb|Hout].
      * replace (a i + k) with (a j + (a i + k - a j)) by lia.
        rewrite Hv2 by lia. f_equal. symmetry. apply Hcoh; lia.
      * rewrite Hfr2 by done. apply Hv1; [|done].
        destruct (decide (i = j)) as [->|]; [lia | lia].
    + intros q Hq. rewrite Hfr2 by (apply Hq; lia). apply Hfr1.
      intros i Hi. apply Hq. lia.
Qed.

(** A loop that fills one block position by position. *)
Lemma wb_for s (body : nat -> M unit) p (f : nat -> R) :
  (forall k, k < s -> writes_block (body k) (p + k) 1 (fun _ => f k)) ->
  writes_block (for_ 0 s body) p s f.
Proof.
  intros Hbody ev Hlen.
  eapply wp_mono;
    [|apply (for_blocks s body (fun k => p + k) 1 (fun k _ => f k))].
  - intros _ ev' (Hl & Hv & Hfr). split_and!; [done | |].
    + intros k Hk. specialize (Hv k 0 Hk). rewrite Nat.add_0_r in Hv. apply Hv. lia.
    + intros q Hq. apply Hfr. intros i Hi. lia.
  - intros; lia.
  - done.
  - intros i j k k' Hi Hj Hk Hk' Heq. f_equal. lia.
Qed.

(** A loop that fills [n] consecutive blocks of [w] reals. *)
Lemma wb_for_blocks n w (body : nat -> M unit) p (f : nat -> nat -> R) :
  (forall i, i < n -> writes_block (body i) (p + w * i) w (f i)) ->
  writes_block (for_ 0 n body) p (w * n)
    (fun q => f (q / w) (q mod w)).
Proof.
  intros Hbody ev Hlen.
  eapply wp_mono;
    [|apply (for_blocks n body (fun i => p + w * i) w f)].
  - intros _ ev' (Hl & Hv & Hfr). split_and!; [done | |].
    + intros q Hq. assert (0 < w) by nia.
      pose proof (Nat.div_mod_eq q w) as Hdm.
      pose proof (Nat.mod_upper_bound q w ltac:(lia)) as Hmod.
      assert (q / w < n) by (apply Nat.Div0.div_lt_upper_bound; lia).
      replace (p + q) with (p + w * (q / w) + q mod w) by lia.
      by apply Hv.
    + intros q Hq. apply Hfr. intros i Hi. nia.
  - intros; nia.
  - done.
  - intros i j k k' Hi Hj Hk Hk' Heq.
    destruct (block_index_inj w i j k k') as [-> ->]; [done | done | lia | done].
Qed.

Lemma wb_at m p p' s f : p = p' -> writes_block m p' s f -> writes_block m p s f.
Proof. by intros ->. Qed.

Lemma wb_cons m1 m2 p x s f :
  writes_block m1 p 1 (fun _ => x) -> writes_block m2 (p + 1) s f ->
  writes_block (bind m1 (fun _ => m2)) p (S s)
    (fun k => match k with 0 => x | S k' => f k' end).
Proof.
  intros H1 H2. eapply wb_ext; [|apply (wb_seq _ _ _ 1 s _ _ H1 H2)].
  intros k Hk. simpl. destruct k as [|k]; simpl; [done|].
  by rewrite Nat.sub_0_r.
Qed.

Lemma wb_store3 p v : writes_block (store3 p v) p 3 (comp v).
Proof.
  unfold store3. eapply wb_ext.
  2: { eapply wb_cons; [apply wb_store|].
       eapply wb_cons; [apply wb_store|].
       eapply wb_at; [|apply wb_store]. lia. }
  intros k Hk. destruct v as [[x y] z].
  destruct k as [|[|[|k]]]; simpl; first [done | lia].
Qed.

Lemma lookup_nth (l : list R) i : i < length l -> l !! i = Some (nth i l 0%R).
Proof.
  intros Hi. destruct (lookup_lt_is_Some_2 l i Hi) as [x Hx].
  rewrite Hx. f_equal. symmetry. by apply nth_lookup_Some.
Qed.

(** ** Compacted and indirect outputs of the bulk evaluators *)

(** Two loops on the selected elements, one writing the block [i] and the
    other the block [elt_ids[i]] with the values of the element
    [elt_ids[i]], return outputs that hold the same values. *)
Lemma same_values_loops s n (elt_ids : list cs_lnum_t) (val : nat -> nat -> R)
    (bodyc bodyn : nat -> M unit) evc evn :
  n <= length elt_ids ->
  s * n <= length evc ->
  (forall i id, i < n -> elt_ids !! i = Some id -> s * id + s <= length evn) ->
  (forall i id, i < n -> elt_ids !! i = Some id ->
     writes_block (bodyc i) (s * i) s (val id)) ->
  (forall i id, i < n -> elt_ids !! i = Some id ->
     writes_block (bodyn i) (s * id) s (val id)) ->
  exists outc outn,
    for_ 0 n bodyc evc = Returns tt outc /\
    for_ 0 n bodyn evn = Returns tt outn /\
    same_values s n elt_ids outc outn.
Proof.
  intros Hn Hevc Hevn Hc Hnc.
  assert (Hid : forall i, i < n -> elt_ids !! i = Some (nth i elt_ids 0)).
  { intros i Hi. destruct (lookup_lt_is_Some_2 elt_ids i) as [x Hx]; [lia|].
    rewrite Hx. f_equal. symmetry. by apply nth_lookup_Some. }
  pose proof (for_blocks n bodyc (fun i => s * i) s
                (fun i => val (nth i elt_ids 0)) evc) as Wc.
  pose proof (for_blocks n bodyn (fun i => s * nth i elt_ids 0) s
                (fun i => val (nth i elt_ids 0)) evn) as Wn.
  apply wp_returns in Wc as ([] & outc & Hrc & _ & Hvc & _).
  2: { intros; nia. }
  2: { intros i Hi. apply Hc; auto. }
  2: { intros i j k k' Hi Hj Hk Hk' Heq.
       destruct (block_index_inj s i j k k') as [-> ->]; done. }
  apply wp_returns in Wn as ([] & outn & Hrn & _ & Hvn & _).
  2: { intros i Hi. apply (Hevn i); auto. }
  2: { intros i Hi. apply Hnc; auto. }
  2: { intros i j k k' Hi Hj Hk Hk' Heq.
       destruct (block_index_inj s _ _ k k' Hk Hk' Heq) as [-> ->]. done. }
  exists outc, outn. split_and!; [done | done |].
  intros i id k Hi Hid' Hk. exists (val id k).
  rewrite Hid in Hid' by done. injection Hid' as <-.
  split; [by apply Hvc | by apply Hvn].
Qed.

Section CompactLayout.

Context `{Collaborators}.

Variables (n : nat) (elt_ids : list cs_lnum_t) (evc evn : list R).

Hypothesis Hn : n <= length elt_ids.

Lemma scalar_by_val_layout (c : list R) :
  1 <= length c ->
  1 * n <= length evc ->
  (forall i id, i < n -> elt_ids !! i = Some id -> 1 * id + 1 <= length evn) ->
  exists outc outn,
    cs_xdef_eval_scalar_by_val n (Some elt_ids) true c evc = Returns tt outc /\
    cs_xdef_eval_scalar_by_val n (Some elt_ids) false c evn = Returns tt outn /\
    same_values 1 n elt_ids outc outn.
Proof using Hn.
  intros Hc Hevc Hevn. destruct c as [|c0 c]; simpl in Hc; [lia|].
  apply (same_values_loops 1 n elt_ids (fun _ _ => c0)); [done | done | done | |].
  - intros i id Hi Hid. eapply wb_fetch; [done|].
    eapply wb_at; [|apply wb_store]. lia.
  - intros i id Hi Hid. eapply wb_fetch; [exact Hid|]. eapply wb_fetch; [done|].
    eapply wb_at; [|apply wb_store]. lia.
Qed.

Lemma vector_by_val_layout (c : list R) :
  3 <= length c ->
  3 * n <= length evc ->
  (forall i id, i < n -> elt_ids !! i = Some id -> 3 * id + 3 <= length evn) ->
  exists outc outn,
    cs_xdef_eval_vector_by_val n (Some elt_ids) true c evc = Returns tt outc /\
    cs_xdef_eval_vector_by_val n (Some elt_ids) false c evn = Returns tt outn /\
    same_values 3 n elt_ids outc outn.
Proof using Hn.
  intros Hc Hevc Hevn. destruct c as [|c0 [|c1 [|c2 c]]]; simpl in Hc; try lia.
  assert (Hblock : forall p,
    writes_block
      (c0' <- fetch (c0 :: c1 :: c2 :: c) 0 ;; store p c0' ;;;
       c1' <- fetch (c0 :: c1 :: c2 :: c) 1 ;; store (p + 1) c1' ;;;
       c2' <- fetch (c0 :: c1 :: c2 :: c) 2 ;; store (p + 2) c2')
      p 3 (comp (c0, c1, c2))).
  { intros p. eapply wb_ext.
    2: { eapply wb_fetch; [done|]. eapply wb_cons; [apply wb_store|].
         eapply wb_fetch; [done|]. eapply wb_cons; [apply wb_store|].
         eapply wb_fetch; [done|]. eapply wb_at; [|apply wb_store]. lia. }
    intros k Hk. destruct k as [|[|[|k]]]; simpl; first [done | lia]. }
  apply (same_values_loops 3 n elt_ids (fun _ => comp (c0, c1, c2)));
    [done | done | done | |].
  - intros i id Hi Hid. apply Hblock.
  - intros i id Hi Hid. eapply wb_fetch; [exact Hid|]. apply Hblock.
Qed.

Lemma tensor_by_val_layout (c : list R) :
  9 <= length c ->
  9 * n <= length evc ->
  (forall i id, i < n -> elt_ids !! i = Some id -> 9 * id + 9 <= length evn) ->
  exists outc outn,
    cs_xdef_eval_tensor_by_val n (Some elt_ids) true c evc = Returns tt outc /\
    cs_xdef_eval_tensor_by_val n (Some elt_ids) false c evn = Returns tt outn /\
    same_values 9 n elt_ids outc outn.
Proof using Hn.
  intros Hc Hevc Hevn.
  assert (Hblock : forall p,
    writes_block
      (for_ 0 3 (fun ki => for_ 0 3 (fun kj =>
         x <- fetch c (3 * ki + kj) ;; store (p + (3 * ki + kj)) x)))
      p 9 (fun q => nth (3 * (q / 3) + q mod 3) c 0%R)).
  { intros p.
    apply (wb_for_blocks 3 3 _ p (fun ki kj => nth (3 * ki + kj) c 0%R)).
    intros ki Hki. apply wb_for. intros kj Hkj.
    eapply wb_fetch; [apply lookup_nth; lia|].
    eapply wb_at; [|apply wb_store]. lia. }
  apply (same_values_loops 9 n elt_ids
           (fun _ q => nth (3 * (q / 3) + q mod 3) c 0%R));
    [done | done | done | |].
  - intros i id Hi Hid. apply Hblock.
  - intros i id Hi Hid. eapply wb_fetch; [exact Hid|]. apply Hblock.
Qed.

Lemma scalar_at_cells_by_array_layout connect quant (input : cs_xdef_array_input_t) :
  stride input = 1 ->
  cs_flag_test (loc input) cs_flag_primal_cell = true \/
  cs_flag_test (loc input) cs_flag_primal_vtx = true ->
  (forall i id, i < n -> elt_ids !! i = Some id ->
     cs_flag_test (loc input) cs_flag_primal_cell = true -> id < length (values input)) ->
  1 * n <= length evc ->
  (forall i id, i < n -> elt_ids !! i = Some id -> 1 * id + 1 <= length evn) ->
  exists outc outn,
    cs_xdef_eval_scalar_at_cells_by_array n (Some elt_ids) true connect quant input evc
      = Returns tt outc /\
    cs_xdef_eval_scalar_at_cells_by_array n (Some elt_ids) false connect quant input evn
      = Returns tt outn /\
    same_values 1 n elt_ids outc outn.
Proof using Hn.
  intros Hs Hloc Hrd Hevc Hevn.
  unfold cs_xdef_eval_scalar_at_cells_by_array, cs_flag_test in *.
  rewrite Hs. unfold bind at 1 3. simpl.
  destruct (N.land (loc input) cs_flag_primal_cell =? cs_flag_primal_cell)%N eqn:Hcell.
  - apply (same_values_loops 1 n elt_ids (fun id _ => nth id (values input) 0%R));
      [done | done | done | |].
    + intros i id Hi Hid. eapply wb_fetch; [exact Hid|].
      eapply wb_fetch; [apply lookup_nth; eauto|].
      eapply wb_at; [|apply wb_store]. lia.
    + intros i id Hi Hid. eapply wb_fetch; [exact Hid|].
      eapply wb_fetch; [apply lookup_nth; eauto|].
      eapply wb_at; [|apply wb_store]. lia.
  - destruct Hloc as [?|Hvtx]; [done|]. rewrite Hvtx.
    apply (same_values_loops 1 n elt_ids (fun id _ =>
             cs_reco_pv_at_cell_center id (c2v connect) quant (values input)));
      [done | done | done | |].
    + intros i id Hi Hid. eapply wb_fetch; [exact Hid|].
      eapply wb_at; [|apply wb_store]. lia.
    + intros i id Hi Hid. eapply wb_fetch; [exact Hid|].
      eapply wb_at; [|apply wb_store]. lia.
Qed.

Lemma nd_at_cells_by_array_layout connect quant (input : cs_xdef_array_input_t) :
  1 < stride input ->
  cs_flag_test (loc input) cs_flag_primal_cell = true \/
  (cs_flag_test (loc input) cs_flag_dual_face_byc = true /\
   stride input = 3 /\ index input = Some (idx (c2e connect))) ->
  (forall i id, i < n -> elt_ids !! i = Some id ->
     cs_flag_test (loc input) cs_flag_primal_cell = true ->
     stride input * id + stride input <= length (values input)) ->
  stride input * n <= length evc ->
  (forall i id, i < n -> elt_ids !! i = Some id ->
     stride input * id + stride input <= length evn) ->
  exists outc outn,
    cs_xdef_eval_nd_at_cells_by_array n (Some elt_ids) true connect quant input evc
      = Returns tt outc /\
    cs_xdef_eval_nd_at_cells_by_array n (Some elt_ids) false connect quant input evn
      = Returns tt outn /\
    same_values (stride input) n elt_ids outc outn.
Proof using Hn.
  intros Hs Hloc Hrd Hevc Hevn.
  unfold cs_xdef_eval_nd_at_cells_by_array.
  assert (Hs' : (1 <? stride input) = true) by by apply Nat.ltb_lt.
  rewrite Hs'. unfold bind at 1 3. simpl.
  destruct (cs_flag_test (loc input) cs_flag_primal_cell) eqn:Hcell.
  - apply (same_values_loops (stride input) n elt_ids
             (fun id k => nth (stride input * id + k) (values input) 0%R));
      [done | done | done | |].
    + intros i id Hi Hid. eapply wb_fetch; [exact Hid|].
      apply wb_for. intros k Hk.
      eapply wb_fetch; [apply lookup_nth; specialize (Hrd i id Hi Hid eq_refl); lia|].
      apply wb_store.
    + intros i id Hi Hid. eapply wb_fetch; [exact Hid|].
      apply wb_for. intros k Hk.
      eapply wb_fetch; [apply lookup_nth; specialize (Hrd i id Hi Hid eq_refl); lia|].
      apply wb_store.
  - destruct Hloc as [?|(Hdual & Hs3 & Hidx)]; [done|]. rewrite Hdual, Hs3, Hidx.
    rewrite bool_decide_eq_true_2 by done. unfold bind at 1 2 6 7. simpl.
    rewrite Hs3 in Hevc, Hevn.
    apply (same_values_loops 3 n elt_ids (fun id =>
             comp (cs_reco_dfbyc_at_cell_center id (c2e connect) quant (values input))));
      [done | done | done | |].
    + intros i id Hi Hid. eapply wb_fetch; [exact Hid|].
      eapply wb_at; [|apply wb_store3]. lia.
    + intros i id Hi Hid. eapply wb_fetch; [exact Hid|].
      eapply wb_at; [|apply wb_store3]. lia.
Qed.

End CompactLayout.

(** C1. For every bulk evaluator by value (scalar, vector, tensor) and at
    cells by array (scalar and n-dimensional), the evaluation with
    [compact = true] and the evaluation with [compact = false] on the same
    list of element ids both return, and for every index [i] into the list
    the compacted output holds at slot [i] (times the stride) the values the
    other output holds at slot [elt_ids[i]] (times the stride). *)
Theorem compact_and_indirect_outputs_agree `{Collaborators}
    (d : bulk_definition) (n : nat) (elt_ids : list cs_lnum_t) (evc evn : list R) :
  bulk_ready d ->
  n <= length elt_ids ->
  bulk_stride d * n <= length evc ->
  (forall i id, i < n -> elt_ids !! i = Some id ->
     bulk_readable d id /\ bulk_stride d * id + bulk_stride d <= length evn) ->
  exists outc outn,
    bulk_eval d n (Some elt_ids) true evc = Returns tt outc /\
    bulk_eval d n (Some elt_ids) false evn = Returns tt outn /\
    same_values (bulk_stride d) n elt_ids outc outn.
Proof.
  intros Hready Hn Hevc Hsel.
  assert (Hevn : forall i id, i < n -> elt_ids !! i = Some id ->
            bulk_stride d * id + bulk_stride d <= length evn)
    by (intros i id Hi Hid; by apply (Hsel i id)).
  destruct d as [c|c|c|connect quant input|connect quant input];
    cbn [bulk_ready bulk_stride bulk_eval bulk_readable] in *.
  - by apply scalar_by_val_layout.
  - by apply vector_by_val_layout.
  - by apply tensor_by_val_layout.
  - destruct Hready as [Hs Hloc].
    apply scalar_at_cells_by_array_layout; try done.
    intros i id Hi Hid Hcell. destruct (Hsel i id Hi Hid) as [Hrd _].
    specialize (Hrd Hcell). rewrite Hs in Hrd. lia.
  - destruct Hready as [Hs Hloc].
    apply nd_at_cells_by_array_layout; try done.
    intros i id Hi Hid Hcell. by destruct (Hsel i id Hi Hid) as [Hrd _]; auto.
Qed.

(** The theorem for the array of ten cell values sampled at the cells 2, 5
    and 7. *)
Lemma compact_and_indirect_outputs_agree_witness :
  exists outc outn,
    @bulk_eval sample (ScalarAtCellsByArray no_connect ten_cells ten_values)
      3 (Some cells_2_5_7) true [0; 0; 0]%R = Returns tt outc /\
    @bulk_eval sample (ScalarAtCellsByArray no_connect ten_cells ten_values)
      3 (Some cells_2_5_7) false (replicate 10 0%R) = Returns tt outn /\
    same_values 1 3 cells_2_5_7 outc outn.
Proof.
  apply (@compact_and_indirect_outputs_agree sample
           (ScalarAtCellsByArray no_connect ten_cells ten_values)
           3 cells_2_5_7 [0; 0; 0]%R (replicate 10 0%R)).
  - split; [reflexivity | left; reflexivity].
  - simpl. lia.
  - simpl. lia.
  - intros i id Hi Hid.
    destruct i as [|[|[|i]]]; [| | | lia]; injection Hid as <-; simpl; lia.
Defined.

(** ** Sums of arrays *)

Lemma Rsum_app (l1 l2 : list R) : Rsum (l1 ++ l2) = (Rsum l1 + Rsum l2)%R.
Proof. induction l1 as [|x l1 IH]; simpl; [lra | rewrite IH; lra]. Qed.

Lemma Rsum_add (l : list R) i y x :
  l !! i = Some y -> Rsum (<[i:=(y + x)%R]> l) = (Rsum l + x)%R.
Proof.
  revert i. induction l as [|z l IH]; intros [|i] Hi; simpl in *; try done.
  - injection Hi as ->. lra.
  - rewrite (IH i Hi). lra.
Qed.

Lemma Rsum_range_empty f lo : Rsum_range f lo lo = 0%R.
Proof. unfold Rsum_range. by rewrite Nat.sub_diag. Qed.

Lemma Rsum_range_snoc f lo j :
  lo <= j -> Rsum_range f lo (S j) = (Rsum_range f lo j + f j)%R.
Proof.
  intros Hle. unfold Rsum_range.
  replace (S j - lo) with ((j - lo) + 1) by lia.
  rewrite seq_app, map_app, Rsum_app. simpl.
  replace (lo + (j - lo)) with j by lia. lra.
Qed.

(** ** Flux through a face and its vertex portions *)

Section FluxSplitting.

Context `{Collaborators}.

(** One iteration of the loops on face edges of
    [cs_xdef_eval_cw_at_vtx_flux_by_val]: both ends of the edge receive
    [_flx], whatever else the array holds. *)
Lemma wp_add_at_both_ends (e2v : list nat) e v1 v2 _flx ev
    (Q : unit -> list R -> Prop) :
  e2v !! (2 * e) = Some v1 -> e2v !! (2 * e + 1) = Some v2 ->
  v1 < length ev -> v2 < length ev ->
  (forall ev', length ev' = length ev ->
     Rsum ev' = (Rsum ev + (_flx + _flx))%R ->
     (forall v, v <> v1 -> v <> v2 -> ev' !! v = ev !! v) ->
     Q tt ev') ->
  wp (v1 <- fetch e2v (2 * e) ;; add_to v1 _flx ;;;
      v2 <- fetch e2v (2 * e + 1) ;; add_to v2 _flx) Q ev.
Proof.
  intros Hv1 Hv2 Hl1 Hl2 HQ.
  destruct (lookup_lt_is_Some_2 ev v1 Hl1) as [y1 Hy1].
  apply wp_bind, (wp_fetch _ _ v1); [done|].
  apply wp_bind, (wp_add_to _ _ y1); [done|].
  set (ev1 := <[v1:=(y1 + _flx)%R]> ev).
  assert (Hlen1 : length ev1 = length ev) by apply length_insert.
  destruct (lookup_lt_is_Some_2 ev1 v2 ltac:(lia)) as [y2 Hy2].
  apply wp_bind, (wp_fetch _ _ v2); [done|].
  apply (wp_add_to _ _ y2); [done|].
  apply HQ.
  - by rewrite length_insert.
  - rewrite (Rsum_add _ _ _ _ Hy2). unfold ev1. rewrite (Rsum_add _ _ _ _ Hy1). lra.
  - intros v Hn1 Hn2. rewrite list_lookup_insert_ne by done.
    unfold ev1. by rewrite list_lookup_insert_ne.
Qed.

(** C2. For a face [f] whose edges, vertices and triangle areas are
    available, and a constant vector flux: the contributions
    [cs_xdef_eval_cw_at_vtx_flux_by_val] adds to the vertices (none to a
    vertex off the face) sum to the value [cs_xdef_eval_cw_flux_by_val]
    stores for the face, the face area times the dot product of the flux
    with the unit normal, provided the triangle areas of the edges of the
    face sum to the face area. *)
Theorem vertex_portions_sum_to_face_flux
    (cm : cs_cell_mesh_t) (f : nat) (flux : cs_real_3_t)
    (lo hi : nat) (fq : cs_quant_t) (ev evf : list R) :
  cs_flag_test (flag cm) (N.lor CS_CDO_LOCAL_EV CS_CDO_LOCAL_FE) = true ->
  face_edges cm f (length ev) lo hi fq ->
  Rsum_range (fun i => default 0%R (edge_triangle_area cm f i)) lo hi = meas fq ->
  f < length evf ->
  exists ev' evf',
    cs_xdef_eval_cw_at_vtx_flux_by_val cm f flux ev = Returns tt ev' /\
    cs_xdef_eval_cw_flux_by_val cm f flux evf = Returns tt evf' /\
    length ev' = length ev /\
    (forall v, off_face cm lo hi v -> ev' !! v = ev !! v) /\
    evf' !! f = Some (Rsum ev' - Rsum ev)%R /\
    (Rsum ev' - Rsum ev)%R = (meas fq * _dp3 flux (unitv fq))%R.
Proof.
  intros Hflag (Hlo & Hhi & Hle & Hfq & Hedges) Hareas Hf.
  set (area := fun i => default 0%R (edge_triangle_area cm f i)) in *.
  set (dn := _dp3 flux (unitv fq)).
  assert (Hvtx : wp (cs_xdef_eval_cw_at_vtx_flux_by_val cm f flux)
            (fun _ ev' =>
               length ev' = length ev /\
               (forall v, off_face cm lo hi v -> ev' !! v = ev !! v) /\
               (Rsum ev' - Rsum ev)%R = (Rsum_range area lo hi * dn)%R) ev).
  { unfold cs_xdef_eval_cw_at_vtx_flux_by_val.
    apply wp_bind, wp_assert; [done|].
    set (I := fun j (ev' : list R) =>
               length ev' = length ev /\
               (forall v, off_face cm lo hi v -> ev' !! v = ev !! v) /\
               (Rsum ev' - Rsum ev)%R = (Rsum_range area lo j * dn)%R).
    assert (HI0 : I lo ev).
    { unfold I. rewrite Rsum_range_empty. split_and!; [done | done | lra]. }
    assert (Hstep : forall j ev1 (a : R) (Q := fun (_ : unit) ev' => I (S j) ev'),
              lo <= j < hi -> I j ev1 -> edge_triangle_area cm f j = Some a ->
              forall e v1 v2,
                f2e_ids cm !! j = Some e ->
                e2v_ids cm !! (2 * e) = Some v1 -> e2v_ids cm !! (2 * e + 1) = Some v2 ->
                v1 < length ev -> v2 < length ev ->
                wp (v1 <- fetch (e2v_ids cm) (2 * e) ;;
                    add_to v1 (0.5 * a * dn)%R ;;;
                    v2 <- fetch (e2v_ids cm) (2 * e + 1) ;;
                    add_to v2 (0.5 * a * dn)%R) Q ev1).
    { intros j ev1 a Q Hj (Hl1 & Hfr1 & Hs1) Ha e v1 v2 He Hv1 Hv2 Hb1 Hb2.
      apply (wp_add_at_both_ends _ e v1 v2); [done | done | lia | lia |].
      intros ev2 Hl2 Hs2 Hfr2. unfold Q, I. split_and!.
      - congruence.
      - intros v Hoff. destruct (Hoff j e Hj He) as [Hn1 Hn2].
        rewrite Hfr2 by congruence. by apply Hfr1.
      - rewrite Rsum_range_snoc by lia. unfold area at 2. rewrite Ha. simpl.
        rewrite Hs2. lra. }
    destruct (cs_flag_test (flag cm) CS_CDO_LOCAL_FEQ) eqn:Hfeq.
    - apply wp_bind, (wp_fetch _ _ lo); [done|].
      apply wp_bind, (wp_fetch _ _ hi); [done|].
      apply (wp_for I); [done | done |].
      intros j ev1 Hj HIj.
      destruct (Hedges j Hj) as (e & v1 & v2 & He & Hv1 & Hv2 & Hb1 & Hb2 & [a Ha]).
      pose proof Ha as Ha'. unfold edge_triangle_area in Ha'. rewrite Hfeq in Ha'.
      apply wp_bind, (wp_fetch _ _ e); [done|].
      apply wp_bind, (wp_fetch _ _ a); [done|].
      apply wp_bind, (wp_fetch _ _ fq); [done|].
      by apply (Hstep j ev1 a Hj HIj Ha e v1 v2).
    - apply wp_bind, (wp_fetch _ _ lo); [done|].
      apply wp_bind, (wp_fetch _ _ hi); [done|].
      apply (wp_for I); [done | done |].
      intros j ev1 Hj HIj.
      destruct (Hedges j Hj) as (e & v1 & v2 & He & Hv1 & Hv2 & Hb1 & Hb2 & [a Ha]).
      pose proof Ha as Ha'. unfold edge_triangle_area in Ha'.
      rewrite Hfeq, He, Hfq in Ha'.
      destruct (edge cm !! e) as [pe|] eqn:Hpe; [|done]. injection Ha' as Ha'.
      apply wp_bind, (wp_fetch _ _ e); [done|].
      apply wp_bind, (wp_fetch _ _ pe); [done|].
      apply wp_bind, (wp_fetch _ _ fq); [done|].
      rewrite Ha'. by apply (Hstep j ev1 a Hj HIj Ha e v1 v2). }
  apply wp_returns in Hvtx as ([] & ev' & Hrun & Hlen & Hframe & Hsum).
  exists ev', (<[f:=(meas fq * _dp3 (unitv fq) flux)%R]> evf).
  assert (Hval : (Rsum ev' - Rsum ev)%R = (meas fq * _dp3 flux (unitv fq))%R).
  { rewrite Hsum, Hareas. done. }
  split_and!; [done | | done | done | | done].
  - unfold cs_xdef_eval_cw_flux_by_val, bind, fetch. rewrite Hfq. simpl.
    unfold store. by rewrite decide_True.
  - rewrite list_lookup_insert_eq by done. f_equal. rewrite Hval.
    unfold cs_math_3_dot_product. lra.
Qed.

End FluxSplitting.

(** The theorem on the unit square with the flux (1, 2, 3): the four
    vertices receive portions that sum to 3. *)
Lemma vertex_portions_sum_to_face_flux_witness :
  exists ev' evf',
    @cs_xdef_eval_cw_at_vtx_flux_by_val sample unit_square_cell 0 (1, 2, 3)%R
      [0; 0; 0; 0]%R = Returns tt ev' /\
    @cs_xdef_eval_cw_flux_by_val unit_square_cell 0 (1, 2, 3)%R [0%R] = Returns tt evf' /\
    length ev' = 4 /\
    (forall v, off_face unit_square_cell 0 4 v -> ev' !! v = [0; 0; 0; 0]%R !! v) /\
    evf' !! 0 = Some (Rsum ev' - Rsum [0; 0; 0; 0])%R /\
    (Rsum ev' - Rsum [0; 0; 0; 0])%R = (1 * _dp3 (1, 2, 3)%R (0, 0, 1)%R)%R.
Proof.
  apply (@vertex_portions_sum_to_face_flux sample unit_square_cell 0 (1, 2, 3)%R
           0 4 {| meas := 1%R; unitv := (0, 0, 1)%R; center := (0.5, 0.5, 0)%R |}
           [0; 0; 0; 0]%R [0%R]).
  - reflexivity.
  - split_and!; [reflexivity | reflexivity | lia | reflexivity |].
    intros i Hi.
    destruct i as [|[|[|[|i]]]]; [| | | | lia].
    + exists 0, 0, 1. split_and!; [reflexivity | reflexivity | reflexivity | simpl; lia | simpl; lia | by eexists].
    + exists 1, 1, 2. split_and!; [reflexivity | reflexivity | reflexivity | simpl; lia | simpl; lia | by eexists].
    + exists 2, 2, 3. split_and!; [reflexivity | reflexivity | reflexivity | simpl; lia | simpl; lia | by eexists].
    + exists 3, 3, 0. split_and!; [reflexivity | reflexivity | reflexivity | simpl; lia | simpl; lia | by eexists].
  - unfold Rsum_range. simpl. lra.
  - simpl. lia.
Defined.

(** ** Runs on concrete inputs *)

(** Evaluation of a run on concrete data: everything but the arithmetic of
    the reals is computed. *)
Ltac run := cbv -[Rplus Rminus Rmult Rdiv Rinv Ropp IZR].

(** C3. At the second of two points the cellwise point evaluators do not
    write the three components of the vector (1, 2, 3) at the slots 3, 4
    and 5: the third component goes to the slot 2*1+2 = 4, over the second
    one, and the slot 3*1+2 = 5 keeps its initial value.  This is the run of
    [cs_xdef_eval_cw_vector_at_xyz_by_val] and of the cell branch of
    [cs_xdef_eval_cw_3_at_xyz_by_array]. *)
Lemma third_component_written_at_2i_plus_2 :
  cs_xdef_eval_cw_vector_at_xyz_by_val 2 [1; 2; 3]%R (replicate 6 0%R)
    = Returns tt [1; 2; 3; 1; 3; 0]%R /\
  @cs_xdef_eval_cw_3_at_xyz_by_array sample unit_square_cell 2 one_cell_vector
    (replicate 6 0%R)
    = Returns tt [1; 2; 3; 1; 3; 0]%R.
Proof. split; reflexivity. Qed.

(** C4. For the face 1, the tensor 2*Id, the unit normal (0, 0, 1) and the
    area 3, [cs_xdef_eval_cw_tensor_flux_by_val] writes the product (0, 0, 2)
    at the slots 0..2 and multiplies the former contents (7, 8, 9) of the
    slots 3..5 by the area: the slots of the face hold (21, 24, 27) and not
    the flux (0, 0, 6). *)
Lemma tensor_flux_by_val_face_1 :
  exists x0 x1 x2 x3 x4 x5 : R,
    cs_xdef_eval_cw_tensor_flux_by_val two_faces_cell 1 twice_identity
      [0; 0; 0; 7; 8; 9]%R = Returns tt [x0; x1; x2; x3; x4; x5] /\
    (x0 = 0 /\ x1 = 0 /\ x2 = 2 /\ x3 = 21 /\ x4 = 24 /\ x5 = 27)%R.
Proof. do 6 eexists. split; [run; reflexivity | lra]. Qed.

(** The dense flag is not read when a list of element ids is given. *)
Lemma avg_at_b_faces_ignores_compact `{Collaborators}
    n_elts elt_ids connect quant ts input qtype dim :
  cs_xdef_eval_avg_at_b_faces_by_analytic n_elts elt_ids true connect quant ts
    input qtype dim
  = cs_xdef_eval_avg_at_b_faces_by_analytic n_elts elt_ids false connect quant ts
      input qtype dim.
Proof. reflexivity. Qed.

(** C5. With the list of element ids [1] and [compact = true], the average
    on the selected face (here 5, the function being constant) is written at
    the slot of the face id, [eval[dim*1]], and the slot [eval[dim*0]] of the
    dense layout keeps its initial value; on an output array that has the
    size of the selection the write is outside of the array. *)
Lemma avg_at_b_faces_writes_at_face_id :
  (exists x : R,
     @cs_xdef_eval_avg_at_b_faces_by_analytic sample 1 (Some [1]) true
       two_triangles_connect two_triangles time_zero constant_five
       CS_QUADRATURE_BARY 1 [0; 0]%R = Returns tt [0%R; x] /\ x = 5%R) /\
  @cs_xdef_eval_avg_at_b_faces_by_analytic sample 1 (Some [1]) true
    two_triangles_connect two_triangles time_zero constant_five
    CS_QUADRATURE_BARY 1 [0%R] = Undefined.
Proof.
  split; [|reflexivity].
  eexists. split; [run; reflexivity | lra].
Qed.

(** ** Fatal errors *)

(** C7. With the quadrature level [CS_QUADRATURE_HIGHEST] the three
    cellwise flux evaluators by analytic function (vertex portions, full
    face for a vector, full face for a tensor) stop on a fatal error and
    leave the output array as it was. *)
Theorem highest_quadrature_is_fatal `{Collaborators}
    (cm : cs_cell_mesh_t) (f : nat) (ts : cs_time_step_t)
    (vect : cs_analytic_vect_t) (tens : cs_analytic_tens_t) (ev : list R) :
  cs_xdef_eval_cw_at_vtx_flux_by_analytic cm f ts vect CS_QUADRATURE_HIGHEST ev
    = Aborts " Invalid type of quadrature." ev /\
  cs_xdef_eval_cw_flux_by_analytic cm f ts vect CS_QUADRATURE_HIGHEST ev
    = Aborts " Invalid type of quadrature." ev /\
  cs_xdef_eval_cw_tensor_flux_by_analytic cm f ts tens CS_QUADRATURE_HIGHEST ev
    = Aborts " Invalid type of quadrature." ev.
Proof. split_and!; reflexivity. Qed.

(** C8. An array whose support is not the vertices makes
    [cs_xdef_eval_at_vertices_by_array] stop on a fatal error, and an array
    of stride 1 whose support is neither the cells nor the vertices does the
    same to [cs_xdef_eval_scalar_at_cells_by_array]; the output array is
    left as it was.  The message names the function and says that the
    support of the input array is invalid: it is one text per function,
    the same for every unhandled support, which it does not name. *)
Theorem unhandled_support_is_fatal `{Collaborators}
    (n_elts : cs_lnum_t) (elt_ids : option (list cs_lnum_t)) (compact : bool)
    (connect : cs_cdo_connect_t) (quant : cs_cdo_quantities_t)
    (input : cs_xdef_array_input_t) (ev : list R) :
  cs_flag_test (loc input) cs_flag_primal_vtx = false ->
  cs_xdef_eval_at_vertices_by_array n_elts elt_ids compact input ev
    = Aborts " cs_xdef_eval_at_vertices_by_array: Invalid support for the input array" ev /\
  (stride input = 1 ->
   cs_flag_test (loc input) cs_flag_primal_cell = false ->
   cs_xdef_eval_scalar_at_cells_by_array n_elts elt_ids compact connect quant input ev
     = Aborts " cs_xdef_eval_scalar_at_cells_by_array: Invalid support for the input array" ev).
Proof.
  intros Hvtx. split.
  - unfold cs_xdef_eval_at_vertices_by_array. by rewrite Hvtx.
  - intros Hs Hcell. unfold cs_xdef_eval_scalar_at_cells_by_array.
    unfold cs_flag_test in Hvtx, Hcell. rewrite Hs. unfold bind. simpl.
    by rewrite Hcell, Hvtx.
Qed.

Lemma unhandled_support_is_fatal_witness :
  @cs_xdef_eval_at_vertices_by_array sample 3 None false dual_face_scalars [0; 0; 0]%R
    = Aborts " cs_xdef_eval_at_vertices_by_array: Invalid support for the input array"
        [0; 0; 0]%R /\
  @cs_xdef_eval_scalar_at_cells_by_array sample 3 None false no_connect ten_cells
    dual_face_scalars [0; 0; 0]%R
    = Aborts " cs_xdef_eval_scalar_at_cells_by_array: Invalid support for the input array"
        [0; 0; 0]%R.
Proof.
  destruct (@unhandled_support_is_fatal sample 3 None false no_connect ten_cells
              dual_face_scalars [0; 0; 0]%R) as [Hvtx Hcells].
  - reflexivity.
  - split; [exact Hvtx | apply Hcells; reflexivity].
Defined.

(** The message does not name the support (C8): an array on the dual faces
    by cell and an array on the primal faces, two different supports that
    neither evaluator handles, get the same message from
    [cs_xdef_eval_at_vertices_by_array], and the same message from
    [cs_xdef_eval_scalar_at_cells_by_array]. *)
Lemma unhandled_support_is_not_named :
  loc dual_face_scalars <> loc primal_face_scalars /\
  (exists msg,
     @cs_xdef_eval_at_vertices_by_array sample 3 None false dual_face_scalars [0; 0; 0]%R
       = Aborts msg [0; 0; 0]%R /\
     @cs_xdef_eval_at_vertices_by_array sample 3 None false primal_face_scalars [0; 0; 0]%R
       = Aborts msg [0; 0; 0]%R) /\
  (exists msg,
     @cs_xdef_eval_scalar_at_cells_by_array sample 3 None false no_connect ten_cells
       dual_face_scalars [0; 0; 0]%R = Aborts msg [0; 0; 0]%R /\
     @cs_xdef_eval_scalar_at_cells_by_array sample 3 None false no_connect ten_cells
       primal_face_scalars [0; 0; 0]%R = Aborts msg [0; 0; 0]%R).
Proof.
  split_and!.
  - discriminate.
  - eexists. split; reflexivity.
  - eexists. split; reflexivity.
Qed.

(** C10. [cs_xdef_eval_3_at_all_vertices_by_array] called with a list of
    element ids, or with fewer elements than the mesh has vertices, stops on
    a fatal error and leaves the output array as it was. *)
Theorem partial_vertex_query_is_fatal `{Collaborators}
    (n_elts : cs_lnum_t) (elt_ids : option (list cs_lnum_t)) (compact : bool)
    (connect : cs_cdo_connect_t) (quant : cs_cdo_quantities_t)
    (input : cs_xdef_array_input_t) (ev : list R) :
  elt_ids <> None \/ n_elts < n_vertices quant ->
  cs_xdef_eval_3_at_all_vertices_by_array n_elts elt_ids compact connect quant input ev
    = Aborts (in_func "cs_xdef_eval_3_at_all_vertices_by_array" ("Invalid case" ++ newline)) ev.
Proof.
  intros Hcase. unfold cs_xdef_eval_3_at_all_vertices_by_array.
  assert (Hb : bool_decide (elt_ids <> None) || (n_elts <? n_vertices quant) = true).
  { destruct Hcase as [Hids|Hn].
    - by rewrite bool_decide_eq_true_2.
    - apply orb_true_iff. right. by apply Nat.ltb_lt. }
  unfold bind. by rewrite Hb.
Qed.

Lemma partial_vertex_query_is_fatal_witness :
  @cs_xdef_eval_3_at_all_vertices_by_array sample 2 (Some [0; 2]) true
    no_connect two_triangles one_cell_vector (replicate 9 0%R)
    = Aborts (in_func "cs_xdef_eval_3_at_all_vertices_by_array" ("Invalid case" ++ newline))
        (replicate 9 0%R).
Proof.
  apply (@partial_vertex_query_is_fatal sample 2 (Some [0; 2]) true
           no_connect two_triangles one_cell_vector (replicate 9 0%R)).
  left. discriminate.
Defined.

(** ** Accumulation in the output array *)

Lemma Rsum_range_ext f g lo hi :
  (forall j, lo <= j < hi -> f j = g j) -> Rsum_range f lo hi = Rsum_range g lo hi.
Proof.
  intros Hfg. unfold Rsum_range. f_equal. apply map_ext_in.
  intros j Hj. apply in_seq in Hj. apply Hfg. lia.
Qed.

Lemma Rsum_range_zero lo hi : Rsum_range (fun _ => 0%R) lo hi = 0%R.
Proof.
  unfold Rsum_range. induction (seq lo (hi - lo)) as [|j l IH]; simpl; [done|].
  rewrite IH. lra.
Qed.

(** A sum whose terms vanish but at the index [q]. *)
Lemma Rsum_range_single (g : nat -> R) q n :
  Rsum_range (fun k => if decide (q = k) then g k else 0%R) 0 n
  = if decide (q < n) then g q else 0%R.
Proof.
  induction n as [|n IH].
  - by rewrite Rsum_range_empty.
  - rewrite Rsum_range_snoc, IH by lia.
    destruct (decide (q = n)) as [->|Hne].
    + rewrite decide_False, decide_True by lia. lra.
    + destruct (decide (q < n)).
      * rewrite decide_True by lia. lra.
      * rewrite decide_False by lia. lra.
Qed.

Lemma acc_ext m b delta delta' :
  (forall q, delta q = delta' q) -> accumulates m b delta -> accumulates m b delta'.
Proof.
  intros Hd Hm ev Hlen. eapply wp_mono; [|by apply Hm].
  intros _ ev' [Hl Hv]. split; [done|]. intros q x Hq.
  rewrite <- Hd. by apply Hv.
Qed.

Lemma acc_add_to p t :
  accumulates (add_to p t) (S p) (fun q => if decide (p = q) then t else 0%R).
Proof.
  intros ev Hlen.
  destruct (lookup_lt_is_Some_2 ev p ltac:(lia)) as [y Hy].
  apply (wp_add_to _ _ y); [done|]. split; [by rewrite length_insert|].
  intros q x Hq. rewrite lookup_stored by lia.
  destruct (decide (p = q)) as [->|Hne].
  - rewrite Hy in Hq. by injection Hq as ->.
  - rewrite Hq. f_equal. lra.
Qed.

Lemma acc_assert b (m : M unit) bd delta :
  b = true -> accumulates m bd delta ->
  accumulates (bind (assert b) (fun _ => m)) bd delta.
Proof.
  intros Hb Hm ev Hlen. apply wp_bind, wp_assert; [done|]. by apply Hm.
Qed.

Lemma acc_fetch {T} (l : list T) i x (k : T -> M unit) b delta :
  l !! i = Some x -> accumulates (k x) b delta ->
  accumulates (bind (fetch l i) k) b delta.
Proof.
  intros Hx Hk ev Hlen. apply wp_bind, (wp_fetch _ _ x); [done|]. by apply Hk.
Qed.

(** A loop adds the sum of what its iterations add. *)
Lemma acc_for n (body : nat -> M unit) b (delta : nat -> nat -> R) :
  (forall j, j < n -> accumulates (body j) b (delta j)) ->
  accumulates (for_ 0 n body) b (fun q => Rsum_range (fun j => delta j q) 0 n).
Proof.
  intros Hbody ev Hlen.
  apply (wp_for (fun m ev' =>
    length ev' = length ev /\
    (forall q x, ev !! q = Some x ->
       ev' !! q = Some (x + Rsum_range (fun j => delta j q) 0 m)%R)));
    [lia | |].
  - split; [done|]. intros q x Hq. rewrite Rsum_range_empty, Hq. f_equal. lra.
  - intros j ev1 Hj [Hl1 Hv1].
    eapply wp_mono; [|apply Hbody; [lia | lia]].
    intros _ ev2 [Hl2 Hv2]. simpl. split; [congruence|].
    intros q x Hq. rewrite (Hv2 q _ (Hv1 q x Hq)).
    rewrite Rsum_range_snoc by lia. f_equal. lra.
Qed.

(** ** Interpolation from the vertices accumulates *)

Section InterpolationAccumulates.

Context `{Collaborators}.

Variables (cm : cs_cell_mesh_t) (s : nat) (vals : list R).

Hypothesis Hdata : vertex_data cm s vals.

(** The term the vertex [v] brings to the component [k]. *)
Let term (v k : nat) : R :=
  let w := nth v (wvc cm) 0%R in
  let x := nth (s * nth v (v_ids cm) 0 + k) vals 0%R in
  (w * x)%R.

(** The innermost statement of the three loops:
    [eval[k] += cm->wvc[v] * values[s*cm->v_ids[v] + k]]. *)
Lemma acc_vertex_term v k :
  v < n_vc cm -> k < s ->
  accumulates
    (w <- fetch (wvc cm) v ;;
     v_id <- fetch (v_ids cm) v ;;
     x <- fetch vals (s * v_id + k) ;;
     add_to k (w * x)%R)
    s (fun q => if decide (k = q) then term v k else 0%R).
Proof using Hdata.
  intros Hv Hk. destruct (Hdata v Hv) as (w & v_id & Hw & Hid & Hvals).
  eapply acc_fetch; [exact Hw|]. eapply acc_fetch; [exact Hid|].
  eapply acc_fetch; [apply lookup_nth; lia|].
  unfold term. rewrite (nth_lookup_Some _ _ 0%R _ Hw).
  replace (nth v (v_ids cm) 0) with v_id by (symmetry; by apply nth_lookup_Some).
  intros ev Hlen. by apply acc_add_to; lia.
Qed.

Lemma weighted_vertex_sum_eq k :
  weighted_vertex_sum cm s vals k = Rsum_range (fun v => term v k) 0 (n_vc cm).
Proof. reflexivity. Qed.

(** Loop on the vertices outside, loop on the components inside. *)
Lemma acc_vertices_then_components :
  accumulates
    (for_ 0 (n_vc cm) (fun v =>
       for_ 0 s (fun k =>
         w <- fetch (wvc cm) v ;;
         v_id <- fetch (v_ids cm) v ;;
         x <- fetch vals (s * v_id + k) ;;
         add_to k (w * x)%R)))
    s (fun q => if decide (q < s) then weighted_vertex_sum cm s vals q else 0%R).
Proof using Hdata.
  eapply acc_ext; [|apply acc_for; intros v Hv; apply acc_for; intros k Hk;
                    by apply acc_vertex_term].
  intros q. simpl. rewrite weighted_vertex_sum_eq.
  rewrite (Rsum_range_ext _ (fun v => if decide (q < s) then term v q else 0%R)).
  - destruct (decide (q < s)); [done | apply Rsum_range_zero].
  - intros v Hv.
    rewrite (Rsum_range_ext _ (fun k => if decide (q = k) then term v k else 0%R)).
    + apply (Rsum_range_single (fun k => term v k)).
    + intros k Hk. destruct (decide (k = q)) as [->|Hne].
      * by rewrite decide_True.
      * by rewrite !decide_False by congruence.
Qed.

(** Loop on the components outside, loop on the vertices inside. *)
Lemma acc_components_then_vertices :
  accumulates
    (for_ 0 s (fun k =>
       for_ 0 (n_vc cm) (fun v =>
         w <- fetch (wvc cm) v ;;
         v_id <- fetch (v_ids cm) v ;;
         x <- fetch vals (s * v_id + k) ;;
         add_to k (w * x)%R)))
    s (fun q => if decide (q < s) then weighted_vertex_sum cm s vals q else 0%R).
Proof using Hdata.
  eapply acc_ext; [|apply acc_for; intros k Hk; apply acc_for; intros v Hv;
                    by apply acc_vertex_term].
  intros q. simpl. rewrite weighted_vertex_sum_eq.
  rewrite (Rsum_range_ext _
             (fun k => if decide (q = k)
                       then Rsum_range (fun v => term v k) 0 (n_vc cm) else 0%R)).
  - apply (Rsum_range_single (fun k => Rsum_range (fun v => term v k) 0 (n_vc cm))).
  - intros k Hk. destruct (decide (q = k)) as [->|Hne].
    + apply Rsum_range_ext. intros v Hv. by rewrite decide_True.
    + transitivity (Rsum_range (fun _ => 0%R) 0 (n_vc cm));
        [|apply Rsum_range_zero].
      apply Rsum_range_ext. intros v Hv. by rewrite decide_False by congruence.
Qed.

(** The single loop on the vertices of a scalar field. *)
Lemma acc_vertices_scalar :
  s = 1 ->
  accumulates
    (for_ 0 (n_vc cm) (fun v =>
       w <- fetch (wvc cm) v ;;
       v_id <- fetch (v_ids cm) v ;;
       x <- fetch vals v_id ;;
       add_to 0 (w * x)%R))
    s (fun q => if decide (q < s) then weighted_vertex_sum cm s vals q else 0%R).
Proof using Hdata.
  intros Hs.
  eapply acc_ext;
    [|apply (acc_for _ _ _ (fun v q =>
        if decide (0 = q)
        then (nth v (wvc cm) 0 * nth (nth v (v_ids cm) 0%nat) vals 0)%R else 0%R));
      intros v Hv].
  2: { destruct (Hdata v Hv) as (w & v_id & Hw & Hid & Hvals).
       eapply acc_fetch; [exact Hw|]. eapply acc_fetch; [exact Hid|].
       eapply acc_fetch; [apply lookup_nth; lia|].
       rewrite (nth_lookup_Some _ _ 0%R _ Hw).
       replace (nth v (v_ids cm) 0) with v_id by (symmetry; by apply nth_lookup_Some).
       intros ev Hlen. apply acc_add_to. lia. }
  intros q. simpl. rewrite weighted_vertex_sum_eq.
  destruct (decide (q < s)) as [Hq|Hq].
  - assert (q = 0) as -> by lia. apply Rsum_range_ext.
    intros v Hv. rewrite decide_True by done. unfold term. subst s.
    do 2 f_equal. lia.
  - transitivity (Rsum_range (fun _ => 0%R) 0 (n_vc cm)); [|apply Rsum_range_zero].
    apply Rsum_range_ext. intros v Hv. rewrite decide_False; [done | lia].
Qed.

End InterpolationAccumulates.

(** C9. When the values are located at the vertices,
    [cs_xdef_eval_cw_cell_by_array], [cs_xdef_eval_cw_cell_by_field] and
    [cs_xdef_eval_cw_3_at_xyz_by_field] add the interpolated value to the
    output: each component [k] ends as its initial content plus the sum over
    the vertices [v] of the cell of [wvc[v]] times the value at [v]; it is
    the interpolated value exactly when its initial content is zero, and the
    rest of the output array is not modified. *)
Theorem vertex_interpolation_accumulates `{Collaborators}
    (cm : cs_cell_mesh_t) (d : vertex_interpolation) (ev : list R) :
  on_vertices cm d ->
  vertex_data cm (interp_stride d) (interp_values d) ->
  interp_stride d <= length ev ->
  exists ev',
    interp_eval cm d ev = Returns tt ev' /\
    length ev' = length ev /\
    (forall k x, k < interp_stride d -> ev !! k = Some x ->
       let interpolated :=
         weighted_vertex_sum cm (interp_stride d) (interp_values d) k in
       ev' !! k = Some (x + interpolated)%R /\
       (ev' !! k = Some interpolated <-> x = 0%R)) /\
    (forall q, interp_stride d <= q -> ev' !! q = ev !! q).
Proof.
  intros [Hpvq Hloc] Hdata Hlen.
  set (s := interp_stride d) in *. set (vals := interp_values d) in *.
  assert (Hacc : accumulates (interp_eval cm d) s
            (fun q => if decide (q < s) then weighted_vertex_sum cm s vals q else 0%R)).
  { destruct d as [input|input|n_points input]; simpl in *.
    - destruct Hloc as [Hcell Hvtx].
      unfold cs_xdef_eval_cw_cell_by_array. rewrite Hcell, Hvtx.
      apply acc_assert; [done|]. by apply acc_vertices_then_components.
    - destruct Hloc as (Hdim & Hnc & Hv).
      unfold cs_xdef_eval_cw_cell_by_field.
      rewrite (proj2 (Z.eqb_neq _ _) Hnc), (proj2 (Z.eqb_eq _ _) Hv), Hdim.
      apply acc_assert; [done|]. apply acc_assert; [done|].
      by apply acc_vertices_scalar.
    - destruct Hloc as (Hdim & Hnc & Hv).
      unfold cs_xdef_eval_cw_3_at_xyz_by_field.
      rewrite (proj2 (Z.eqb_neq _ _) Hnc), (proj2 (Z.eqb_eq _ _) Hv), Hdim.
      apply acc_assert; [done|]. apply acc_assert; [done|].
      by apply (acc_components_then_vertices cm 3). }
  specialize (Hacc ev Hlen).
  apply wp_returns in Hacc as ([] & ev' & Hrun & Hl & Hv).
  exists ev'. split_and!; [done | done | |].
  - intros k x Hk Hx interpolated. specialize (Hv k x Hx). simpl in Hv.
    rewrite decide_True in Hv by done. split; [done|].
    rewrite Hv. split.
    + intros Heq. injection Heq as Heq. unfold interpolated in Heq. lra.
    + intros ->. f_equal. unfold interpolated. lra.
  - intros q Hq. destruct (ev !! q) as [x|] eqn:Hx.
    + rewrite (Hv q x Hx). rewrite decide_False by lia. f_equal. lra.
    + apply lookup_ge_None. rewrite Hl. by apply lookup_ge_None.
Qed.

(** The theorem for a scalar field on the four vertices of the unit
    square, the output holding 10 on entry. *)
Lemma vertex_interpolation_accumulates_witness :
  exists ev',
    @interp_eval sample unit_square_cell (CwCellByField vertex_field) [10%R]
      = Returns tt ev' /\
    length ev' = 1 /\
    (forall k x, k < 1 -> [10%R] !! k = Some x ->
       let interpolated :=
         weighted_vertex_sum unit_square_cell 1 (val vertex_field) k in
       ev' !! k = Some (x + interpolated)%R /\
       (ev' !! k = Some interpolated <-> x = 0%R)) /\
    (forall q, 1 <= q -> ev' !! q = [10%R] !! q).
Proof.
  apply (@vertex_interpolation_accumulates sample unit_square_cell
           (CwCellByField vertex_field) [10%R]).
  - split; [reflexivity|]. split_and!; [reflexivity | discriminate | reflexivity].
  - intros v Hv. simpl in Hv.
    destruct v as [|[|[|[|v]]]]; [| | | | lia].
    + exists 0.25%R, 0. split_and!; [reflexivity | reflexivity | simpl; lia].
    + exists 0.25%R, 1. split_and!; [reflexivity | reflexivity | simpl; lia].
    + exists 0.25%R, 2. split_and!; [reflexivity | reflexivity | simpl; lia].
    + exists 0.25%R, 3. split_and!; [reflexivity | reflexivity | simpl; lia].
  - simpl. lia.
Defined.

(** ** Reconstruction of a cell vector at the vertices *)

(** A loop that rewrites the [n] reals of one block, each from its former
    content: the shape of [for (k...) v_val[k] += ...] and of
    [for (k...) v_val[k] *= ...]. *)
Lemma wp_modify_block p n (g : nat -> R -> R) (body : nat -> M unit) ev
    (Q : unit -> list R -> Prop) :
  (forall k, body k = bind (load (p + k)) (fun y => store (p + k) (g k y))) ->
  p + n <= length ev ->
  (forall ev', length ev' = length ev ->
     (forall k x, k < n -> ev !! (p + k) = Some x -> ev' !! (p + k) = Some (g k x)) ->
     (forall q, ~ (p <= q < p + n) -> ev' !! q = ev !! q) ->
     Q tt ev') ->
  wp (for_ 0 n body) Q ev.
Proof.
  intros Hbody Hlen HQ.
  eapply wp_mono;
    [|apply (wp_for (fun m ev' =>
        length ev' = length ev /\
        (forall k x, k < m -> ev !! (p + k) = Some x -> ev' !! (p + k) = Some (g k x)) /\
        (forall q, ~ (p <= q < p + m) -> ev' !! q = ev !! q)))].
  - intros [] ev' (Hl & Hv & Hfr). by apply HQ.
  - lia.
  - split_and!; [done | intros; lia | done].
  - intros j ev1 Hj (Hl1 & Hv1 & Hfr1). rewrite Hbody.
    destruct (lookup_lt_is_Some_2 ev (p + j)) as [x Hx]; [lia|].
    assert (Hx1 : ev1 !! (p + j) = Some x) by (rewrite Hfr1; [done | lia]).
    apply wp_bind, (wp_load _ x); [done|]. apply wp_store; [lia|].
    split_and!.
    + by rewrite length_insert.
    + intros k y Hk Hy. rewrite lookup_stored by lia.
      destruct (decide (p + j = p + k)) as [Heq|Hne].
      * assert (k = j) as -> by lia. congruence.
      * apply Hv1; [lia | done].
    + intros q Hq. rewrite lookup_stored by lia.
      rewrite decide_False by lia. apply Hfr1. lia.
Qed.

Section ReconstructionAtVertices.

Context `{Collaborators}.

Variables (connect : cs_cdo_connect_t) (quant : cs_cdo_quantities_t).
Variables (vec : cs_real_3_t) (n_out : nat).

Hypothesis Hmesh : cell_vertices connect quant.
Hypothesis Hout : 3 * n_vertices quant <= n_out.

(** One vertex of one cell (lines 1039-1043). *)
Lemma accumulate_step c lo hi m dc_vol ev1 :
  idx (c2v connect) !! c = Some lo -> idx (c2v connect) !! (c + 1) = Some hi ->
  hi <= length (ids (c2v connect)) -> hi <= length (dcell_vol quant) ->
  lo + m < hi ->
  accumulated connect quant vec n_out c m dc_vol ev1 ->
  wp (v_id <- fetch (ids (c2v connect)) (lo + m) ;;
      vol_vc <- fetch (dcell_vol quant) (lo + m) ;;
      d <- fetch dc_vol v_id ;;
      dc_vol <- update dc_vol v_id (d + vol_vc)%R ;;
      for_ 0 3 (fun k => add_to (3 * v_id + k) (vol_vc * comp vec k)%R) ;;;
      ret dc_vol)
     (fun dc_vol' ev' => accumulated connect quant vec n_out c (S m) dc_vol' ev') ev1.
Proof using Hmesh Hout.
  intros Hlo Hhi Hids Hvols Hm (Hldc & Hlev & Hval & Hpos).
  destruct Hmesh as (_ & Hvtx & Hvolpos).
  destruct (lookup_lt_is_Some_2 (ids (c2v connect)) (lo + m)) as [v_id Hv]; [lia|].
  destruct (lookup_lt_is_Some_2 (dcell_vol quant) (lo + m)) as [vol Hvol]; [lia|].
  pose proof (Hvtx _ _ Hv) as Hvlt. pose proof (Hvolpos _ _ Hvol) as Hvol0.
  destruct (lookup_lt_is_Some_2 dc_vol v_id) as [d Hd]; [lia|].
  destruct (Hval _ _ Hd) as [Hd0 Hevd].
  apply wp_bind, (wp_fetch _ _ v_id); [done|].
  apply wp_bind, (wp_fetch _ _ vol); [done|].
  apply wp_bind, (wp_fetch _ _ d); [done|].
  apply wp_bind, wp_update; [lia|].
  apply wp_bind.
  apply (wp_modify_block (3 * v_id) 3 (fun k y => (y + vol * comp vec k)%R));
    [done | lia |].
  intros ev2 Hl2 Hv2 Hfr2. apply wp_ret.
  split_and!.
  - by rewrite length_insert.
  - congruence.
  - intros v d' Hd'.
    destruct (decide (v_id = v)) as [<-|Hne].
    + rewrite list_lookup_insert_eq in Hd' by lia.
      injection Hd' as <-. split; [lra|].
      intros k Hk. rewrite (Hv2 k _ Hk (Hevd k Hk)). f_equal. lra.
    + rewrite list_lookup_insert_ne in Hd' by done.
      destruct (Hval _ _ Hd') as [Hd0' Hev']. split; [done|].
      intros k Hk. rewrite Hfr2 by lia. by apply Hev'.
  - intros v d' Hmet Hd'.
    destruct (decide (v_id = v)) as [<-|Hne].
    + rewrite list_lookup_insert_eq in Hd' by lia. injection Hd' as <-. lra.
    + rewrite list_lookup_insert_ne in Hd' by done.
      apply (Hpos v d'); [|done].
      destruct Hmet as (c' & j & lo' & hi' & Hlo' & Hhi' & Hj & Hjv & Hcase).
      exists c', j, lo', hi'. repeat (split; [done|]).
      destruct Hcase as [?|[-> Hjm]]; [by left | right].
      split; [done|]. assert (lo' = lo) as -> by congruence.
      destruct (decide (j = lo + m)) as [->|]; [congruence | lia].
Qed.

(** All the vertices of one cell (lines 1033-1045). *)
Lemma accumulate_cell c dc_vol ev1 :
  c < n_cells quant ->
  accumulated connect quant vec n_out c 0 dc_vol ev1 ->
  wp (accumulate_on_cell_vertices connect quant c vec dc_vol)
     (fun dc_vol' ev' => accumulated connect quant vec n_out (S c) 0 dc_vol' ev') ev1.
Proof using Hmesh Hout.
  intros Hc Hacc.
  destruct Hmesh as (Hcells & _ & _).
  destruct (Hcells c Hc) as (lo & hi & Hlo & Hhi & Hle & Hids & Hvols).
  unfold accumulate_on_cell_vertices.
  apply wp_bind, (wp_fetch _ _ lo); [done|].
  apply wp_bind, (wp_fetch _ _ hi); [done|].
  eapply wp_mono;
    [|apply (wp_for_acc (fun m dc ev' => accumulated connect quant vec n_out c m dc ev'));
      [lia | done |]].
  - intros dc' ev' (Hldc & Hlev & Hval & Hpos). split_and!; [done | done | done |].
    intros v d Hmet. apply Hpos.
    destruct Hmet as (c' & j & lo' & hi' & Hlo' & Hhi' & Hj & Hjv & Hcase).
    exists c', j, lo', hi'. repeat (split; [done|]).
    destruct Hcase as [Hlt|[-> Hjm]]; [|lia].
    destruct (decide (c' = c)) as [->|]; [right | left; lia].
    split; [done|]. assert (lo' = lo) by congruence. assert (hi' = hi) by congruence. lia.
  - intros m dc ev' Hm Hstate. by apply (accumulate_step c lo hi); [..| lia |].
Qed.

(** The loop on the cells (lines 1024-1047), every cell holding [vec]. *)
Lemma accumulate_cells (input : cs_xdef_array_input_t) ev :
  length ev = n_out ->
  constant_on_cells input (n_cells quant) vec ->
  (forall q, q < 3 * n_vertices quant -> ev !! q = Some 0%R) ->
  wp (for_acc 0 (n_cells quant) (fun c_id dc_vol =>
        cell_vector <- fetch3 (values input) (3 * c_id) ;;
        accumulate_on_cell_vertices connect quant c_id cell_vector dc_vol)
        (replicate (n_vertices quant) 0%R))
     (fun dc_vol ev' => accumulated connect quant vec n_out (n_cells quant) 0 dc_vol ev') ev.
Proof using Hmesh Hout.
  intros Hlen Hconst Hzero.
  apply (wp_for_acc (fun c dc ev' => accumulated connect quant vec n_out c 0 dc ev'));
    [lia | |].
  - split_and!; [by rewrite length_replicate | done | |].
    + intros v d Hd. apply lookup_replicate in Hd as [-> Hv]. split; [lra|].
      intros k Hk. rewrite Hzero by lia. f_equal. lra.
    + intros v d (c' & j & lo & hi & _ & _ & Hj & _ & Hcase). lia.
  - intros c dc ev' Hc Hstate.
    pose proof (Hconst c 0 ltac:(lia) ltac:(lia)) as H0.
    pose proof (Hconst c 1 ltac:(lia) ltac:(lia)) as H1.
    pose proof (Hconst c 2 ltac:(lia) ltac:(lia)) as H2.
    rewrite Nat.add_0_r in H0.
    apply wp_bind, (wp_fetch3 _ _ _ _ _ _ _ H0 H1 H2).
    replace (comp vec 0, comp vec 1, comp vec 2) with vec
      by (by destruct vec as [[x y] z]).
    apply accumulate_cell; [lia | done].
Qed.

(** The loop on the vertices (lines 1050-1056). *)
Lemma normalize_vertices dc_vol ev1 :
  vertices_covered connect quant ->
  accumulated connect quant vec n_out (n_cells quant) 0 dc_vol ev1 ->
  wp (normalize_by_volume quant dc_vol)
     (fun _ ev' =>
        forall v k, v < n_vertices quant -> k < 3 -> ev' !! (3 * v + k) = Some (comp vec k))
     ev1.
Proof using Hout.
  intros Hcov (Hldc & Hlev & Hval & Hpos).
  unfold normalize_by_volume.
  eapply wp_mono;
    [|apply (wp_for (fun m ev' =>
        length ev' = length ev1 /\
        (forall v k, v < m -> k < 3 -> ev' !! (3 * v + k) = Some (comp vec k)) /\
        (forall q, 3 * m <= q -> ev' !! q = ev1 !! q))); [lia | |]].
  - intros _ ev' (_ & Hdone & _). done.
  - split_and!; [done | intros; lia | done].
  - intros v ev2 Hv (Hl2 & Hdone & Hrest).
    destruct (lookup_lt_is_Some_2 dc_vol v) as [d Hd]; [lia|].
    destruct (Hval _ _ Hd) as [_ Hevd].
    assert (Hd0 : (0 < d)%R).
    { apply (Hpos v d); [|done].
      destruct (Hcov v ltac:(lia)) as (c & j & Hc & lo & hi & Hlo & Hhi & Hj & Hjv).
      exists c, j, lo, hi. repeat (split; [done|]). by left. }
    apply wp_bind, (wp_fetch _ _ d); [done|].
    apply (wp_modify_block (3 * v) 3 (fun _ y => (y * (1 / d))%R)); [done | lia |].
    intros ev3 Hl3 Hv3 Hfr3. split_and!; [congruence | |].
    + intros v' k Hv' Hk. destruct (decide (v' = v)) as [->|Hne].
      * rewrite (Hv3 k (d * comp vec k)%R Hk).
        -- f_equal. field. lra.
        -- rewrite Hrest by lia. by apply Hevd.
      * rewrite Hfr3 by lia. apply Hdone; lia.
    + intros q Hq. rewrite Hfr3 by lia. apply Hrest. lia.
Qed.

End ReconstructionAtVertices.

(** C6. For a stride-3 array on the cells that holds the same vector for
    every cell and a mesh whose vertices all belong to a cell (the dual
    volumes being positive), [cs_xdef_eval_3_at_all_vertices_by_array]
    called for all the vertices on an output holding zeros returns, and
    the output holds that vector for every vertex. *)
Theorem constant_cell_vector_at_all_vertices `{Collaborators}
    (n_elts : cs_lnum_t) (compact : bool)
    (connect : cs_cdo_connect_t) (quant : cs_cdo_quantities_t)
    (input : cs_xdef_array_input_t) (vec : cs_real_3_t) (ev : list R) :
  stride input = 3 ->
  cs_flag_test (loc input) cs_flag_primal_cell = true ->
  constant_on_cells input (n_cells quant) vec ->
  cell_vertices connect quant ->
  vertices_covered connect quant ->
  n_vertices quant <= n_elts ->
  3 * n_vertices quant <= length ev ->
  (forall q, q < 3 * n_vertices quant -> ev !! q = Some 0%R) ->
  exists ev',
    cs_xdef_eval_3_at_all_vertices_by_array n_elts None compact connect quant input ev
      = Returns tt ev' /\
    forall v k, v < n_vertices quant -> k < 3 -> ev' !! (3 * v + k) = Some (comp vec k).
Proof.
  intros Hs Hloc Hconst Hmesh Hcov Hn Hlen Hzero.
  assert (Hwp : wp
    (cs_xdef_eval_3_at_all_vertices_by_array n_elts None compact connect quant input)
    (fun _ ev' =>
       forall v k, v < n_vertices quant -> k < 3 -> ev' !! (3 * v + k) = Some (comp vec k))
    ev).
  { unfold cs_xdef_eval_3_at_all_vertices_by_array.
    rewrite Hs, Hloc.
    rewrite bool_decide_eq_false_2 by (intros Hnn; by apply Hnn).
    rewrite (proj2 (Nat.ltb_ge _ _) Hn). unfold orb. cbv iota.
    apply wp_bind, wp_ret. apply wp_bind, wp_assert; [done|].
    apply wp_bind.
    eapply wp_mono; [|by apply (accumulate_cells connect quant vec (length ev))].
    intros dc_vol ev1 Hacc.
    by apply (normalize_vertices connect quant vec (length ev)). }
  apply wp_returns in Hwp as ([] & ev' & Hrun & Hres). by exists ev'.
Qed.

(** The theorem for the vector (1, 2, 3) on two cells that share one of
    the three vertices of the mesh. *)
Lemma constant_cell_vector_at_all_vertices_witness :
  exists ev',
    @cs_xdef_eval_3_at_all_vertices_by_array sample 3 None false
      two_cells_connect two_cells same_vector_on_two_cells (replicate 9 0%R)
      = Returns tt ev' /\
    forall v k, v < 3 -> k < 3 -> ev' !! (3 * v + k) = Some (comp (1, 2, 3)%R k).
Proof.
  apply (@constant_cell_vector_at_all_vertices sample 3 false
           two_cells_connect two_cells same_vector_on_two_cells (1, 2, 3)%R
           (replicate 9 0%R)).
  - reflexivity.
  - reflexivity.
  - intros c k Hc Hk.
    destruct c as [|[|c]]; [| | simpl in Hc; lia];
      (destruct k as [|[|[|k]]]; [reflexivity | reflexivity | reflexivity | lia]).
  - split_and!.
    + intros c Hc. destruct c as [|[|c]]; [| | simpl in Hc; lia].
      * exists 0, 2. repeat split; simpl; lia.
      * exists 2, 4. repeat split; simpl; lia.
    + intros j v Hj.
      destruct j as [|[|[|[|j]]]]; simpl in Hj; [| | | | discriminate];
        injection Hj as <-; simpl; lia.
    + intros j x Hj.
      destruct j as [|[|[|[|j]]]]; simpl in Hj; [| | | | discriminate];
        injection Hj as <-; lra.
  - intros v Hv. destruct v as [|[|[|v]]]; [| | | simpl in Hv; lia].
    + exists 0, 0. split; [simpl; lia|]. exists 0, 2. repeat split; simpl; lia.
    + exists 0, 1. split; [simpl; lia|]. exists 0, 2. repeat split; simpl; lia.
    + exists 1, 3. split; [simpl; lia|]. exists 2, 4. repeat split; simpl; lia.
  - simpl. lia.
  - simpl. lia.
  - intros q Hq. apply lookup_replicate_2. simpl in Hq. lia.
Defined.

(** * More of the code: cs_math.h *)

(** Tensors and vectors are tuples: a statement on them is a statement on
    their components. *)
Ltac components :=
  repeat match goal with
         | v : cs_real_3_t |- _ => destruct v as [[? ?] ?]
         | m : cs_real_33_t |- _ => destruct m as [[? ?] ?]
         | s : cs_real_6_t |- _ => destruct s as [[[[[? ?] ?] ?] ?] ?]
         end;
  cbv [cs_math_33_inv_cramer cs_math_33_inv_cramer_in_place
       cs_math_33_inv_cramer_sym_in_place cs_math_sym_33_inv_cramer
       cs_math_33_3_product cs_math_33t_3_product cs_math_sym_33_3_product
       cs_math_33_determinant cs_math_sym_33_determinant
       cs_math_sym_33_product cs_math_sym_33_double_product
       cs_math_3_cross_product cs_math_3_dot_product
       cs_math_3_square_norm cs_math_3_square_distance
       cs_math_3_norm cs_math_3_distance cs_math_sq
       sym_to_33 sym_identity vec_sub elt row comp comp6] in *.

(** An equation between tuples, component by component. *)
Ltac by_components :=
  repeat match goal with |- (_, _) = (_, _) => f_equal end.

(** X1. When the determinant of [m] is not zero, the tensor
    [cs_math_33_inv_cramer] computes is the inverse of [m] on both sides,
    and [cs_math_33_inv_cramer_in_place] computes the same tensor. *)
Theorem inv_cramer_is_inverse (m : cs_real_33_t) (v : cs_real_3_t) :
  cs_math_33_determinant m <> 0%R ->
  cs_math_33_3_product (cs_math_33_inv_cramer m) (cs_math_33_3_product m v) = v /\
  cs_math_33_3_product m (cs_math_33_3_product (cs_math_33_inv_cramer m) v) = v /\
  cs_math_33_inv_cramer_in_place m = cs_math_33_inv_cramer m.
Proof.
  intros Hdet. components. split_and!; [| |reflexivity].
  - by_components; field; exact Hdet.
  - by_components; field; exact Hdet.
Qed.

Lemma inv_cramer_is_inverse_witness :
  let m := ((2, 0, 0), (0, 1, 1), (0, 0, 1))%R in
  let v := (1, 2, 3)%R in
  cs_math_33_3_product (cs_math_33_inv_cramer m) (cs_math_33_3_product m v) = v /\
  cs_math_33_3_product m (cs_math_33_3_product (cs_math_33_inv_cramer m) v) = v /\
  cs_math_33_inv_cramer_in_place m = cs_math_33_inv_cramer m.
Proof.
  apply (inv_cramer_is_inverse ((2, 0, 0), (0, 1, 1), (0, 0, 1))%R (1, 2, 3)%R).
  cbv [cs_math_33_determinant elt row comp]. lra.
Defined.

(** X2. [cs_math_33_inv_cramer_sym_in_place] returns a symmetric tensor
    whatever its argument, and on a symmetric argument it returns what
    [cs_math_33_inv_cramer_in_place] returns. *)
Theorem inv_cramer_sym_in_place_on_symmetric (a : cs_real_33_t) :
  (forall i j, i < 3 -> j < 3 ->
     elt (cs_math_33_inv_cramer_sym_in_place a) i j
     = elt (cs_math_33_inv_cramer_sym_in_place a) j i) /\
  ((forall i j, i < 3 -> j < 3 -> elt a i j = elt a j i) ->
   cs_math_33_inv_cramer_sym_in_place a = cs_math_33_inv_cramer_in_place a).
Proof.
  split.
  - intros i j Hi Hj. components.
    destruct i as [|[|[|i]]], j as [|[|[|j]]]; first [reflexivity | lia].
  - intros Hsym.
    pose proof (Hsym 0 1 ltac:(lia) ltac:(lia)) as H01.
    pose proof (Hsym 0 2 ltac:(lia) ltac:(lia)) as H02.
    pose proof (Hsym 1 2 ltac:(lia) ltac:(lia)) as H12.
    clear Hsym. components. subst. by_components; ring.
Qed.

Lemma inv_cramer_sym_in_place_on_symmetric_witness :
  let a := ((2, 1, 0), (1, 2, 0), (0, 0, 1))%R in
  cs_math_33_inv_cramer_sym_in_place a = cs_math_33_inv_cramer_in_place a.
Proof.
  apply (inv_cramer_sym_in_place_on_symmetric ((2, 1, 0), (1, 2, 0), (0, 0, 1))%R).
  intros i j Hi Hj.
  destruct i as [|[|[|i]]], j as [|[|[|j]]]; first [reflexivity | lia].
Defined.


(** X3. When the determinant of the symmetric tensor [s] is not zero,
    [cs_math_sym_33_inv_cramer] computes its inverse: the product with [s]
    is the identity in either order, and the two products by a vector undo
    each other in either order. *)
Theorem sym_inv_cramer_is_inverse (s : cs_real_6_t) (v : cs_real_3_t) :
  cs_math_sym_33_determinant s <> 0%R ->
  cs_math_sym_33_product s (cs_math_sym_33_inv_cramer s) = sym_identity /\
  cs_math_sym_33_product (cs_math_sym_33_inv_cramer s) s = sym_identity /\
  cs_math_sym_33_3_product (cs_math_sym_33_inv_cramer s) (cs_math_sym_33_3_product s v) = v /\
  cs_math_sym_33_3_product s (cs_math_sym_33_3_product (cs_math_sym_33_inv_cramer s) v) = v.
Proof.
  intros Hdet. components. split_and!; by_components; field; exact Hdet.
Qed.

Lemma sym_inv_cramer_is_inverse_witness :
  let s := (2, 1, 1, 0, 0, 1)%R in
  let v := (1, 2, 3)%R in
  cs_math_sym_33_product s (cs_math_sym_33_inv_cramer s) = sym_identity /\
  cs_math_sym_33_product (cs_math_sym_33_inv_cramer s) s = sym_identity /\
  cs_math_sym_33_3_product (cs_math_sym_33_inv_cramer s) (cs_math_sym_33_3_product s v) = v /\
  cs_math_sym_33_3_product s (cs_math_sym_33_3_product (cs_math_sym_33_inv_cramer s) v) = v.
Proof.
  apply (sym_inv_cramer_is_inverse (2, 1, 1, 0, 0, 1)%R (1, 2, 3)%R).
  cbv [cs_math_sym_33_determinant comp6]. lra.
Defined.

(** X4. The functions on symmetric tensors agree with the functions on
    3x3 tensors applied to the tensor the six reals stand for: same product
    by a vector, same determinant, same inverse. *)
Theorem symmetric_storage_is_consistent (s : cs_real_6_t) (v : cs_real_3_t) :
  cs_math_sym_33_3_product s v = cs_math_33_3_product (sym_to_33 s) v /\
  cs_math_sym_33_determinant s = cs_math_33_determinant (sym_to_33 s) /\
  sym_to_33 (cs_math_sym_33_inv_cramer s) = cs_math_33_inv_cramer (sym_to_33 s).
Proof.
  components. split_and!; [reflexivity | ring |].
  by_components; ring.
Qed.

(** X5. [cs_math_sym_33_double_product] computes the product of the three
    symmetric tensors: applied to a vector, its result is the three
    products by a vector in a row.  With the identity as third tensor its
    upper triangle is what [cs_math_sym_33_product] returns. *)
Theorem sym_double_product_is_product (s1 s2 s3 : cs_real_6_t) (v : cs_real_3_t) :
  cs_math_33_3_product (cs_math_sym_33_double_product s1 s2 s3) v
  = cs_math_sym_33_3_product s1
      (cs_math_sym_33_3_product s2 (cs_math_sym_33_3_product s3 v)) /\
  let p := cs_math_sym_33_double_product s1 s2 sym_identity in
  cs_math_sym_33_product s1 s2
  = (elt p 0 0, elt p 1 1, elt p 2 2, elt p 0 1, elt p 1 2, elt p 0 2).
Proof.
  components. split; by_components; ring.
Qed.

(** X6. The cross product is orthogonal to its two arguments, changes
    sign when they are swapped, and its square norm is
    [|u|^2 |v|^2 - (u.v)^2]. *)
Theorem cross_product_properties (u v : cs_real_3_t) :
  cs_math_3_dot_product u (cs_math_3_cross_product u v) = 0%R /\
  cs_math_3_dot_product v (cs_math_3_cross_product u v) = 0%R /\
  cs_math_3_cross_product v u = vec_sub (0, 0, 0)%R (cs_math_3_cross_product u v) /\
  cs_math_3_square_norm (cs_math_3_cross_product u v)
  = (cs_math_3_square_norm u * cs_math_3_square_norm v
     - cs_math_sq (cs_math_3_dot_product u v))%R.
Proof.
  components. split_and!; [ring | ring | by_components; ring | ring].
Qed.

(** X7. The determinant of the tensor of rows [u], [v], [w] is the dot
    product of [u] with the cross product of [v] and [w]; the product by the
    transposed tensor is the adjoint of the product by the tensor. *)
Theorem determinant_and_transpose (m : cs_real_33_t) (u v : cs_real_3_t) :
  cs_math_33_determinant m
  = cs_math_3_dot_product (row m 0) (cs_math_3_cross_product (row m 1) (row m 2)) /\
  cs_math_3_dot_product u (cs_math_33_3_product m v)
  = cs_math_3_dot_product (cs_math_33t_3_product m u) v.
Proof.
  components. split; ring.
Qed.

Lemma sum_of_squares_pos (x y z : R) : (0 <= x * x + y * y + z * z)%R.
Proof.
  pose proof (Rle_0_sqr x). pose proof (Rle_0_sqr y). pose proof (Rle_0_sqr z).
  unfold Rsqr in *. lra.
Qed.

Lemma sum_of_squares_0 (x y z : R) :
  (x * x + y * y + z * z)%R = 0%R -> x = 0%R /\ y = 0%R /\ z = 0%R.
Proof.
  intros H. pose proof (Rle_0_sqr x) as Hx. pose proof (Rle_0_sqr y) as Hy.
  pose proof (Rle_0_sqr z) as Hz. unfold Rsqr in *.
  split_and!; apply Rsqr_0_uniq; unfold Rsqr; lra.
Qed.

(** The inequality of Cauchy and Schwarz for three components. *)
Lemma dot_le_norms (x0 x1 x2 y0 y1 y2 : R) :
  (Rabs (x0 * y0 + x1 * y1 + x2 * y2)
   <= sqrt (x0 * x0 + x1 * x1 + x2 * x2) * sqrt (y0 * y0 + y1 * y1 + y2 * y2))%R.
Proof.
  rewrite <- sqrt_mult by apply sum_of_squares_pos.
  rewrite <- sqrt_Rsqr_abs. apply sqrt_le_1_alt. unfold Rsqr.
  pose proof (Rle_0_sqr (x0 * y1 - x1 * y0)) as H01.
  pose proof (Rle_0_sqr (x1 * y2 - x2 * y1)) as H12.
  pose proof (Rle_0_sqr (x2 * y0 - x0 * y2)) as H20.
  unfold Rsqr in *. nra.
Qed.

(** X8. [cs_math_3_norm] is a norm: it is not negative, its square is
    [cs_math_3_square_norm], it vanishes for the null vector only, and the
    dot product of two vectors is bounded by the product of their norms. *)
Theorem norm_properties (u v : cs_real_3_t) :
  (0 <= cs_math_3_norm u)%R /\
  (cs_math_3_norm u * cs_math_3_norm u)%R = cs_math_3_square_norm u /\
  (cs_math_3_norm u = 0%R <-> u = (0, 0, 0)%R) /\
  (Rabs (cs_math_3_dot_product u v) <= cs_math_3_norm u * cs_math_3_norm v)%R.
Proof.
  components. split_and!.
  - apply sqrt_pos.
  - apply sqrt_sqrt. apply sum_of_squares_pos.
  - split.
    + intros H0. apply sqrt_eq_0 in H0; [|apply sum_of_squares_pos].
      apply sum_of_squares_0 in H0 as (-> & -> & ->). reflexivity.
    + intros [= -> -> ->].
      replace (0 * 0 + 0 * 0 + 0 * 0)%R with 0%R by ring. apply sqrt_0.
  - apply dot_le_norms.
Qed.

(** X9. [cs_math_3_distance] is a distance: it is the norm of the
    difference of the two points and its square is
    [cs_math_3_square_distance]; it is symmetric, it vanishes for equal
    points only, and it satisfies the triangle inequality. *)
Theorem distance_properties (a b c : cs_real_3_t) :
  cs_math_3_distance a b = cs_math_3_norm (vec_sub b a) /\
  (cs_math_3_distance a b * cs_math_3_distance a b)%R = cs_math_3_square_distance a b /\
  cs_math_3_distance a b = cs_math_3_distance b a /\
  (cs_math_3_distance a b = 0%R <-> a = b) /\
  (cs_math_3_distance a c <= cs_math_3_distance a b + cs_math_3_distance b c)%R.
Proof.
  components. split_and!.
  - reflexivity.
  - apply sqrt_sqrt. apply sum_of_squares_pos.
  - f_equal. ring.
  - split.
    + intros H0. apply sqrt_eq_0 in H0; [|apply sum_of_squares_pos].
      apply sum_of_squares_0 in H0 as (H0 & H1 & H2).
      by_components; lra.
    + intros [= -> -> ->].
      match goal with |- sqrt ?x = _ => replace x with 0%R by ring end. apply sqrt_0.
  - match goal with
    | |- (sqrt ?C <= sqrt ?A + sqrt ?B)%R =>
        assert (HA : (0 <= A)%R) by apply sum_of_squares_pos;
        assert (HB : (0 <= B)%R) by apply sum_of_squares_pos;
        assert (HC : (0 <= C)%R) by apply sum_of_squares_pos;
        pose proof (sqrt_pos A) as HsA; pose proof (sqrt_pos B) as HsB;
        pose proof (sqrt_sqrt A HA) as HqA; pose proof (sqrt_sqrt B HB) as HqB;
        apply Rsqr_incr_0_var; [|lra]; unfold Rsqr; rewrite (sqrt_sqrt C HC)
    end.
    match goal with
    | |- (_ <= (sqrt (?x0 * ?x0 + ?x1 * ?x1 + ?x2 * ?x2)
               + sqrt (?y0 * ?y0 + ?y1 * ?y1 + ?y2 * ?y2)) * _)%R =>
        pose proof (dot_le_norms x0 x1 x2 y0 y1 y2) as Hcs;
        pose proof (Rle_abs (x0 * y0 + x1 * y1 + x2 * y2)) as Habs
    end.
    nra.
Qed.

(** X10. [cs_math_reduce_sym_prod_33_to_66] adds to the 6x6 array [sout]
    the coefficients of the map that sends a symmetric tensor [R] to
    [R s + s^T R]: for every symmetric tensor [r] and every component [i],
    of indices (ii, jj), the sum over [c] of the coefficient added to
    [sout[c][i]] times [r[c]] is the component (ii, jj) of [R s + s^T R]. *)
Theorem reduce_sym_prod_coefficients
    (s : cs_real_33_t) (r : cs_real_6_t) (sout : list R) :
  length sout = 36 ->
  exists out,
    cs_math_reduce_sym_prod_33_to_66 s sout = Returns tt out /\
    length out = 36 /\
    forall i, i < 6 ->
      Rsum_range
        (fun c => ((nth (6 * c + i) out 0 - nth (6 * c + i) sout 0) * comp6 r c)%R) 0 6
      = Rsum_range
          (fun k => (elt (sym_to_33 r) (fst (sym_index i)) k * elt s k (snd (sym_index i))
                     + elt s k (fst (sym_index i)) * elt (sym_to_33 r) k (snd (sym_index i)))%R)
          0 3.
Proof.
  intros Hlen.
  destruct r as [[[[[r11 r22] r33] r12] r23] r13].
  destruct s as [[[[s00 s01] s02] [[s10 s11] s12]] [[s20 s21] s22]].
  do 36 (destruct sout as [|? sout]; [discriminate Hlen|]).
  destruct sout; [|discriminate Hlen]. clear Hlen.
  eexists. split; [cbv -[Rplus Rminus Rmult Rdiv Rinv Ropp IZR]; reflexivity|].
  split; [reflexivity|].
  intros i Hi.
  destruct i as [|[|[|[|[|[|i]]]]]]; [| | | | | | lia];
    cbv -[Rplus Rminus Rmult Rdiv Rinv Ropp IZR]; ring.
Qed.

Lemma reduce_sym_prod_coefficients_witness :
  exists out,
    cs_math_reduce_sym_prod_33_to_66 twice_identity (replicate 36 0%R) = Returns tt out /\
    length out = 36 /\
    forall i, i < 6 ->
      Rsum_range
        (fun c => ((nth (6 * c + i) out 0 - nth (6 * c + i) (replicate 36 0%R) 0)
                   * comp6 sym_identity c)%R) 0 6
      = Rsum_range
          (fun k => (elt (sym_to_33 sym_identity) (fst (sym_index i)) k
                       * elt twice_identity k (snd (sym_index i))
                     + elt twice_identity k (fst (sym_index i))
                       * elt (sym_to_33 sym_identity) k (snd (sym_index i)))%R)
          0 3.
Proof.
  apply (reduce_sym_prod_coefficients twice_identity sym_identity (replicate 36 0%R)).
  reflexivity.
Defined.

(** * More of the code: cs_xdef_eval.c *)

(** ** The three addressing modes of the bulk evaluators *)

Lemma selected_lookup (elt_ids : list cs_lnum_t) n i :
  n <= length elt_ids -> i < n -> elt_ids !! i = Some (nth i elt_ids 0).
Proof.
  intros Hn Hi. destruct (lookup_lt_is_Some_2 elt_ids i) as [x Hx]; [lia|].
  rewrite Hx. f_equal. symmetry. by apply nth_lookup_Some.
Qed.

(** A loop whose iteration [i] writes the values of its element in its
    slot returns an output that holds the selection. *)
Lemma selection_from_blocks s n elt_ids compact (body : nat -> M unit)
    (value : nat -> nat -> R) ev :
  selection_fits s n elt_ids compact (length ev) ->
  (forall i, i < n ->
     writes_block (body i) (s * slot elt_ids compact i) s (value (selected elt_ids i))) ->
  wp (for_ 0 n body) (fun _ out => holds_selection s n elt_ids compact value ev out) ev.
Proof.
  intros [Hids Hfit] Hbody.
  apply (for_blocks n body (fun i => s * slot elt_ids compact i) s
           (fun i => value (selected elt_ids i))); [done | done |].
  intros i j k k' Hi Hj Hk Hk' Heq.
  destruct (block_index_inj s _ _ k k' Hk Hk' Heq) as [Hslot ->].
  f_equal. unfold slot, selected in *.
  destruct elt_ids as [ids|], compact; simpl in *; congruence.
Qed.

(** [memcpy] of [s * n] reals is the dense evaluation of [n] elements. *)
Lemma selection_from_memcpy s n (src : list R) compact ev :
  s * n <= length ev -> s * n <= length src ->
  wp (memcpy src (s * n))
     (fun _ out =>
        holds_selection s n None compact (fun id k => nth (s * id + k) src 0%R) ev out) ev.
Proof.
  intros Hev Hsrc.
  assert (Hwb : writes_block (memcpy src (s * n)) 0 (s * n) (fun q => nth q src 0%R)).
  { apply wb_for. intros q Hq. eapply wb_fetch; [apply lookup_nth; lia|]. apply wb_store. }
  eapply wp_mono; [|apply Hwb; simpl; lia].
  intros [] out (Hl & Hv & Hfr). split_and!; [done | |].
  - intros i k Hi Hk. cbn [slot selected]. apply (Hv (s * i + k)). nia.
  - intros q Hq. apply Hfr. cbn [slot] in Hq. intros [_ Hlt]. simpl in Hlt.
    assert (0 < s) by nia.
    apply (Hq (q / s)).
    + apply Nat.Div0.div_lt_upper_bound. lia.
    + pose proof (Nat.div_mod_eq q s). pose proof (Nat.mod_upper_bound q s). lia.
Qed.

Lemma holds_selection_ext s n elt_ids compact (value value' : nat -> nat -> R) ev out :
  (forall i k, i < n -> k < s ->
     value (selected elt_ids i) k = value' (selected elt_ids i) k) ->
  holds_selection s n elt_ids compact value ev out ->
  holds_selection s n elt_ids compact value' ev out.
Proof.
  intros Hext (Hl & Hv & Hfr). split_and!; [done | | done].
  intros i k Hi Hk. rewrite <- Hext by done. by apply Hv.
Qed.

Section BulkSelection.

Context `{Collaborators}.

Variables (n : nat) (elt_ids : option (list cs_lnum_t)) (compact : bool) (ev : list R).

Lemma scalar_by_val_selection (c : list R) :
  1 <= length c ->
  selection_fits 1 n elt_ids compact (length ev) ->
  wp (cs_xdef_eval_scalar_by_val n elt_ids compact c)
     (fun _ out => holds_selection 1 n elt_ids compact (fun _ _ => nth 0 c 0%R) ev out) ev.
Proof.
  intros Hc Hfit. pose proof Hfit as [Hids _].
  unfold cs_xdef_eval_scalar_by_val.
  destruct elt_ids as [ids|], compact; apply selection_from_blocks; try done;
    intros i Hi; cbn [slot selected].
  - eapply wb_fetch; [apply lookup_nth; lia|].
    eapply wb_at; [|apply wb_store]. lia.
  - eapply wb_fetch; [by eapply selected_lookup|].
    eapply wb_fetch; [apply lookup_nth; lia|].
    eapply wb_at; [|apply wb_store]. lia.
  - eapply wb_fetch; [apply lookup_nth; lia|].
    eapply wb_at; [|apply wb_store]. lia.
  - eapply wb_fetch; [apply lookup_nth; lia|].
    eapply wb_at; [|apply wb_store]. lia.
Qed.

Lemma vector_by_val_selection (c : list R) :
  3 <= length c ->
  selection_fits 3 n elt_ids compact (length ev) ->
  wp (cs_xdef_eval_vector_by_val n elt_ids compact c)
     (fun _ out => holds_selection 3 n elt_ids compact (fun _ k => nth k c 0%R) ev out) ev.
Proof.
  intros Hc Hfit. pose proof Hfit as [Hids _].
  assert (Hblock : forall p,
    writes_block
      (c0 <- fetch c 0 ;; store p c0 ;;;
       c1 <- fetch c 1 ;; store (p + 1) c1 ;;;
       c2 <- fetch c 2 ;; store (p + 2) c2)
      p 3 (fun k => nth k c 0%R)).
  { intros p. eapply wb_ext.
    2: { eapply wb_fetch; [apply lookup_nth; lia|]. eapply wb_cons; [apply wb_store|].
         eapply wb_fetch; [apply lookup_nth; lia|]. eapply wb_cons; [apply wb_store|].
         eapply wb_fetch; [apply lookup_nth; lia|]. eapply wb_at; [|apply wb_store]. lia. }
    intros k Hk. destruct k as [|[|[|k]]]; simpl; first [done | lia]. }
  unfold cs_xdef_eval_vector_by_val.
  destruct elt_ids as [ids|], compact; apply selection_from_blocks; try done;
    intros i Hi; cbn [slot selected]; try apply Hblock.
  eapply wb_fetch; [by eapply selected_lookup|]. apply Hblock.
Qed.

Lemma tensor_by_val_selection (c : list R) :
  9 <= length c ->
  selection_fits 9 n elt_ids compact (length ev) ->
  wp (cs_xdef_eval_tensor_by_val n elt_ids compact c)
     (fun _ out => holds_selection 9 n elt_ids compact (fun _ k => nth k c 0%R) ev out) ev.
Proof.
  intros Hc Hfit. pose proof Hfit as [Hids _].
  assert (Hblock : forall p,
    writes_block
      (for_ 0 3 (fun ki => for_ 0 3 (fun kj =>
         x <- fetch c (3 * ki + kj) ;; store (p + (3 * ki + kj)) x)))
      p 9 (fun k => nth k c 0%R)).
  { intros p. eapply wb_ext.
    2: { apply (wb_for_blocks 3 3 _ p (fun ki kj => nth (3 * ki + kj) c 0%R)).
         intros ki Hki. apply wb_for. intros kj Hkj.
         eapply wb_fetch; [apply lookup_nth; lia|].
         eapply wb_at; [|apply wb_store]. lia. }
    intros k Hk. cbv beta. f_equal. pose proof (Nat.div_mod_eq k 3). lia. }
  unfold cs_xdef_eval_tensor_by_val.
  destruct elt_ids as [ids|], compact; apply selection_from_blocks; try done;
    intros i Hi; cbn [slot selected]; try apply Hblock.
  eapply wb_fetch; [by eapply selected_lookup|]. apply Hblock.
Qed.

Lemma scalar_at_cells_by_array_selection connect quant (input : cs_xdef_array_input_t) :
  bulk_ready (ScalarAtCellsByArray connect quant input) ->
  selection_fits 1 n elt_ids compact (length ev) ->
  (forall i, i < n ->
     bulk_readable (ScalarAtCellsByArray connect quant input) (selected elt_ids i)) ->
  wp (cs_xdef_eval_scalar_at_cells_by_array n elt_ids compact connect quant input)
     (fun _ out =>
        holds_selection 1 n elt_ids compact
          (bulk_value (ScalarAtCellsByArray connect quant input)) ev out) ev.
Proof.
  intros [Hs Hloc] Hfit Hrd. pose proof Hfit as [Hids Hslots].
  cbn [bulk_readable] in Hrd. rewrite Hs in Hrd.
  unfold cs_xdef_eval_scalar_at_cells_by_array, bulk_value.
  rewrite Hs. apply wp_bind, wp_assert; [done|].
  change (N.land (loc input) cs_flag_primal_cell =? cs_flag_primal_cell)%N
    with (cs_flag_test (loc input) cs_flag_primal_cell).
  change (N.land (loc input) cs_flag_primal_vtx =? cs_flag_primal_vtx)%N
    with (cs_flag_test (loc input) cs_flag_primal_vtx).
  destruct (cs_flag_test (loc input) cs_flag_primal_cell) eqn:Hcell.
  - destruct elt_ids as [ids|] eqn:Hopt; [destruct compact|].
    + apply selection_from_blocks; [done|]. intros i Hi. cbn [slot selected].
      eapply wb_fetch; [by eapply selected_lookup|].
      eapply wb_fetch; [apply lookup_nth; specialize (Hrd i Hi eq_refl); simpl in Hrd; lia|].
      eapply wb_at; [|apply wb_store]. lia.
    + apply selection_from_blocks; [done|]. intros i Hi. cbn [slot selected].
      eapply wb_fetch; [by eapply selected_lookup|].
      eapply wb_fetch; [apply lookup_nth; specialize (Hrd i Hi eq_refl); simpl in Hrd; lia|].
      eapply wb_at; [|apply wb_store]. lia.
    + eapply wp_mono.
      2: { replace n with (1 * n) at 1 by lia.
           apply (selection_from_memcpy 1 n (values input) compact ev).
           - destruct n as [|m]; [simpl; lia|].
             pose proof (Hslots m ltac:(lia)) as Hm. cbn [slot] in Hm. lia.
           - destruct n as [|m]; [simpl; lia|].
             pose proof (Hrd m ltac:(lia) eq_refl) as Hm. cbn [selected] in Hm. lia. }
      intros [] out Hsel. eapply holds_selection_ext; [|exact Hsel].
      intros i k Hi Hk. cbn [selected]. f_equal. lia.
  - destruct Hloc as [?|Hvtx]; [done|]. rewrite Hvtx.
    destruct elt_ids as [ids|], compact; apply selection_from_blocks; try done;
      intros i Hi; cbn [slot selected].
    + eapply wb_fetch; [by eapply selected_lookup|].
      eapply wb_at; [|apply wb_store]. lia.
    + eapply wb_fetch; [by eapply selected_lookup|].
      eapply wb_at; [|apply wb_store]. lia.
    + eapply wb_at; [|apply wb_store]. lia.
    + eapply wb_at; [|apply wb_store]. lia.
Qed.

Lemma nd_at_cells_by_array_selection connect quant (input : cs_xdef_array_input_t) :
  bulk_ready (NdAtCellsByArray connect quant input) ->
  selection_fits (stride input) n elt_ids compact (length ev) ->
  (forall i, i < n ->
     bulk_readable (NdAtCellsByArray connect quant input) (selected elt_ids i)) ->
  wp (cs_xdef_eval_nd_at_cells_by_array n elt_ids compact connect quant input)
     (fun _ out =>
        holds_selection (stride input) n elt_ids compact
          (bulk_value (NdAtCellsByArray connect quant input)) ev out) ev.
Proof.
  intros [Hs Hloc] Hfit Hrd. pose proof Hfit as [Hids Hslots].
  cbn [bulk_readable] in Hrd.
  unfold cs_xdef_eval_nd_at_cells_by_array, bulk_value.
  apply wp_bind, wp_assert; [by apply Nat.ltb_lt|].
  destruct (cs_flag_test (loc input) cs_flag_primal_cell) eqn:Hcell.
  - assert (Hblock : forall i p, i < n ->
      writes_block
        (for_ 0 (stride input) (fun k =>
           x <- fetch (values input) (stride input * selected elt_ids i + k) ;;
           store (p + k) x))
        p (stride input)
        (fun k => nth (stride input * selected elt_ids i + k) (values input) 0%R)).
    { intros i p Hi. apply wb_for. intros k Hk.
      eapply wb_fetch; [apply lookup_nth; specialize (Hrd i Hi eq_refl); lia|].
      apply wb_store. }
    destruct elt_ids as [ids|] eqn:Hopt; [destruct compact|].
    + apply selection_from_blocks; [done|]. intros i Hi. cbn [slot selected].
      eapply wb_fetch; [by eapply selected_lookup|]. by apply (Hblock i).
    + apply selection_from_blocks; [done|]. intros i Hi. cbn [slot selected].
      eapply wb_fetch; [by eapply selected_lookup|]. by apply (Hblock i).
    + apply (selection_from_memcpy (stride input) n (values input) compact ev).
      * destruct n as [|m]; [lia|].
        pose proof (Hslots m ltac:(lia)) as Hm. cbn [slot] in Hm. nia.
      * destruct n as [|m]; [lia|].
        pose proof (Hrd m ltac:(lia) eq_refl) as Hm. cbn [selected] in Hm. nia.
  - destruct Hloc as [?|(Hdual & Hs3 & Hidx)]; [done|]. rewrite Hdual.
    apply wp_bind, wp_assert; [by apply Nat.eqb_eq|].
    apply wp_bind, wp_assert; [by apply bool_decide_eq_true|].
    destruct elt_ids as [ids|], compact; apply selection_from_blocks; try done;
      intros i Hi; cbn [slot selected]; rewrite Hs3.
    + eapply wb_fetch; [by eapply selected_lookup|].
      eapply wb_at; [|apply wb_store3]. lia.
    + eapply wb_fetch; [by eapply selected_lookup|].
      eapply wb_at; [|apply wb_store3]. lia.
    + eapply wb_at; [|apply wb_store3]. lia.
    + eapply wb_at; [|apply wb_store3]. lia.
Qed.

End BulkSelection.

(** X11. Every bulk evaluator (constant scalar, vector or tensor, array of
    scalars or of blocks on cells), in each of its three addressing modes,
    returns; on return the output has its length, the block of element [i]
    (at [elt_ids[i]] with an id list and no compaction, at [i] otherwise)
    holds the value of the element [elt_ids[i]] (of [i] without an id list),
    and every real outside these blocks is what it was. *)
Theorem bulk_eval_fills_selection `{Collaborators} (d : bulk_definition)
    (n : nat) (elt_ids : option (list cs_lnum_t)) (compact : bool) (ev : list R) :
  bulk_ready d ->
  selection_fits (bulk_stride d) n elt_ids compact (length ev) ->
  (forall i, i < n -> bulk_readable d (selected elt_ids i)) ->
  exists out,
    bulk_eval d n elt_ids compact ev = Returns tt out /\
    holds_selection (bulk_stride d) n elt_ids compact (bulk_value d) ev out.
Proof.
  intros Hready Hfit Hrd.
  assert (Hwp : wp (bulk_eval d n elt_ids compact)
                   (fun _ out =>
                      holds_selection (bulk_stride d) n elt_ids compact (bulk_value d) ev out)
                   ev).
  { destruct d; cbn [bulk_eval bulk_stride] in *.
    - by apply scalar_by_val_selection.
    - by apply vector_by_val_selection.
    - by apply tensor_by_val_selection.
    - by apply scalar_at_cells_by_array_selection.
    - by apply nd_at_cells_by_array_selection. }
  apply wp_returns in Hwp as ([] & out & Hrun & Hsel). eauto.
Qed.

(** The theorem for the vector (1, 2, 3) stored for each of two cells and
    copied to an output of six reals without list of ids. *)
Lemma bulk_eval_fills_selection_witness :
  exists out,
    @bulk_eval sample (NdAtCellsByArray no_connect two_cells same_vector_on_two_cells)
      2 None false (replicate 6 0%R) = Returns tt out /\
    holds_selection 3 2 None false
      (@bulk_value sample (NdAtCellsByArray no_connect two_cells same_vector_on_two_cells))
      (replicate 6 0%R) out.
Proof.
  apply (@bulk_eval_fills_selection sample
           (NdAtCellsByArray no_connect two_cells same_vector_on_two_cells)
           2 None false (replicate 6 0%R)).
  - split; [simpl; lia | left; reflexivity].
  - split; [done|]. intros i Hi. simpl. lia.
  - intros i Hi _. simpl. lia.
Defined.

(** ** Arrays on vertices and fields *)

Lemma wb_copy (vals : list R) a p s :
  a + s <= length vals ->
  writes_block
    (for_ 0 s (fun k => x <- fetch vals (a + k) ;; store (p + k) x))
    p s (fun k => nth (a + k) vals 0%R).
Proof.
  intros Ha. apply wb_for. intros k Hk.
  eapply wb_fetch; [apply lookup_nth; lia|]. apply wb_store.
Qed.

Lemma wp_returns_unit (m : M unit) (Q : list R -> Prop) ev :
  wp m (fun _ ev' => Q ev') ev -> exists out, m ev = Returns tt out /\ Q out.
Proof. intros Hwp. apply wp_returns in Hwp as ([] & out & Hrun & HQ). eauto. Qed.

(** X12. On an array located at the vertices,
    [cs_xdef_eval_at_vertices_by_array] returns in each of its three
    addressing modes; the block of element [i] holds the [stride] values
    the array stores for the vertex [elt_ids[i]] (for [i] without an id
    list), and the rest of the output is what it was. *)
Theorem at_vertices_by_array_fills_selection `{Collaborators}
    (n : nat) (elt_ids : option (list cs_lnum_t)) (compact : bool)
    (input : cs_xdef_array_input_t) (ev : list R) :
  cs_flag_test (loc input) cs_flag_primal_vtx = true ->
  selection_fits (stride input) n elt_ids compact (length ev) ->
  (forall i, i < n ->
     stride input * selected elt_ids i + stride input <= length (values input)) ->
  exists out,
    cs_xdef_eval_at_vertices_by_array n elt_ids compact input ev = Returns tt out /\
    holds_selection (stride input) n elt_ids compact (vertex_array_value input) ev out.
Proof.
  intros Hloc Hfit Hrd. pose proof Hfit as [Hids Hslots].
  apply wp_returns_unit.
  unfold cs_xdef_eval_at_vertices_by_array, vertex_array_value. rewrite Hloc.
  destruct elt_ids as [ids|] eqn:Hopt; [destruct compact|].
  - destruct (decide (stride input = 1)) as [Hs|Hs].
    + rewrite Hs in *. apply selection_from_blocks; [done|].
      intros i Hi. cbn [slot selected].
      eapply wb_fetch; [by eapply selected_lookup|].
      eapply wb_fetch; [apply lookup_nth; specialize (Hrd i Hi); simpl in Hrd; lia|].
      eapply wb_at; [|eapply wb_ext; [|apply wb_store]].
      * lia.
      * intros k Hk. cbv beta. f_equal. simpl. lia.
    + assert (Hgen : wp
        (for_ 0 n (fun i =>
           for_ 0 (stride input) (fun j =>
             v_id <- fetch ids i ;;
             x <- fetch (values input) (stride input * v_id + j) ;;
             store (stride input * i + j) x)))
        (fun _ out =>
           holds_selection (stride input) n (Some ids) true
             (fun id k => nth (stride input * id + k) (values input) 0%R) ev out) ev).
      { apply selection_from_blocks; [done|].
        intros i Hi. cbn [slot selected].
        apply wb_for. intros k Hk.
        eapply wb_fetch; [by eapply selected_lookup|].
        eapply wb_fetch; [apply lookup_nth; specialize (Hrd i Hi); simpl in Hrd; lia|].
        apply wb_store. }
      destruct (stride input) as [|[|s]]; [exact Hgen | done | exact Hgen].
  - destruct (decide (stride input = 1)) as [Hs|Hs].
    + rewrite Hs in *. apply selection_from_blocks; [done|].
      intros i Hi. cbn [slot selected].
      eapply wb_fetch; [by eapply selected_lookup|].
      eapply wb_fetch; [apply lookup_nth; specialize (Hrd i Hi); simpl in Hrd; lia|].
      eapply wb_at; [|eapply wb_ext; [|apply wb_store]].
      * lia.
      * intros k Hk. cbv beta. f_equal. simpl. lia.
    + assert (Hgen : wp
        (for_ 0 n (fun i =>
           v_id <- fetch ids i ;;
           for_ 0 (stride input) (fun j =>
             x <- fetch (values input) (stride input * v_id + j) ;;
             store (stride input * v_id + j) x)))
        (fun _ out =>
           holds_selection (stride input) n (Some ids) false
             (fun id k => nth (stride input * id + k) (values input) 0%R) ev out) ev).
      { apply selection_from_blocks; [done|].
        intros i Hi. cbn [slot selected].
        eapply wb_fetch; [by eapply selected_lookup|].
        apply wb_copy. by specialize (Hrd i Hi). }
      destruct (stride input) as [|[|s]]; [exact Hgen | done | exact Hgen].
  - rewrite (Nat.mul_comm n).
    apply (selection_from_memcpy (stride input) n (values input) compact ev).
    + destruct n as [|m]; [lia|].
      pose proof (Hslots m ltac:(lia)) as Hm. cbn [slot] in Hm. nia.
    + destruct n as [|m]; [lia|].
      pose proof (Hrd m ltac:(lia)) as Hm. cbn [selected] in Hm. nia.
Qed.

(** The theorem for two reals per vertex, the vertices 2 and 0 being copied
    to the compacted output. *)
Lemma at_vertices_by_array_fills_selection_witness :
  exists out,
    @cs_xdef_eval_at_vertices_by_array sample 2 (Some [2; 0]) true vertex_pairs
      (replicate 4 0%R) = Returns tt out /\
    holds_selection 2 2 (Some [2; 0]) true (vertex_array_value vertex_pairs)
      (replicate 4 0%R) out.
Proof.
  apply (@at_vertices_by_array_fills_selection sample 2 (Some [2; 0]) true vertex_pairs
           (replicate 4 0%R)).
  - reflexivity.
  - split; [simpl; lia|]. intros i Hi. simpl. lia.
  - intros i Hi. destruct i as [|[|i]]; simpl; lia.
Defined.

(** X13. On a field located at the cells, or a field of dimension 1
    located at the vertices, [cs_xdef_eval_cell_by_field] returns in each of
    its three addressing modes; the block of element [i] holds the values
    of the field for the cell [elt_ids[i]] (for [i] without an id list):
    the stored ones, or the reconstruction at the cell center from the
    vertices; the rest of the output is what it was. *)
Theorem cell_by_field_fills_selection `{Collaborators}
    (n : nat) (elt_ids : option (list cs_lnum_t)) (compact : bool)
    (connect : cs_cdo_connect_t) (quant : cs_cdo_quantities_t)
    (field : cs_field_t) (ev : list R) :
  field_ready field ->
  selection_fits (dim field) n elt_ids compact (length ev) ->
  (forall i, i < n -> field_readable field (selected elt_ids i)) ->
  exists out,
    cs_xdef_eval_cell_by_field n elt_ids compact connect quant field ev = Returns tt out /\
    holds_selection (dim field) n elt_ids compact (field_value connect quant field) ev out.
Proof.
  intros Hready Hfit Hrd. pose proof Hfit as [Hids Hslots].
  apply wp_returns_unit.
  unfold cs_xdef_eval_cell_by_field, field_value, field_readable in *.
  destruct (Z.eqb_spec (location_id field) (cs_mesh_location_get_id_by_name "cells"))
    as [Hc|Hc].
  - destruct elt_ids as [ids|] eqn:Hopt; [destruct compact|].
    + apply selection_from_blocks; [done|]. intros i Hi. cbn [slot selected].
      eapply wb_fetch; [by eapply selected_lookup|].
      apply wb_copy. by apply (Hrd i Hi).
    + apply selection_from_blocks; [done|]. intros i Hi. cbn [slot selected].
      eapply wb_fetch; [by eapply selected_lookup|].
      apply wb_copy. by apply (Hrd i Hi).
    + apply (selection_from_memcpy (dim field) n (val field) compact ev).
      * destruct n as [|m]; [lia|].
        pose proof (Hslots m ltac:(lia)) as Hm. cbn [slot] in Hm. nia.
      * destruct n as [|m]; [lia|].
        pose proof (Hrd m ltac:(lia) Hc) as Hm. cbn [selected] in Hm. nia.
  - destruct Hready as [?|[Hv Hdim]]; [done|].
    rewrite Hv, Z.eqb_refl, Hdim in *.
    apply wp_bind, wp_assert; [done|].
    destruct elt_ids as [ids|], compact; apply selection_from_blocks; try done;
      intros i Hi; cbn [slot selected].
    + eapply wb_fetch; [by eapply selected_lookup|].
      eapply wb_at; [|apply wb_store]. lia.
    + eapply wb_fetch; [by eapply selected_lookup|].
      eapply wb_at; [|apply wb_store]. lia.
    + eapply wb_at; [|apply wb_store]. lia.
    + eapply wb_at; [|apply wb_store]. lia.
Qed.

(** The theorem for a field of two components on three cells, the cells 2
    and 0 being copied to their own slots. *)
Lemma cell_by_field_fills_selection_witness :
  exists out,
    @cs_xdef_eval_cell_by_field sample 2 (Some [2; 0]) false no_connect ten_cells cell_pairs
      (replicate 6 0%R) = Returns tt out /\
    holds_selection 2 2 (Some [2; 0]) false
      (@field_value sample no_connect ten_cells cell_pairs) (replicate 6 0%R) out.
Proof.
  apply (@cell_by_field_fills_selection sample 2 (Some [2; 0]) false no_connect ten_cells
           cell_pairs (replicate 6 0%R)).
  - left. reflexivity.
  - split; [simpl; lia|]. intros i Hi. destruct i as [|[|i]]; simpl; lia.
  - intros i Hi _. destruct i as [|[|i]]; simpl; lia.
Defined.

(** ** Cellwise evaluators and bulk evaluators *)

Lemma bind_ext {A B} (m : M A) (k k' : A -> M B) ev :
  (forall a ev', k a ev' = k' a ev') -> bind m k ev = bind m k' ev.
Proof. intros Hk. unfold bind. destruct (m ev); [apply Hk | done | done]. Qed.

Lemma for_one (body : nat -> M unit) ev : for_ 0 1 body ev = body 0 ev.
Proof.
  unfold for_, for_acc. simpl. unfold bind, ret. by destruct (body 0 ev) as [[] ?| |].
Qed.

Lemma for_from_ext {T} k (body body' : nat -> T -> M T) :
  (forall i acc ev, body i acc ev = body' i acc ev) ->
  forall i acc ev, for_from k i body acc ev = for_from k i body' acc ev.
Proof.
  intros Hbody. induction k as [|k IH]; intros i acc ev; [done|].
  simpl. unfold bind. rewrite Hbody. destruct (body' i acc ev); [apply IH | done | done].
Qed.

Lemma for_ext lo hi (body body' : nat -> M unit) ev :
  (forall i ev, body i ev = body' i ev) -> for_ lo hi body ev = for_ lo hi body' ev.
Proof. intros Hbody. apply for_from_ext. intros i _. apply Hbody. Qed.

(** X14. A cellwise evaluator by value is the bulk evaluator by value run
    for one element without list of ids: for every constant and every
    output array, [cs_xdef_eval_cw_scalar_by_val],
    [cs_xdef_eval_cw_vector_by_val] and [cs_xdef_eval_cw_tensor_by_val] have
    the outcome of [cs_xdef_eval_scalar_by_val], [cs_xdef_eval_vector_by_val]
    and [cs_xdef_eval_tensor_by_val] with [n_elts = 1]. *)
Theorem cw_by_val_is_bulk_of_one_element (compact : bool) (input ev : list R) :
  cs_xdef_eval_scalar_by_val 1 None compact input ev
    = cs_xdef_eval_cw_scalar_by_val input ev /\
  cs_xdef_eval_vector_by_val 1 None compact input ev
    = cs_xdef_eval_cw_vector_by_val input ev /\
  cs_xdef_eval_tensor_by_val 1 None compact input ev
    = cs_xdef_eval_cw_tensor_by_val input ev.
Proof.
  split_and!.
  - unfold cs_xdef_eval_scalar_by_val, cs_xdef_eval_cw_scalar_by_val.
    destruct compact; apply for_one.
  - unfold cs_xdef_eval_vector_by_val, cs_xdef_eval_cw_vector_by_val.
    destruct compact; apply for_one.
  - unfold cs_xdef_eval_tensor_by_val, cs_xdef_eval_cw_tensor_by_val.
    destruct compact; apply for_one.
Qed.

(** X15. On values located at the cells, a cellwise evaluator is the bulk
    evaluator run for the cell of the cell mesh with a compacted output:
    for every output array, [cs_xdef_eval_cw_cell_by_array] has the outcome
    of [cs_xdef_eval_scalar_at_cells_by_array] (stride 1) and of
    [cs_xdef_eval_nd_at_cells_by_array] (stride above 1), and
    [cs_xdef_eval_cw_cell_by_field] has the outcome of
    [cs_xdef_eval_cell_by_field], each called with [n_elts = 1],
    [elt_ids = {c_id}] and [compact = true]. *)
Theorem cw_cell_is_bulk_of_one_cell `{Collaborators}
    (cm : cs_cell_mesh_t) (connect : cs_cdo_connect_t) (quant : cs_cdo_quantities_t)
    (input : cs_xdef_array_input_t) (field : cs_field_t) (ev : list R) :
  (cs_flag_test (loc input) cs_flag_primal_cell = true ->
   (stride input = 1 ->
    cs_xdef_eval_scalar_at_cells_by_array 1 (Some [c_id cm]) true connect quant input ev
      = cs_xdef_eval_cw_cell_by_array cm input ev) /\
   (1 < stride input ->
    cs_xdef_eval_nd_at_cells_by_array 1 (Some [c_id cm]) true connect quant input ev
      = cs_xdef_eval_cw_cell_by_array cm input ev)) /\
  (location_id field = cs_mesh_location_get_id_by_name "cells" ->
   cs_xdef_eval_cell_by_field 1 (Some [c_id cm]) true connect quant field ev
     = cs_xdef_eval_cw_cell_by_field cm field ev).
Proof.
  split; [intros Hcell; split; intros Hs|intros Hloc].
  - unfold cs_xdef_eval_scalar_at_cells_by_array, cs_xdef_eval_cw_cell_by_array.
    unfold cs_flag_test in *. rewrite Hcell, Hs.
    unfold bind at 1. cbn [assert Nat.eqb ret].
    rewrite !for_one. unfold bind at 1. cbn [fetch lookup list_lookup ret].
    replace (1 * c_id cm + 0) with (c_id cm) by lia. done.
  - unfold cs_xdef_eval_nd_at_cells_by_array, cs_xdef_eval_cw_cell_by_array.
    rewrite Hcell. apply Nat.ltb_lt in Hs. rewrite Hs.
    unfold bind at 1. cbn [assert ret].
    rewrite for_one. unfold bind at 1. cbn [fetch lookup list_lookup ret].
    apply for_ext. intros k ev'. by rewrite Nat.mul_0_r.
  - unfold cs_xdef_eval_cell_by_field, cs_xdef_eval_cw_cell_by_field.
    rewrite Hloc, Z.eqb_refl.
    rewrite for_one. unfold bind at 1. cbn [fetch lookup list_lookup ret].
    apply for_ext. intros k ev'. by rewrite Nat.mul_0_r.
Qed.

(** The theorem for the cell 0, the vector stored for it by an array and
    the two reals stored for it by a field. *)
Lemma cw_cell_is_bulk_of_one_cell_witness :
  @cs_xdef_eval_nd_at_cells_by_array sample 1 (Some [c_id unit_square_cell]) true
    no_connect ten_cells one_cell_vector [0; 0; 0]%R
    = @cs_xdef_eval_cw_cell_by_array sample unit_square_cell one_cell_vector [0; 0; 0]%R /\
  @cs_xdef_eval_cell_by_field sample 1 (Some [c_id unit_square_cell]) true
    no_connect ten_cells cell_pairs [0; 0; 0]%R
    = @cs_xdef_eval_cw_cell_by_field sample unit_square_cell cell_pairs [0; 0; 0]%R.
Proof.
  destruct (@cw_cell_is_bulk_of_one_cell sample unit_square_cell no_connect ten_cells
              one_cell_vector cell_pairs [0; 0; 0]%R) as [Harray Hfield].
  destruct (Harray eq_refl) as [_ Hnd].
  split; [apply Hnd; simpl; lia | apply Hfield; reflexivity].
Defined.

(** ** One cell vector for a set of points *)

(** X16. [cs_xdef_eval_cw_3_at_xyz_by_field] on a field of dimension 3
    located at the cells, and [cs_xdef_eval_cw_3_at_xyz_by_array] on an
    array located at the dual faces by cell, return and store the vector of
    the cell (the stored one, the one reconstructed by
    [cs_reco_dfbyc_in_cell]) for each of the [n_points] points, component [k]
    of the point [i] at [eval[3*i+k]]; the rest of the output is what it
    was. *)
Theorem cw_3_at_xyz_fills_every_point `{Collaborators}
    (cm : cs_cell_mesh_t) (n_points : nat) (field : cs_field_t)
    (input : cs_xdef_array_input_t) (ev : list R) :
  3 * n_points <= length ev ->
  (forall vec : cs_real_3_t,
     dim field = 3 ->
     location_id field = cs_mesh_location_get_id_by_name "cells" ->
     (forall k, k < 3 -> val field !! (3 * c_id cm + k) = Some (comp vec k)) ->
     exists out,
       cs_xdef_eval_cw_3_at_xyz_by_field cm n_points field ev = Returns tt out /\
       holds_selection 3 n_points None true (fun _ k => comp vec k) ev out) /\
  (forall (shifts : list nat) (shift : nat),
     cs_flag_test (loc input) cs_flag_primal_cell = false ->
     cs_flag_test (loc input) cs_flag_primal_vtx = false ->
     cs_flag_test (loc input) cs_flag_dual_face_byc = true ->
     index input = Some shifts ->
     shifts !! c_id cm = Some shift ->
     exists out,
       cs_xdef_eval_cw_3_at_xyz_by_array cm n_points input ev = Returns tt out /\
       holds_selection 3 n_points None true
         (fun _ k => comp (cs_reco_dfbyc_in_cell cm (drop shift (values input))) k) ev out).
Proof.
  intros Hlen.
  assert (Hfit : selection_fits 3 n_points None true (length ev)).
  { split; [done|]. intros i Hi. cbn [slot]. lia. }
  split.
  - intros [[x y] z] Hdim Hloc Hval. apply wp_returns_unit.
    unfold cs_xdef_eval_cw_3_at_xyz_by_field. rewrite Hdim, Hloc, Z.eqb_refl.
    apply wp_bind, wp_assert; [done|].
    apply wp_bind, (wp_fetch3 _ _ x y z).
    + rewrite <- (Nat.add_0_r (3 * c_id cm)). apply (Hval 0). lia.
    + apply (Hval 1). lia.
    + apply (Hval 2). lia.
    + apply selection_from_blocks; [done|]. intros i Hi. cbn [slot selected].
      exact (wb_store3 (3 * i) (x, y, z)).
  - intros idx shift Hcell Hvtx Hdual Hidx Hshift. apply wp_returns_unit.
    unfold cs_xdef_eval_cw_3_at_xyz_by_array. rewrite Hcell, Hvtx, Hdual, Hidx.
    apply wp_bind, (wp_fetch _ _ shift); [done|].
    apply selection_from_blocks; [done|]. intros i Hi. cbn [slot selected].
    exact (wb_store3 (3 * i) _).
Qed.

(** The theorem for two points of the cell 0. *)
Lemma cw_3_at_xyz_fills_every_point_witness :
  (exists out,
     @cs_xdef_eval_cw_3_at_xyz_by_field sample unit_square_cell 2 cell_triple
       (replicate 6 0%R) = Returns tt out /\
     holds_selection 3 2 None true (fun _ k => comp (1, 2, 3)%R k) (replicate 6 0%R) out) /\
  (exists out,
     @cs_xdef_eval_cw_3_at_xyz_by_array sample unit_square_cell 2 dual_face_fluxes
       (replicate 6 0%R) = Returns tt out /\
     holds_selection 3 2 None true
       (fun _ k =>
          comp (@cs_reco_dfbyc_in_cell sample unit_square_cell
                  (drop 0 (values dual_face_fluxes))) k)
       (replicate 6 0%R) out).
Proof.
  destruct (@cw_3_at_xyz_fills_every_point sample unit_square_cell 2 cell_triple
              dual_face_fluxes (replicate 6 0%R)) as [Hfield Harray].
  - simpl. lia.
  - split.
    + apply (Hfield (1, 2, 3)%R); [reflexivity | reflexivity |].
      intros k Hk. destruct k as [|[|[|k]]]; [reflexivity | reflexivity | reflexivity | lia].
    + apply (Harray [0; 3] 0); reflexivity.
Defined.

(** ** More fatal errors *)

(** X17. An array whose support is neither the cells nor the dual faces by
    cell makes [cs_xdef_eval_nd_at_cells_by_array] (stride above 1) and
    [cs_xdef_eval_3_at_all_vertices_by_array] (called for all the vertices)
    stop on a fatal error, and so do [cs_xdef_eval_cw_cell_by_array] and
    [cs_xdef_eval_cw_3_at_xyz_by_array] when the support is not the vertices
    either; the output array is left as it was. *)
Theorem unhandled_array_support_is_fatal `{Collaborators}
    (n_elts : cs_lnum_t) (elt_ids : option (list cs_lnum_t)) (compact : bool)
    (connect : cs_cdo_connect_t) (quant : cs_cdo_quantities_t)
    (cm : cs_cell_mesh_t) (n_points : cs_lnum_t)
    (input : cs_xdef_array_input_t) (ev : list R) :
  cs_flag_test (loc input) cs_flag_primal_cell = false ->
  cs_flag_test (loc input) cs_flag_dual_face_byc = false ->
  (1 < stride input ->
   cs_xdef_eval_nd_at_cells_by_array n_elts elt_ids compact connect quant input ev
     = Aborts " cs_xdef_eval_nd_at_cells_by_array: Invalid case for the input array" ev) /\
  (n_vertices quant <= n_elts ->
   cs_xdef_eval_3_at_all_vertices_by_array n_elts None compact connect quant input ev
     = Aborts " cs_xdef_eval_3_at_all_vertices_by_array: Invalid case for the input array"
         ev) /\
  (cs_flag_test (loc input) cs_flag_primal_vtx = false ->
   cs_xdef_eval_cw_cell_by_array cm input ev
     = Aborts " cs_xdef_eval_cw_cell_by_array: Invalid support for the input array" ev /\
   cs_xdef_eval_cw_3_at_xyz_by_array cm n_points input ev
     = Aborts " cs_xdef_eval_cw_3_at_xyz_by_array: Invalid support for the input array" ev).
Proof.
  intros Hcell Hdual. split_and!.
  - intros Hs. unfold cs_xdef_eval_nd_at_cells_by_array.
    apply Nat.ltb_lt in Hs. rewrite Hs, Hcell, Hdual. reflexivity.
  - intros Hn. unfold cs_xdef_eval_3_at_all_vertices_by_array.
    apply Nat.ltb_ge in Hn. rewrite Hn, Hcell, Hdual.
    rewrite bool_decide_eq_false_2 by (intros Hne; by apply Hne). reflexivity.
  - intros Hvtx. split.
    + unfold cs_xdef_eval_cw_cell_by_array. by rewrite Hcell, Hvtx, Hdual.
    + unfold cs_xdef_eval_cw_3_at_xyz_by_array. by rewrite Hcell, Hvtx, Hdual.
Qed.

Lemma unhandled_array_support_is_fatal_witness :
  @cs_xdef_eval_nd_at_cells_by_array sample 1 None false no_connect ten_cells
    vertex_pairs [0; 0]%R
    = Aborts " cs_xdef_eval_nd_at_cells_by_array: Invalid case for the input array"
        [0; 0]%R /\
  @cs_xdef_eval_3_at_all_vertices_by_array sample 0 None false no_connect ten_cells
    vertex_pairs [0; 0]%R
    = Aborts " cs_xdef_eval_3_at_all_vertices_by_array: Invalid case for the input array"
        [0; 0]%R.
Proof.
  destruct (@unhandled_array_support_is_fatal sample 1 None false no_connect ten_cells
              unit_square_cell 1 vertex_pairs [0; 0]%R) as (Hnd & _ & _);
    [reflexivity | reflexivity |].
  destruct (@unhandled_array_support_is_fatal sample 0 None false no_connect ten_cells
              unit_square_cell 1 vertex_pairs [0; 0]%R) as (_ & Hall & _);
    [reflexivity | reflexivity |].
  split; [apply Hnd; simpl; lia | apply Hall; simpl; lia].
Defined.

(** X18. A field that is located neither at the cells nor at the vertices
    makes [cs_xdef_eval_cell_by_field], [cs_xdef_eval_cw_cell_by_field] and
    (for a field of dimension 3) [cs_xdef_eval_cw_3_at_xyz_by_field] stop on
    a fatal error; the output array is left as it was. *)
Theorem unhandled_field_location_is_fatal `{Collaborators}
    (n_elts : cs_lnum_t) (elt_ids : option (list cs_lnum_t)) (compact : bool)
    (connect : cs_cdo_connect_t) (quant : cs_cdo_quantities_t)
    (cm : cs_cell_mesh_t) (n_points : cs_lnum_t)
    (field : cs_field_t) (ev : list R) :
  location_id field <> cs_mesh_location_get_id_by_name "cells" ->
  location_id field <> cs_mesh_location_get_id_by_name "vertices" ->
  cs_xdef_eval_cell_by_field n_elts elt_ids compact connect quant field ev
    = Aborts " cs_xdef_eval_cell_by_field: Invalid case for the input array" ev /\
  cs_xdef_eval_cw_cell_by_field cm field ev
    = Aborts " cs_xdef_eval_cw_cell_by_field: Invalid support for the input array" ev /\
  (dim field = 3 ->
   cs_xdef_eval_cw_3_at_xyz_by_field cm n_points field ev
     = Aborts " cs_xdef_eval_cw_3_at_xyz_by_field: Invalid support for the input array" ev).
Proof.
  intros Hc Hv. apply Z.eqb_neq in Hc, Hv. split_and!.
  - unfold cs_xdef_eval_cell_by_field. by rewrite Hc, Hv.
  - unfold cs_xdef_eval_cw_cell_by_field. by rewrite Hc, Hv.
  - intros Hdim. unfold cs_xdef_eval_cw_3_at_xyz_by_field.
    rewrite Hdim, Hc, Hv. reflexivity.
Qed.

Lemma unhandled_field_location_is_fatal_witness :
  @cs_xdef_eval_cell_by_field sample 1 None false no_connect ten_cells face_field [0; 0; 0]%R
    = Aborts " cs_xdef_eval_cell_by_field: Invalid case for the input array" [0; 0; 0]%R /\
  @cs_xdef_eval_cw_cell_by_field sample unit_square_cell face_field [0; 0; 0]%R
    = Aborts " cs_xdef_eval_cw_cell_by_field: Invalid support for the input array"
        [0; 0; 0]%R /\
  @cs_xdef_eval_cw_3_at_xyz_by_field sample unit_square_cell 1 face_field [0; 0; 0]%R
    = Aborts " cs_xdef_eval_cw_3_at_xyz_by_field: Invalid support for the input array"
        [0; 0; 0]%R.
Proof.
  destruct (@unhandled_field_location_is_fatal sample 1 None false no_connect ten_cells
              unit_square_cell 1 face_field [0; 0; 0]%R) as (Hbulk & Hcell & Hxyz);
    [simpl; lia | simpl; lia |].
  split_and!; [exact Hbulk | exact Hcell | apply Hxyz; reflexivity].
Defined.

(** X19. [cs_xdef_eval_avg_at_b_faces_by_analytic] stops on a fatal error
    before any access to the output when the dimension of the function is
    neither 1 nor 3, and when the dimension is 1 or 3 and the quadrature is
    [CS_QUADRATURE_NONE] (or is not a quadrature type); with the types
    [CS_QUADRATURE_BARY] to [CS_QUADRATURE_HIGHEST] and no face to visit it
    returns the output as it was. *)
Theorem avg_at_b_faces_errors `{Collaborators}
    (n_elts : cs_lnum_t) (elt_ids : option (list cs_lnum_t)) (compact : bool)
    (connect : cs_cdo_connect_t) (quant : cs_cdo_quantities_t)
    (ts : cs_time_step_t) (input : cs_analytic_func_t)
    (qtype : cs_quadrature_type_t) (dim : nat) (ev : list R) :
  (dim <> 1 -> dim <> 3 ->
   cs_xdef_eval_avg_at_b_faces_by_analytic n_elts elt_ids compact connect quant ts input
     qtype dim ev
     = Aborts (" Invalid dimension of the analytical fucntion." ++ newline) ev) /\
  (dim = 1 \/ dim = 3 ->
   qtype = CS_QUADRATURE_NONE \/ qtype = CS_QUADRATURE_N_TYPES ->
   cs_xdef_eval_avg_at_b_faces_by_analytic n_elts elt_ids compact connect quant ts input
     qtype dim ev
     = Aborts ("Invalid quadrature type." ++ newline) ev) /\
  (dim = 1 \/ dim = 3 ->
   qtype <> CS_QUADRATURE_NONE -> qtype <> CS_QUADRATURE_N_TYPES ->
   cs_xdef_eval_avg_at_b_faces_by_analytic 0 (Some []) compact connect quant ts input
     qtype dim ev
     = Returns tt ev).
Proof.
  split_and!.
  - intros H1 H3. unfold cs_xdef_eval_avg_at_b_faces_by_analytic.
    destruct dim as [|[|[|[|dim]]]]; done.
  - intros [->| ->] [->| ->]; reflexivity.
  - intros [->| ->] Hn Ht; destruct qtype; done.
Qed.

Lemma avg_at_b_faces_errors_witness :
  @cs_xdef_eval_avg_at_b_faces_by_analytic sample 1 None false two_triangles_connect
    two_triangles time_zero constant_five CS_QUADRATURE_BARY 2 [0; 0]%R
    = Aborts (" Invalid dimension of the analytical fucntion." ++ newline) [0; 0]%R /\
  @cs_xdef_eval_avg_at_b_faces_by_analytic sample 1 None false two_triangles_connect
    two_triangles time_zero constant_five CS_QUADRATURE_NONE 1 [0; 0]%R
    = Aborts ("Invalid quadrature type." ++ newline) [0; 0]%R /\
  @cs_xdef_eval_avg_at_b_faces_by_analytic sample 0 (Some []) false two_triangles_connect
    two_triangles time_zero constant_five CS_QUADRATURE_HIGHEST 3 [0; 0]%R
    = Returns tt [0; 0]%R.
Proof.
  split_and!.
  - apply (@avg_at_b_faces_errors sample 1 None false two_triangles_connect
             two_triangles time_zero constant_five CS_QUADRATURE_BARY 2 [0; 0]%R); lia.
  - apply (@avg_at_b_faces_errors sample 1 None false two_triangles_connect
             two_triangles time_zero constant_five CS_QUADRATURE_NONE 1 [0; 0]%R);
      [left; reflexivity | left; reflexivity].
  - apply (@avg_at_b_faces_errors sample 0 None false two_triangles_connect
             two_triangles time_zero constant_five CS_QUADRATURE_HIGHEST 3 [0; 0]%R);
      [right; reflexivity | discriminate | discriminate].
Defined.

(** ** Fluxes by analytic function *)

Lemma fetch_some {T B} (l : list T) i x (k : T -> M B) ev :
  l !! i = Some x -> bind (fetch l i) k ev = k x ev.
Proof. intros Hx. unfold bind, fetch. by rewrite Hx. Qed.

Lemma fetch3_some {B} (l : list R) off v (k : cs_real_3_t -> M B) ev :
  lookup3 l off = Some v -> bind (fetch3 l off) k ev = k v ev.
Proof.
  unfold lookup3. intros Hv.
  destruct (l !! off) as [x|] eqn:Hx; [|done].
  destruct (l !! (off + 1)) as [y|] eqn:Hy; [|done].
  destruct (l !! (off + 2)) as [z|] eqn:Hz; [|done].
  injection Hv as <-. unfold fetch3, bind, fetch. by rewrite Hx, Hy, Hz.
Qed.

(** A loop whose iterations add to one position of the output. *)
Lemma for_add_to lo hi (body : nat -> M unit) p (term : nat -> R) x ev :
  lo <= hi ->
  ev !! p = Some x ->
  (forall j ev', lo <= j < hi -> body j ev' = add_to p (term j) ev') ->
  for_ lo hi body ev = Returns tt (<[p := (x + Rsum_range term lo hi)%R]> ev).
Proof.
  intros Hle Hx Hbody.
  assert (Hp : p < length ev) by (by eapply lookup_lt_Some).
  destruct (wp_returns_unit (for_ lo hi body)
              (fun out => out = <[p := (x + Rsum_range term lo hi)%R]> ev) ev)
    as (out & Hrun & ->); [|done].
  apply (wp_for (fun j ev' => ev' = <[p := (x + Rsum_range term lo j)%R]> ev)); [done | |].
  - rewrite Rsum_range_empty, Rplus_0_r. symmetry. by apply list_insert_id.
  - intros j ev' Hj ->. unfold wp. rewrite Hbody by done.
    change (wp (add_to p (term j))
              (fun _ out => out = <[p := (x + Rsum_range term lo (S j))%R]> ev)
              (<[p := (x + Rsum_range term lo j)%R]> ev)).
    eapply wp_add_to; [by apply list_lookup_insert_eq|].
    rewrite list_insert_insert_eq, Rsum_range_snoc by lia. f_equal. lra.
Qed.

(** X20. With the quadratures [CS_QUADRATURE_BARY_SUBDIV] and
    [CS_QUADRATURE_HIGHER], [cs_xdef_eval_cw_flux_by_analytic] returns and
    modifies [eval[f]] only; with the former [eval[f]] ends as its former
    content plus the sum of the terms of the edges of the face, with the
    latter as the sum of the terms alone ([eval[f]] is reset first). *)
Theorem flux_by_analytic_sums_edge_terms `{Collaborators}
    (cm : cs_cell_mesh_t) (f : nat) (ts : cs_time_step_t) (anai : cs_analytic_vect_t)
    (qtype : cs_quadrature_type_t) (lo hi : nat) (x : R) (ev : list R) :
  qtype = CS_QUADRATURE_BARY_SUBDIV \/ qtype = CS_QUADRATURE_HIGHER ->
  (qtype = CS_QUADRATURE_BARY_SUBDIV -> cs_flag_test (flag cm) ev_fe_feq = true) ->
  is_Some (face cm !! f) ->
  f2e_idx cm !! f = Some lo ->
  f2e_idx cm !! (f + 1) = Some hi ->
  lo <= hi ->
  (forall i, lo <= i < hi -> is_Some (flux_edge_term cm f ts anai qtype i)) ->
  ev !! f = Some x ->
  cs_xdef_eval_cw_flux_by_analytic cm f ts anai qtype ev
    = Returns tt
        (<[f := (flux_start qtype x
                 + Rsum_range (fun i => default 0%R (flux_edge_term cm f ts anai qtype i))
                     lo hi)%R]> ev).
Proof.
  intros Hq Hflag [fq Hfq] Hlo Hhi Hle Hterms Hx.
  assert (Hf : f < length ev) by (by eapply lookup_lt_Some).
  unfold cs_xdef_eval_cw_flux_by_analytic.
  destruct Hq as [-> | ->]; cbn [flux_start].
  - unfold bind at 1. rewrite (Hflag eq_refl). cbn [assert ret].
    rewrite (fetch_some _ _ _ _ _ Hfq), (fetch_some _ _ _ _ _ Hlo),
      (fetch_some _ _ _ _ _ Hhi).
    apply for_add_to; [done | done |].
    intros i ev' Hi. destruct (Hterms i Hi) as [t Ht].
    rewrite Ht. cbn [default]. revert Ht.
    unfold flux_edge_term, face_edge. rewrite Hfq.
    destruct (f2e_ids cm !! i) as [e|] eqn:He; [|done].
    destruct (e2v_ids cm !! (2 * e)) as [v1|] eqn:Hv1; [|done].
    destruct (e2v_ids cm !! (2 * e + 1)) as [v2|] eqn:Hv2; [|done].
    destruct (lookup3 (xv cm) (3 * v1)) as [xv1|] eqn:Hxv1; [|done].
    destruct (lookup3 (xv cm) (3 * v2)) as [xv2|] eqn:Hxv2; [|done].
    destruct (tef cm !! i) as [tef_i|] eqn:Htef; [|done].
    intros [= <-].
    rewrite (fetch_some _ _ _ _ _ He), (fetch_some _ _ _ _ _ Hv1),
      (fetch_some _ _ _ _ _ Hv2), (fetch3_some _ _ _ _ _ Hxv1),
      (fetch3_some _ _ _ _ _ Hxv2), (fetch_some _ _ _ _ _ Htef).
    reflexivity.
  - rewrite (fetch_some _ _ _ _ _ Hfq).
    unfold bind at 1, store at 1. rewrite decide_True by done.
    rewrite (fetch_some _ _ _ _ _ Hlo), (fetch_some _ _ _ _ _ Hhi).
    match goal with
    | |- _ = Returns tt (<[f := ?y]> ev) =>
        rewrite <- (list_insert_insert_eq ev f y 0%R)
    end.
    apply for_add_to; [done | by apply list_lookup_insert_eq |].
    intros i ev' Hi. destruct (Hterms i Hi) as [t Ht].
    rewrite Ht. cbn [default]. revert Ht.
    unfold flux_edge_term, face_edge. rewrite Hfq.
    destruct (f2e_ids cm !! i) as [e|] eqn:He; [|done].
    destruct (e2v_ids cm !! (2 * e)) as [v1|] eqn:Hv1; [|done].
    destruct (e2v_ids cm !! (2 * e + 1)) as [v2|] eqn:Hv2; [|done].
    destruct (lookup3 (xv cm) (3 * v1)) as [xv1|] eqn:Hxv1; [|done].
    destruct (lookup3 (xv cm) (3 * v2)) as [xv2|] eqn:Hxv2; [|done].
    destruct (tef cm !! e) as [tef_e|] eqn:Htef; [|done].
    rewrite (fetch_some _ _ _ _ _ He), (fetch_some _ _ _ _ _ Hv1),
      (fetch_some _ _ _ _ _ Hv2), (fetch3_some _ _ _ _ _ Hxv1),
      (fetch3_some _ _ _ _ _ Hxv2), (fetch_some _ _ _ _ _ Htef).
    destruct (cs_quadrature_tria_3pts (center fq) xv1 xv2 tef_e) as [[[g0 g1] g2] w].
    intros [= <-]. reflexivity.
Qed.

(** The theorem for the unit square, the flux at (x, y, z) being
    (0, 0, 1 + x) and the output holding 7: the four triangles of the
    subdivision add their terms, which are not null, to this content. *)
Lemma flux_by_analytic_sums_edge_terms_witness :
  @cs_xdef_eval_cw_flux_by_analytic sample unit_square_cell 0 time_zero
    (fun _ xyz => (0, 0, 1 + comp xyz 0)%R) CS_QUADRATURE_BARY_SUBDIV [7%R]
    = Returns tt
        (<[0 := (7 + Rsum_range
                       (fun i => default 0%R
                          (@flux_edge_term sample unit_square_cell 0 time_zero
                             (fun _ xyz => (0, 0, 1 + comp xyz 0)%R)
                             CS_QUADRATURE_BARY_SUBDIV i)) 0 4)%R]>
           [7%R]).
Proof.
  apply (@flux_by_analytic_sums_edge_terms sample unit_square_cell 0 time_zero
           (fun _ xyz => (0, 0, 1 + comp xyz 0)%R) CS_QUADRATURE_BARY_SUBDIV 0 4 7%R [7%R]).
  - left. reflexivity.
  - intros _. reflexivity.
  - eexists. reflexivity.
  - reflexivity.
  - reflexivity.
  - lia.
  - intros i Hi.
    destruct i as [|[|[|[|i]]]]; [| | | | lia]; eexists; reflexivity.
  - reflexivity.
Defined.

Lemma acc_mono m b b' delta :
  b <= b' -> accumulates m b delta -> accumulates m b' delta.
Proof. intros Hb Hm ev Hlen. apply Hm. lia. Qed.

Lemma acc_for_range lo hi (body : nat -> M unit) b (delta : nat -> nat -> R) :
  lo <= hi ->
  (forall j, lo <= j < hi -> accumulates (body j) b (delta j)) ->
  accumulates (for_ lo hi body) b (fun q => Rsum_range (fun j => delta j q) lo hi).
Proof.
  intros Hle Hbody ev Hlen.
  apply (wp_for (fun m ev' =>
    length ev' = length ev /\
    (forall q x, ev !! q = Some x ->
       ev' !! q = Some (x + Rsum_range (fun j => delta j q) lo m)%R)));
    [done | |].
  - split; [done|]. intros q x Hq. rewrite Rsum_range_empty, Hq. f_equal. lra.
  - intros j ev1 Hj [Hl1 Hv1].
    eapply wp_mono; [|apply Hbody; [lia | lia]].
    intros _ ev2 [Hl2 Hv2]. simpl. split; [congruence|].
    intros q x Hq. rewrite (Hv2 q _ (Hv1 q x Hq)).
    rewrite Rsum_range_snoc by lia. f_equal. lra.
Qed.

(** [eval[p+k] += c k] for the three components [k]. *)
Lemma acc_block p (c : nat -> R) :
  accumulates (for_ 0 3 (fun k => add_to (p + k) (c k))) (p + 3)
    (fun q => if decide (p <= q < p + 3) then c (q - p) else 0%R).
Proof.
  eapply acc_ext; [|apply (acc_for 3 _ (p + 3)
    (fun k q => if decide (p + k = q) then c k else 0%R))].
  - intros q. unfold Rsum_range. simpl.
    destruct (decide (p <= q < p + 3)) as [Hin|Hout].
    + assert (q - p = 0 \/ q - p = 1 \/ q - p = 2) as [Hk|[Hk|Hk]] by lia; rewrite Hk.
      * rewrite decide_True, decide_False, decide_False by lia. lra.
      * rewrite decide_False, decide_True, decide_False by lia. lra.
      * rewrite decide_False, decide_False, decide_True by lia. lra.
    + rewrite !decide_False by lia. lra.
  - intros k Hk. eapply acc_mono; [|apply acc_add_to]. lia.
Qed.

Lemma acc_post (m : M unit) b delta (ev0 : list R) (Q : list R -> Prop) :
  accumulates m b delta -> b <= length ev0 ->
  (forall out,
     length out = length ev0 ->
     (forall q x, ev0 !! q = Some x -> out !! q = Some (x + delta q)%R) -> Q out) ->
  wp m (fun _ out => Q out) ev0.
Proof.
  intros Hm Hb HQ. eapply wp_mono; [|by apply Hm].
  intros _ out [Hl Hv]. by apply HQ.
Qed.

(** X21. With the quadratures [CS_QUADRATURE_BARY_SUBDIV] and
    [CS_QUADRATURE_HIGHER], [cs_xdef_eval_cw_tensor_flux_by_analytic]
    returns and adds to each of [eval[3*f]], [eval[3*f+1]], [eval[3*f+2]]
    the sum of the terms of the edges of the face; nothing is reset with
    the former, [eval[f]] (and not the three components of the face) is set
    to 0 beforehand with the latter; the rest of the output is what it was. *)
Theorem tensor_flux_by_analytic_sums_edge_terms `{Collaborators}
    (cm : cs_cell_mesh_t) (f : nat) (ts : cs_time_step_t) (anai : cs_analytic_tens_t)
    (qtype : cs_quadrature_type_t) (lo hi : nat) (ev : list R) :
  qtype = CS_QUADRATURE_BARY_SUBDIV \/ qtype = CS_QUADRATURE_HIGHER ->
  (qtype = CS_QUADRATURE_BARY_SUBDIV -> cs_flag_test (flag cm) ev_fe_feq = true) ->
  is_Some (face cm !! f) ->
  f2e_idx cm !! f = Some lo ->
  f2e_idx cm !! (f + 1) = Some hi ->
  lo <= hi ->
  (forall i k, lo <= i < hi -> k < 3 ->
     is_Some (tensor_flux_edge_term cm f ts anai qtype i k)) ->
  3 * f + 3 <= length ev ->
  exists out,
    cs_xdef_eval_cw_tensor_flux_by_analytic cm f ts anai qtype ev = Returns tt out /\
    length out = length ev /\
    (forall k y, k < 3 ->
       tensor_flux_start qtype f ev !! (3 * f + k) = Some y ->
       out !! (3 * f + k)
         = Some (y + Rsum_range
                       (fun i => default 0%R (tensor_flux_edge_term cm f ts anai qtype i k))
                       lo hi)%R) /\
    (forall q, ~ (3 * f <= q < 3 * f + 3) -> out !! q = tensor_flux_start qtype f ev !! q).
Proof.
  intros Hq Hflag [fq Hfq] Hlo Hhi Hle Hterms Hlen.
  set (term := fun i k => default 0%R (tensor_flux_edge_term cm f ts anai qtype i k)).
  set (delta := fun q =>
    if decide (3 * f <= q < 3 * f + 3)
    then Rsum_range (fun i => term i (q - 3 * f)) lo hi else 0%R).
  assert (Hpost : forall ev0 out : list R,
    length ev0 = length ev ->
    length out = length ev0 ->
    (forall q x, ev0 !! q = Some x -> out !! q = Some (x + delta q)%R) ->
    length out = length ev /\
    (forall k y, k < 3 -> ev0 !! (3 * f + k) = Some y ->
       out !! (3 * f + k) = Some (y + Rsum_range (fun i => term i k) lo hi)%R) /\
    (forall q, ~ (3 * f <= q < 3 * f + 3) -> out !! q = ev0 !! q)).
  { intros ev0 out Hl0 Hl Hv. split_and!; [congruence | |].
    - intros k y Hk Hy. rewrite (Hv _ _ Hy). unfold delta.
      rewrite decide_True by lia.
      by replace (3 * f + k - 3 * f) with k by lia.
    - intros q Hout. destruct (ev0 !! q) as [x|] eqn:Hx.
      + rewrite (Hv _ _ Hx). unfold delta. rewrite decide_False by done.
        f_equal. lra.
      + apply lookup_ge_None in Hx. apply lookup_ge_None. lia. }
  assert (Hsum : forall (d : nat -> nat -> R),
    (forall i q, lo <= i < hi ->
       d i q = if decide (3 * f <= q < 3 * f + 3) then term i (q - 3 * f) else 0%R) ->
    forall q, Rsum_range (fun i => d i q) lo hi = delta q).
  { intros d Hd q. unfold delta. destruct (decide (3 * f <= q < 3 * f + 3)) as [Hin|Hout].
    - apply Rsum_range_ext. intros i Hi. rewrite Hd by done. by rewrite decide_True.
    - transitivity (Rsum_range (fun _ => 0%R) lo hi); [|apply Rsum_range_zero].
      apply Rsum_range_ext. intros i Hi. rewrite Hd by done. by rewrite decide_False. }
  apply wp_returns_unit.
  unfold cs_xdef_eval_cw_tensor_flux_by_analytic.
  destruct Hq as [Hq | Hq]; subst qtype; cbn [tensor_flux_start].
  - apply wp_bind, wp_assert; [by apply Hflag|].
    apply wp_bind, (wp_fetch _ _ fq); [done|].
    apply wp_bind, (wp_fetch _ _ lo); [done|].
    apply wp_bind, (wp_fetch _ _ hi); [done|].
    apply (acc_post _ (3 * f + 3) delta); [|exact Hlen|intros out; by apply (Hpost ev)].
    eapply acc_ext; [|apply (acc_for_range lo hi _ (3 * f + 3)
      (fun i q => if decide (3 * f <= q < 3 * f + 3) then term i (q - 3 * f) else 0%R));
      [done|]].
    { apply Hsum. done. }
    intros i Hi.
    pose proof (Hterms i 0 Hi ltac:(lia)) as [t0 Ht0].
    revert Ht0. unfold term, tensor_flux_edge_term. rewrite Hfq.
    destruct (f2e_ids cm !! i) as [_2e|] eqn:He; [|done].
    destruct (e2v_ids cm !! _2e) as [v1|] eqn:Hv1; [|done].
    destruct (e2v_ids cm !! (_2e + 1)) as [v2|] eqn:Hv2; [|done].
    destruct (lookup3 (xv cm) (3 * v1)) as [xv1|] eqn:Hxv1; [|done].
    destruct (lookup3 (xv cm) (3 * v2)) as [xv2|] eqn:Hxv2; [|done].
    destruct (tef cm !! i) as [tef_i|] eqn:Htef; [|done].
    intros _. cbn [default].
    eapply acc_fetch; [done|]. eapply acc_fetch; [done|]. eapply acc_fetch; [done|].
    intros ev' Hev'. unfold wp.
    rewrite (fetch3_some _ _ _ _ _ Hxv1), (fetch3_some _ _ _ _ _ Hxv2),
      (fetch_some _ _ _ _ _ Htef).
    by apply (acc_block (3 * f)
      (fun k => (tef_i * comp (cs_math_33_3_product
                                 (anai (t_cur ts) (third_point (center fq) xv1 xv2))
                                 (unitv fq)) k)%R)).
  - apply wp_bind, (wp_fetch _ _ fq); [done|].
    apply wp_bind, wp_store; [lia|].
    apply wp_bind, (wp_fetch _ _ lo); [done|].
    apply wp_bind, (wp_fetch _ _ hi); [done|].
    apply (acc_post _ (3 * f + 3) delta);
      [|rewrite length_insert; exact Hlen|
       intros out; apply (Hpost (<[f:=0%R]> ev)); by rewrite length_insert].
    eapply acc_ext; [|apply (acc_for_range lo hi _ (3 * f + 3)
      (fun i q => if decide (3 * f <= q < 3 * f + 3) then term i (q - 3 * f) else 0%R));
      [done|]].
    { apply Hsum. done. }
    intros i Hi.
    pose proof (Hterms i 0 Hi ltac:(lia)) as [t0 Ht0].
    revert Ht0. unfold term, tensor_flux_edge_term, face_edge. rewrite Hfq.
    destruct (f2e_ids cm !! i) as [e|] eqn:He; [|done].
    destruct (e2v_ids cm !! (2 * e)) as [v1|] eqn:Hv1; [|done].
    destruct (e2v_ids cm !! (2 * e + 1)) as [v2|] eqn:Hv2; [|done].
    destruct (lookup3 (xv cm) (3 * v1)) as [xv1|] eqn:Hxv1; [|done].
    destruct (lookup3 (xv cm) (3 * v2)) as [xv2|] eqn:Hxv2; [|done].
    destruct (tef cm !! e) as [tef_e|] eqn:Htefe; [|done].
    destruct (tef cm !! i) as [tef_i|] eqn:Htef; [|done].
    intros _.
    eapply acc_fetch; [done|]. eapply acc_fetch; [done|]. eapply acc_fetch; [done|].
    intros ev' Hev'. unfold wp.
    rewrite (fetch3_some _ _ _ _ _ Hxv1), (fetch3_some _ _ _ _ _ Hxv2),
      (fetch_some _ _ _ _ _ Htefe).
    destruct (cs_quadrature_tria_3pts (center fq) xv1 xv2 tef_e) as [gpts w].
    rewrite (fetch_some _ _ _ _ _ Htef). cbn [default].
    revert ev' Hev'. change (accumulates
      (for_ 0 3 (fun p =>
         for_ 0 3 (fun k =>
           add_to (3 * f + k)
             (w * tef_i * comp (cs_math_33_3_product (anai (t_cur ts) (row gpts p))
                                  (unitv fq)) k)%R)))
      (3 * f + 3)
      (fun q => if decide (3 * f <= q < 3 * f + 3)
                then (w * tef_i * comp (cs_math_33_3_product (anai (t_cur ts) (row gpts 0))
                                          (unitv fq)) (q - 3 * f)
                      + w * tef_i * comp (cs_math_33_3_product (anai (t_cur ts) (row gpts 1))
                                            (unitv fq)) (q - 3 * f)
                      + w * tef_i * comp (cs_math_33_3_product (anai (t_cur ts) (row gpts 2))
                                            (unitv fq)) (q - 3 * f))%R
                else 0%R)).
    eapply acc_ext; [|apply acc_for; intros p Hp; apply acc_block].
    intros q. unfold Rsum_range, Rsum. cbn [Nat.sub seq map foldr].
    destruct (decide (3 * f <= q < 3 * f + 3)); lra.
Qed.

(** The theorem for the unit square (face 0) and the tensor 2*Id with the
    quadrature [CS_QUADRATURE_HIGHER], the output holding (7, 8, 9): the
    terms are added to (0, 8, 9). *)
Lemma tensor_flux_by_analytic_sums_edge_terms_witness :
  exists out,
    @cs_xdef_eval_cw_tensor_flux_by_analytic sample unit_square_cell 0 time_zero
      (fun _ _ => twice_identity) CS_QUADRATURE_HIGHER [7; 8; 9]%R = Returns tt out /\
    length out = length [7; 8; 9]%R /\
    (forall k y, k < 3 ->
       tensor_flux_start CS_QUADRATURE_HIGHER 0 [7; 8; 9]%R !! (3 * 0 + k) = Some y ->
       out !! (3 * 0 + k)
         = Some (y + Rsum_range
                       (fun i => default 0%R
                          (@tensor_flux_edge_term sample unit_square_cell 0 time_zero
                             (fun _ _ => twice_identity) CS_QUADRATURE_HIGHER i k))
                       0 4)%R) /\
    (forall q, ~ (3 * 0 <= q < 3 * 0 + 3) ->
       out !! q = tensor_flux_start CS_QUADRATURE_HIGHER 0 [7; 8; 9]%R !! q).
Proof.
  apply (@tensor_flux_by_analytic_sums_edge_terms sample unit_square_cell 0 time_zero
           (fun _ _ => twice_identity) CS_QUADRATURE_HIGHER 0 4 [7; 8; 9]%R).
  - right. reflexivity.
  - intros [=].
  - eexists. reflexivity.
  - reflexivity.
  - reflexivity.
  - lia.
  - intros i k Hi Hk.
    destruct i as [|[|[|[|i]]]]; [| | | | lia]; eexists; reflexivity.
  - simpl. lia.
Defined.

(** ** Flux of a constant tensor *)

(** X22. [cs_xdef_eval_cw_tensor_flux_by_val] returns on every face [f] of
    the cell whose three reals exist in the output.  For the face 0 the
    output holds the flux, the product of the tensor with the unit normal
    times the area of the face, at [eval[0..2]].  For any other face the
    product (not multiplied by the area) is at [eval[0..2]] and the three
    reals of the face are their former contents times the area.  The rest
    of the output is what it was. *)
Theorem tensor_flux_by_val_behaviour
    (cm : cs_cell_mesh_t) (f : nat) (input : cs_real_33_t) (fq : cs_quant_t) (ev : list R) :
  face cm !! f = Some fq ->
  3 * f + 3 <= length ev ->
  exists out,
    cs_xdef_eval_cw_tensor_flux_by_val cm f input ev = Returns tt out /\
    length out = length ev /\
    (f = 0 ->
     forall k, k < 3 ->
       out !! k = Some (comp (cs_math_33_3_product input (unitv fq)) k * meas fq)%R) /\
    (0 < f ->
     forall k, k < 3 ->
       out !! k = Some (comp (cs_math_33_3_product input (unitv fq)) k) /\
       forall y, ev !! (3 * f + k) = Some y -> out !! (3 * f + k) = Some (y * meas fq)%R) /\
    (forall q, 3 <= q -> ~ (3 * f <= q < 3 * f + 3) -> out !! q = ev !! q).
Proof.
  intros Hfq Hlen. apply wp_returns_unit.
  unfold cs_xdef_eval_cw_tensor_flux_by_val.
  apply wp_bind, (wp_fetch _ _ fq); [done|].
  apply wp_bind. eapply wp_mono; [|apply (wb_store3 0); simpl; lia].
  intros [] ev1 (Hl1 & Hv1 & Hfr1). cbv beta.
  apply (wp_modify_block (3 * f) 3 (fun _ y => (y * meas fq)%R)); [done | lia |].
  intros out Hl Hv Hfr. split_and!.
  - congruence.
  - intros -> k Hk. exact (Hv k _ Hk (Hv1 k Hk)).
  - intros Hf k Hk. split.
    + rewrite Hfr by lia. apply (Hv1 k Hk).
    + intros y Hy. apply (Hv k y Hk). rewrite Hfr1 by (simpl; lia). done.
  - intros q Hq Hout. rewrite Hfr by done. apply Hfr1. simpl. lia.
Qed.

(** The theorem for the second face of a cell with two faces of unit normal
    (0, 0, 1) and area 3, the tensor 2*Id and an output holding
    (0, 0, 0, 7, 8, 9). *)
Lemma tensor_flux_by_val_behaviour_witness :
  exists out,
    cs_xdef_eval_cw_tensor_flux_by_val two_faces_cell 1 twice_identity
      [0; 0; 0; 7; 8; 9]%R = Returns tt out /\
    forall k, k < 3 ->
      out !! k = Some (comp (cs_math_33_3_product twice_identity (0, 0, 1)%R) k) /\
      forall y, [0; 0; 0; 7; 8; 9]%R !! (3 * 1 + k) = Some y ->
        out !! (3 * 1 + k) = Some (y * 3)%R.
Proof.
  destruct (tensor_flux_by_val_behaviour two_faces_cell 1 twice_identity
              {| meas := 3%R; unitv := (0, 0, 1)%R; center := (0, 0, 1)%R |}
              [0; 0; 0; 7; 8; 9]%R) as (out & Hrun & _ & _ & Hother & _).
  - reflexivity.
  - simpl. lia.
  - exists out. split; [exact Hrun|]. apply Hother. lia.
Defined.

(** ** Reconstruction at all the vertices from the dual faces *)

(** X23. For an array on the dual faces by cell whose reconstruction at
    the cell center is the same vector for every cell, and a mesh whose
    vertices all belong to a cell (the dual volumes being positive),
    [cs_xdef_eval_3_at_all_vertices_by_array] called for all the vertices on
    an output holding zeros returns, and the output holds that vector for
    every vertex. *)
Theorem constant_reconstruction_at_all_vertices `{Collaborators}
    (n_elts : cs_lnum_t) (compact : bool)
    (connect : cs_cdo_connect_t) (quant : cs_cdo_quantities_t)
    (input : cs_xdef_array_input_t) (vec : cs_real_3_t) (ev : list R) :
  cs_flag_test (loc input) cs_flag_primal_cell = false ->
  cs_flag_test (loc input) cs_flag_dual_face_byc = true ->
  (forall c, c < n_cells quant ->
     cs_reco_dfbyc_at_cell_center c (c2e connect) quant (values input) = vec) ->
  cell_vertices connect quant ->
  vertices_covered connect quant ->
  n_vertices quant <= n_elts ->
  3 * n_vertices quant <= length ev ->
  (forall q, q < 3 * n_vertices quant -> ev !! q = Some 0%R) ->
  exists ev',
    cs_xdef_eval_3_at_all_vertices_by_array n_elts None compact connect quant input ev
      = Returns tt ev' /\
    forall v k, v < n_vertices quant -> k < 3 -> ev' !! (3 * v + k) = Some (comp vec k).
Proof.
  intros Hcell Hdual Hreco Hmesh Hcov Hn Hlen Hzero.
  assert (Hwp : wp
    (cs_xdef_eval_3_at_all_vertices_by_array n_elts None compact connect quant input)
    (fun _ ev' =>
       forall v k, v < n_vertices quant -> k < 3 -> ev' !! (3 * v + k) = Some (comp vec k))
    ev).
  { unfold cs_xdef_eval_3_at_all_vertices_by_array.
    rewrite Hcell, Hdual.
    rewrite bool_decide_eq_false_2 by (intros Hnn; by apply Hnn).
    rewrite (proj2 (Nat.ltb_ge _ _) Hn). unfold orb. cbv iota.
    apply wp_bind, wp_ret. apply wp_bind.
    eapply wp_mono.
    2: { apply (wp_for_acc (fun c dc ev' =>
           accumulated connect quant vec (length ev) c 0 dc ev')); [lia | |].
         - split_and!; [by rewrite length_replicate | done | |].
           + intros v d Hd. apply lookup_replicate in Hd as [-> Hv]. split; [lra|].
             intros k Hk. rewrite Hzero by lia. f_equal. lra.
           + intros v d (c' & j & lo & hi & _ & _ & Hj & _ & Hcase). lia.
         - intros c dc ev' Hc Hstate. rewrite Hreco by lia.
           apply (accumulate_cell connect quant vec (length ev)); [done | done | lia | done]. }
    intros dc_vol ev1 Hacc.
    by apply (normalize_vertices connect quant vec (length ev)). }
  apply wp_returns in Hwp as ([] & ev' & Hrun & Hres). by exists ev'.
Qed.

(** The theorem for two cells that share one of the three vertices of the
    mesh, the reconstruction being the vector (1, 2, 3) for both cells:
    the output of nine zeros ends as (1, 2, 3) for each vertex. *)
Lemma constant_reconstruction_at_all_vertices_witness :
  exists ev',
    @cs_xdef_eval_3_at_all_vertices_by_array sample_reconstruction 3 None false
      two_cells_connect two_cells dual_face_fluxes (replicate 9 0%R)
      = Returns tt ev' /\
    forall v k, v < 3 -> k < 3 -> ev' !! (3 * v + k) = Some (comp (1, 2, 3)%R k).
Proof.
  apply (@constant_reconstruction_at_all_vertices sample_reconstruction 3 false
           two_cells_connect two_cells dual_face_fluxes (1, 2, 3)%R
           (replicate 9 0%R)).
  - reflexivity.
  - reflexivity.
  - intros c Hc. reflexivity.
  - split_and!.
    + intros c Hc. destruct c as [|[|c]]; [| | simpl in Hc; lia].
      * exists 0, 2. repeat split; simpl; lia.
      * exists 2, 4. repeat split; simpl; lia.
    + intros j v Hj.
      destruct j as [|[|[|[|j]]]]; simpl in Hj; [| | | | discriminate];
        injection Hj as <-; simpl; lia.
    + intros j x Hj.
      destruct j as [|[|[|[|j]]]]; simpl in Hj; [| | | | discriminate];
        injection Hj as <-; lra.
  - intros v Hv. destruct v as [|[|[|v]]]; [| | | simpl in Hv; lia].
    + exists 0, 0. split; [simpl; lia|]. exists 0, 2. repeat split; simpl; lia.
    + exists 0, 1. split; [simpl; lia|]. exists 0, 2. repeat split; simpl; lia.
    + exists 1, 3. split; [simpl; lia|]. exists 2, 4. repeat split; simpl; lia.
  - simpl. lia.
  - simpl. lia.
  - intros q Hq. apply lookup_replicate_2. simpl in Hq. lia.
Defined.

(** ** Vertex portions of the flux of a constant function *)

Lemma for_from_ext_range {T} k (body body' : nat -> T -> M T) :
  forall i acc ev,
    (forall j acc ev, i <= j < i + k -> body j acc ev = body' j acc ev) ->
    for_from k i body acc ev = for_from k i body' acc ev.
Proof.
  induction k as [|k IH]; intros i acc ev Hbody; [done|].
  simpl. unfold bind. rewrite Hbody by lia.
  destruct (body' i acc ev); [|done|done].
  apply IH. intros j acc' ev' Hj. apply Hbody. lia.
Qed.

Lemma for_ext_range lo hi (body body' : nat -> M unit) ev :
  (forall i ev, lo <= i < hi -> body i ev = body' i ev) ->
  for_ lo hi body ev = for_ lo hi body' ev.
Proof.
  intros Hbody. apply for_from_ext_range. intros j _ ev' Hj. apply Hbody. lia.
Qed.

Lemma assert_true {B} (k : unit -> M B) ev : bind (assert true) k ev = k tt ev.
Proof. reflexivity. Qed.

(** X24. For a constant vector function,
    [cs_xdef_eval_cw_at_vtx_flux_by_analytic] with the quadrature
    [CS_QUADRATURE_BARY_SUBDIV] has the outcome of
    [cs_xdef_eval_cw_at_vtx_flux_by_val] for the value of the function, on
    every output array, when the edges of the face, their vertices and the
    coordinates of these are available. *)
Theorem at_vtx_flux_subdivision_of_constant `{Collaborators}
    (cm : cs_cell_mesh_t) (f : nat) (ts : cs_time_step_t) (flux : cs_real_3_t)
    (lo hi : nat) (ev : list R) :
  cs_flag_test (flag cm) (N.lor CS_CDO_LOCAL_EV CS_CDO_LOCAL_FE) = true ->
  is_Some (face cm !! f) ->
  f2e_idx cm !! f = Some lo ->
  f2e_idx cm !! (f + 1) = Some hi ->
  (forall i, lo <= i < hi ->
     exists e xv1 xv2, face_edge cm i = Some (e, xv1, xv2) /\ is_Some (edge cm !! e)) ->
  cs_xdef_eval_cw_at_vtx_flux_by_analytic cm f ts (fun _ _ => flux)
    CS_QUADRATURE_BARY_SUBDIV ev
  = cs_xdef_eval_cw_at_vtx_flux_by_val cm f flux ev.
Proof.
  intros Hflag [fq Hfq] Hlo Hhi Hedges.
  unfold cs_xdef_eval_cw_at_vtx_flux_by_analytic, cs_xdef_eval_cw_at_vtx_flux_by_val.
  rewrite Hflag, assert_true.
  rewrite (fetch_some _ _ _ _ _ Hfq).
  destruct (cs_flag_test (flag cm) CS_CDO_LOCAL_FEQ).
  - rewrite !(fetch_some _ _ _ _ _ Hlo), !(fetch_some _ _ _ _ _ Hhi).
    apply for_ext_range. intros i ev' Hi.
    destruct (Hedges i Hi) as (e & xv1 & xv2 & Hedge & [pe Hpe]).
    revert Hedge. unfold face_edge.
    destruct (f2e_ids cm !! i) as [e'|] eqn:He; [|done].
    destruct (e2v_ids cm !! (2 * e')) as [v1|] eqn:Hv1; [|done].
    destruct (e2v_ids cm !! (2 * e' + 1)) as [v2|] eqn:Hv2; [|done].
    destruct (lookup3 (xv cm) (3 * v1)) as [x1|] eqn:Hx1; [|done].
    destruct (lookup3 (xv cm) (3 * v2)) as [x2|] eqn:Hx2; [|done].
    intros [= -> -> ->].
    rewrite !(fetch_some _ _ _ _ _ He), (fetch_some _ _ _ _ _ Hv1),
      (fetch_some _ _ _ _ _ Hv2), (fetch_some _ _ _ _ _ Hpe),
      (fetch3_some _ _ _ _ _ Hx1), (fetch3_some _ _ _ _ _ Hx2).
    destruct (tef cm !! i) as [tef_i|] eqn:Htef.
    + rewrite !(fetch_some _ _ _ _ _ Htef), (fetch_some _ _ _ _ _ Hfq),
        (fetch_some _ _ _ _ _ Hv1).
      apply bind_ext. intros [] ev''.
      by rewrite (fetch_some _ _ _ _ _ Htef), (fetch_some _ _ _ _ _ Hv2).
    + unfold bind, fetch. by rewrite Htef.
  - rewrite !(fetch_some _ _ _ _ _ Hlo), !(fetch_some _ _ _ _ _ Hhi).
    apply for_ext_range. intros i ev' Hi.
    destruct (Hedges i Hi) as (e & xv1 & xv2 & Hedge & [pe Hpe]).
    revert Hedge. unfold face_edge.
    destruct (f2e_ids cm !! i) as [e'|] eqn:He; [|done].
    destruct (e2v_ids cm !! (2 * e')) as [v1|] eqn:Hv1; [|done].
    destruct (e2v_ids cm !! (2 * e' + 1)) as [v2|] eqn:Hv2; [|done].
    destruct (lookup3 (xv cm) (3 * v1)) as [x1|] eqn:Hx1; [|done].
    destruct (lookup3 (xv cm) (3 * v2)) as [x2|] eqn:Hx2; [|done].
    intros [= -> -> ->].
    rewrite !(fetch_some _ _ _ _ _ He), (fetch_some _ _ _ _ _ Hv1),
      (fetch_some _ _ _ _ _ Hv2), !(fetch_some _ _ _ _ _ Hpe),
      (fetch3_some _ _ _ _ _ Hx1), (fetch3_some _ _ _ _ _ Hx2),
      (fetch_some _ _ _ _ _ Hfq), (fetch_some _ _ _ _ _ Hv1).
    apply bind_ext. intros [] ev''.
    by rewrite (fetch_some _ _ _ _ _ Hv2).
Qed.

(** The theorem for the unit square and the flux (0, 0, 1). *)
Lemma at_vtx_flux_subdivision_of_constant_witness :
  @cs_xdef_eval_cw_at_vtx_flux_by_analytic sample unit_square_cell 0 time_zero
    (fun _ _ => (0, 0, 1)%R) CS_QUADRATURE_BARY_SUBDIV (replicate 4 0%R)
  = @cs_xdef_eval_cw_at_vtx_flux_by_val sample unit_square_cell 0 (0, 0, 1)%R
      (replicate 4 0%R).
Proof.
  apply (@at_vtx_flux_subdivision_of_constant sample unit_square_cell 0 time_zero
           (0, 0, 1)%R 0 4 (replicate 4 0%R)).
  - reflexivity.
  - eexists. reflexivity.
  - reflexivity.
  - reflexivity.
  - intros i Hi.
    destruct i as [|[|[|[|i]]]]; [| | | | lia];
      do 3 eexists; (split; [reflexivity | eexists; reflexivity]).
Defined.

(** ** Average on a triangular boundary face *)

Lemma Rsum_range_shifted (g : nat -> R) p q n :
  Rsum_range (fun k => if decide (p + k = q) then g k else 0%R) 0 n
  = if decide (p <= q < p + n) then g (q - p) else 0%R.
Proof.
  induction n as [|n IH].
  - rewrite Rsum_range_empty. by rewrite decide_False by lia.
  - rewrite Rsum_range_snoc, IH by lia.
    destruct (decide (p + n = q)) as [<-|Hne].
    + rewrite decide_False, decide_True by lia.
      replace (p + n - p) with n by lia. lra.
    + destruct (decide (p <= q < p + n)).
      * rewrite decide_True by lia. lra.
      * rewrite decide_False by lia. lra.
Qed.

(** What a quadrature rule adds to the block it is given. *)
Lemma acc_add_block p dim (contribution : list R) :
  dim <= length contribution ->
  accumulates (add_block p dim contribution) (p + dim)
    (fun q => if decide (p <= q < p + dim) then nth (q - p) contribution 0%R else 0%R).
Proof.
  intros Hdim. unfold add_block.
  eapply acc_ext; [|apply (acc_for dim _ (p + dim)
    (fun k q => if decide (p + k = q) then nth k contribution 0%R else 0%R))].
  - intros q. apply (Rsum_range_shifted (fun k => nth k contribution 0%R)).
  - intros k Hk. eapply acc_fetch; [apply lookup_nth; lia|].
    eapply acc_mono; [|apply acc_add_to]. lia.
Qed.

(** X25. For one selected boundary face that is a triangle,
    [cs_xdef_eval_avg_at_b_faces_by_analytic] returns; each component of
    the block of the face, [eval[dim*f_id+k]], ends as its former content
    plus the contribution of the quadrature rule on the triangle, divided
    by the area of the face: it is the average when the block held zeros.
    The rest of the output is what it was. *)
Theorem avg_at_b_faces_on_a_triangle `{Collaborators}
    (compact : bool) (connect : cs_cdo_connect_t) (quant : cs_cdo_quantities_t)
    (ts : cs_time_step_t) (input : cs_analytic_func_t)
    (qtype : cs_quadrature_type_t) (dim : nat) (f_id : cs_lnum_t)
    (qfunc : cs_quadrature_tria_integral_t)
    (start_idx end_idx v1 v2 v3 : nat) (x1 x2 x3 : cs_real_3_t) (ev : list R) :
  let pfq := cs_quant_set_face f_id quant in
  let contribution := qfunc (t_cur ts) x1 x2 x3 (meas pfq) input in
  avg_rule dim qtype = Some qfunc ->
  idx (f2e connect) !! f_id = Some start_idx ->
  idx (f2e connect) !! (f_id + 1) = Some end_idx ->
  end_idx - start_idx = CS_TRIANGLE_CASE ->
  cs_connect_get_next_3_vertices (ids (f2e connect)) (ids (e2v connect)) start_idx
    = (v1, v2, v3) ->
  lookup3 (vtx_coord quant) (3 * v1) = Some x1 ->
  lookup3 (vtx_coord quant) (3 * v2) = Some x2 ->
  lookup3 (vtx_coord quant) (3 * v3) = Some x3 ->
  dim <= length contribution ->
  dim * f_id + dim <= length ev ->
  exists out,
    cs_xdef_eval_avg_at_b_faces_by_analytic 1 (Some [f_id]) compact connect quant ts input
      qtype dim ev = Returns tt out /\
    length out = length ev /\
    (forall k x, k < dim -> ev !! (dim * f_id + k) = Some x ->
       out !! (dim * f_id + k) = Some ((x + nth k contribution 0) * (1 / meas pfq))%R) /\
    (forall q, ~ (dim * f_id <= q < dim * f_id + dim) -> out !! q = ev !! q).
Proof.
  intros pfq contribution Hrule Hstart Hend Htri Hvtx Hx1 Hx2 Hx3 Hdim Hlen.
  apply wp_returns_unit.
  unfold cs_xdef_eval_avg_at_b_faces_by_analytic.
  assert (Hq : forall (k : cs_quadrature_tria_integral_t -> M unit) Q,
    wp (k qfunc) Q ev ->
    wp (bind
          match dim with
          | 1 =>
              match qtype with
              | CS_QUADRATURE_BARY | CS_QUADRATURE_BARY_SUBDIV =>
                  ret cs_quadrature_tria_1pt_scal
              | CS_QUADRATURE_HIGHER => ret cs_quadrature_tria_3pts_scal
              | CS_QUADRATURE_HIGHEST => ret cs_quadrature_tria_4pts_scal
              | _ => bft_error ("Invalid quadrature type." ++ newline)
              end
          | 3 =>
              match qtype with
              | CS_QUADRATURE_BARY | CS_QUADRATURE_BARY_SUBDIV =>
                  ret cs_quadrature_tria_1pt_vect
              | CS_QUADRATURE_HIGHER => ret cs_quadrature_tria_3pts_vect
              | CS_QUADRATURE_HIGHEST => ret cs_quadrature_tria_4pts_vect
              | _ => bft_error ("Invalid quadrature type." ++ newline)
              end
          | _ => bft_error (" Invalid dimension of the analytical fucntion." ++ newline)
          end k) Q ev).
  { intros k Q Hk. unfold avg_rule in Hrule.
    destruct dim as [|[|[|[|d]]]]; try done;
      destruct qtype; try done; injection Hrule as <-; exact Hk. }
  apply Hq. clear Hq.
  unfold wp. rewrite for_one. rewrite (fetch_some [f_id] 0 f_id) by done.
  change (wp (average_on_face connect quant (t_cur ts) input qfunc dim f_id (dim * f_id))
            (fun _ out =>
               length out = length ev /\
               (forall k x, k < dim -> ev !! (dim * f_id + k) = Some x ->
                  out !! (dim * f_id + k)
                    = Some ((x + nth k contribution 0) * (1 / meas pfq))%R) /\
               (forall q, ~ (dim * f_id <= q < dim * f_id + dim) -> out !! q = ev !! q))
            ev).
  unfold average_on_face.
  apply wp_bind, (wp_fetch _ _ start_idx); [done|].
  apply wp_bind, (wp_fetch _ _ end_idx); [done|].
  rewrite Htri, Nat.eqb_refl, Hvtx.
  apply wp_bind. unfold wp at 1.
  rewrite (fetch3_some _ _ _ _ _ Hx1), (fetch3_some _ _ _ _ _ Hx2),
    (fetch3_some _ _ _ _ _ Hx3).
  apply (acc_post _ (dim * f_id + dim)
           (fun q => if decide (dim * f_id <= q < dim * f_id + dim)
                     then nth (q - dim * f_id) contribution 0%R else 0%R));
    [by apply acc_add_block | done |].
  intros ev1 Hl1 Hv1.
  apply (wp_modify_block (dim * f_id) dim (fun _ y => (y * (1 / meas pfq))%R));
    [done | lia |].
  intros out Hl Hv Hfr. split_and!; [congruence | |].
  - intros k x Hk Hx. apply (Hv k _ Hk). rewrite (Hv1 _ _ Hx).
    rewrite decide_True by lia. by replace (dim * f_id + k - dim * f_id) with k by lia.
  - intros q Hout. rewrite Hfr by done.
    destruct (ev !! q) as [x|] eqn:Hx.
    + rewrite (Hv1 _ _ Hx), decide_False by done. f_equal. lra.
    + apply lookup_ge_None in Hx. apply lookup_ge_None. lia.
Qed.

(** The theorem for the second of two triangles of area 2 and the constant
    function 5, on an output holding (0, 4). *)
Lemma avg_at_b_faces_on_a_triangle_witness :
  exists out,
    @cs_xdef_eval_avg_at_b_faces_by_analytic sample 1 (Some [1]) false
      two_triangles_connect two_triangles time_zero constant_five CS_QUADRATURE_BARY 1
      [0; 4]%R = Returns tt out /\
    length out = length [0; 4]%R /\
    (forall k x, k < 1 -> [0; 4]%R !! (1 * 1 + k) = Some x ->
       out !! (1 * 1 + k)
         = Some ((x + nth k
                        (barycenter_rule 0 (0, 0, 0) (1, 0, 0) (0, 1, 0) 2 constant_five) 0)
                 * (1 / 2))%R) /\
    (forall q, ~ (1 * 1 <= q < 1 * 1 + 1) -> out !! q = [0; 4]%R !! q).
Proof.
  apply (@avg_at_b_faces_on_a_triangle sample false two_triangles_connect two_triangles
           time_zero constant_five CS_QUADRATURE_BARY 1 1 barycenter_rule
           3 6 0 1 2 (0, 0, 0)%R (1, 0, 0)%R (0, 1, 0)%R [0; 4]%R);
    first [reflexivity | simpl; lia].
Defined.

(** ** Interpolation of an array at a set of points *)

(** X26. On an array of stride 3 located at the vertices,
    [cs_xdef_eval_cw_3_at_xyz_by_array] returns and adds to [eval[0..2]]
    the vector interpolated at the cell center from the vertices of the
    cell with the weights [wvc]; whatever the number of points, the rest of
    the output is what it was. *)
Theorem cw_3_at_xyz_by_array_interpolates `{Collaborators}
    (cm : cs_cell_mesh_t) (n_points : cs_lnum_t) (input : cs_xdef_array_input_t)
    (ev : list R) :
  cs_flag_test (flag cm) CS_CDO_LOCAL_PVQ = true ->
  cs_flag_test (loc input) cs_flag_primal_cell = false ->
  cs_flag_test (loc input) cs_flag_primal_vtx = true ->
  stride input = 3 ->
  vertex_data cm 3 (values input) ->
  3 <= length ev ->
  exists ev',
    cs_xdef_eval_cw_3_at_xyz_by_array cm n_points input ev = Returns tt ev' /\
    length ev' = length ev /\
    (forall k x, k < 3 -> ev !! k = Some x ->
       ev' !! k = Some (x + weighted_vertex_sum cm 3 (values input) k)%R) /\
    (forall q, 3 <= q -> ev' !! q = ev !! q).
Proof.
  intros Hpvq Hcell Hvtx Hs Hdata Hlen.
  assert (Hacc : accumulates (cs_xdef_eval_cw_3_at_xyz_by_array cm n_points input) 3
            (fun q => if decide (q < 3)
                      then weighted_vertex_sum cm 3 (values input) q else 0%R)).
  { unfold cs_xdef_eval_cw_3_at_xyz_by_array. rewrite Hcell, Hvtx, Hs.
    apply acc_assert; [done|]. apply acc_assert; [done|].
    by apply (acc_components_then_vertices cm 3). }
  specialize (Hacc ev Hlen).
  apply wp_returns in Hacc as ([] & ev' & Hrun & Hl & Hv).
  exists ev'. split_and!; [done | done | |].
  - intros k x Hk Hx. rewrite (Hv k x Hx). by rewrite decide_True.
  - intros q Hq. destruct (ev !! q) as [x|] eqn:Hx.
    + rewrite (Hv q x Hx). rewrite decide_False by lia. f_equal. lra.
    + apply lookup_ge_None. rewrite Hl. by apply lookup_ge_None.
Qed.

(** The theorem for a vector at each of the four vertices of the unit
    square and two points. *)
Lemma cw_3_at_xyz_by_array_interpolates_witness :
  exists ev',
    @cs_xdef_eval_cw_3_at_xyz_by_array sample unit_square_cell 2 vertex_vectors
      (replicate 6 1%R) = Returns tt ev' /\
    length ev' = length (replicate 6 1%R) /\
    (forall k x, k < 3 -> replicate 6 1%R !! k = Some x ->
       ev' !! k
         = Some (x + weighted_vertex_sum unit_square_cell 3 (values vertex_vectors) k)%R) /\
    (forall q, 3 <= q -> ev' !! q = replicate 6 1%R !! q).
Proof.
  apply (@cw_3_at_xyz_by_array_interpolates sample unit_square_cell 2 vertex_vectors
           (replicate 6 1%R)).
  - reflexivity.
  - reflexivity.
  - reflexivity.
  - reflexivity.
  - intros v Hv. simpl in Hv.
    destruct v as [|[|[|[|v]]]]; [| | | | lia].
    + exists 0.25%R, 0. split_and!; [reflexivity | reflexivity | simpl; lia].
    + exists 0.25%R, 1. split_and!; [reflexivity | reflexivity | simpl; lia].
    + exists 0.25%R, 2. split_and!; [reflexivity | reflexivity | simpl; lia].
    + exists 0.25%R, 3. split_and!; [reflexivity | reflexivity | simpl; lia].
  - simpl. lia.
Defined.
